(** * Preeti to Unicode converter: embedding and verified properties

    Shallow embedding of the transliteration core of the
    preeti-unicode-converter package:

    - [preeti_unicode/converter.py]: the class tables, [normalize_preeti],
      [convert_to_unicode], [convert_numbers_to_nepali], [convert_text];
    - [preeti_unicode/fonts/font_manager.py]: [FontRule], [FontMapping]
      and its in-place rewriting [convert_text];
    - [preeti_unicode/fonts/preeti_variants.py]: [detect_variant];
    - [preeti_unicode/fonts/custom_fonts.py] and [font_registry.py]:
      [FontDefinition], the default validators and [register_font].

    Further parts of the same files follow: [is_preeti_font],
    [FontMapping.remove_rule], [FontDetector], [FontManager], the
    dictionaries of a [FontDefinition] (with typed values, and as
    [json.load] returns them), the queries of the registry and
    [unregister_font], and the built-in mappings of
    [preeti_variants.py] with the registry that holds them.

    A Python [str] is a sequence of Unicode code points, so a character is
    a code point ([N]) and a string a list of them; [len] and every index
    count code points.  Python integers are [Z]. *)

From Stdlib Require Import List ZArith NArith Bool Lia Permutation Sorted String Ascii DecimalString.
Import ListNotations.

Open Scope Z_scope.

(** ** Python values *)

Definition char : Type := N.
Definition str : Type := list char.

(** ASCII literals of the source, as code points. *)
Definition lit (s : string) : str :=
  List.map N_of_ascii (list_ascii_of_string s).

(** [str(i)] for a natural number, as in an f-string. *)
Definition show_nat (i : nat) : string :=
  NilEmpty.string_of_uint (Nat.to_uint i).

Definition ord (c : char) : Z := Z.of_N c.

Definition len {A : Type} (s : list A) : Z := Z.of_nat (List.length s).

Definition char_eqb (a b : char) : bool := N.eqb a b.

Fixpoint str_eqb (a b : str) : bool :=
  match a, b with
  | [], [] => true
  | x :: a', y :: b' => char_eqb x y && str_eqb a' b'
  | _, _ => false
  end.

(** Exceptions that the modelled code can raise or catch, and the outcome
    of a computation: a value, an exception, or a loop that was cut off. *)
Inductive exn : Type :=
| IndexError
| KeyError
| ValidationError (errors : list string)
| ConfigurationError (cause : exn).

Inductive outcome (A : Type) : Type :=
| Returned (a : A)
| Raised (e : exn)
| OutOfFuel.

Arguments Returned {A} a.
Arguments Raised {A} e.
Arguments OutOfFuel {A}.

Definition bind {A B : Type} (m : outcome A) (k : A -> outcome B) : outcome B :=
  match m with
  | Returned a => k a
  | Raised e => Raised e
  | OutOfFuel => OutOfFuel
  end.

Notation "x <- m ;; k" := (bind m (fun x => k))
  (at level 61, m at next level, right associativity).

(** [s[i]] on a list or a string: a negative index counts from the end,
    an index out of range raises [IndexError]. *)
Definition getitem {A : Type} (s : list A) (i : Z) : outcome A :=
  let j := if i <? 0 then i + len s else i in
  if j <? 0 then Raised IndexError
  else match nth_error s (Z.to_nat j) with
       | Some x => Returned x
       | None => Raised IndexError
       end.

(** [s.startswith(p)] and [s.endswith(p)]. *)
Fixpoint startswith (s p : str) {struct p} : bool :=
  match p, s with
  | [], _ => true
  | x :: p', y :: s' => char_eqb x y && startswith s' p'
  | _ :: _, [] => false
  end.

Definition endswith (s p : str) : bool := startswith (rev s) (rev p).

(** [s[a:b]] for [0 <= a]. *)
Definition slice (s : str) (a b : Z) : str :=
  firstn (Z.to_nat (b - a)) (skipn (Z.to_nat a) s).

(** [sub in s]. *)
Fixpoint contains (s sub : str) : bool :=
  startswith s sub ||
  match s with
  | [] => false
  | _ :: s' => contains s' sub
  end.

(** [s.replace(old, new)]: every occurrence of [old], found from left to
    right without overlap, is replaced.  [skip] counts the characters of a
    match that are still to be passed over.  With an empty [old], Python
    inserts [new] before every character and at the end. *)
Fixpoint replace_from (old new : str) (skip : nat) (s : str) : str :=
  match s with
  | [] => []
  | c :: r =>
      match skip with
      | S k => replace_from old new k r
      | O =>
          if startswith s old
          then new ++ replace_from old new (List.length old - 1) r
          else c :: replace_from old new 0 r
      end
  end.

Definition replace (s old new : str) : str :=
  match old with
  | [] => new ++ flat_map (fun c => c :: new) s
  | _ :: _ => replace_from old new 0 s
  end.

(** [d.get(key, default)] on a dict given by its items. *)
Fixpoint dict_get {V : Type} (d : list (char * V)) (key : char) (default : V) : V :=
  match d with
  | [] => default
  | (k, v) :: d' => if char_eqb k key then v else dict_get d' key default
  end.

(** ** converter.py *)

Module Converter.

(** *** [_setup_mappings] *)

(** Preeti lowercase to Unicode mapping (a-z). *)
Definition unicode_a_to_z : list str :=
  [ [2348]; [2342]; [2309]; [2350]; [2349]; [2366]; [2344]; [2332];
    [2359; 2381]; [2357]; [2346]; [2367]; [2347]; [2354]; [2351]; [2313];
    [2340; 2381; 2352]; [2330]; [2325]; [2340]; [2327]; [2326]; [2343];
    [2361]; [2341]; [2358] ]%N.

(** Preeti uppercase to Unicode mapping (A-Z). *)
Definition unicode_A_to_Z : list str :=
  [ [2348; 2381]; [2343]; [2315]; [2350; 2381]; [2349; 2381]; [2305];
    [2344; 2381]; [2332; 2381]; [2325; 2381; 2359; 2381]; [2357; 2381];
    [2346; 2381]; [2368]; [2307]; [2354; 2381]; [2311]; [2319];
    [2340; 2381; 2340]; [2330; 2381]; [2325; 2381]; [2340; 2381];
    [2327; 2381]; [2326; 2381]; [2343; 2381]; [2361; 2381]; [2341; 2381];
    [2358; 2381] ]%N.

(** Preeti numbers to Unicode mapping (0-9). *)
Definition unicode_0_to_9 : list str :=
  [ [2339; 2381]; [2332; 2381; 2334]; [2342; 2381; 2342]; [2328];
    [2342; 2381; 2343]; [2331]; [2335]; [2336]; [2337]; [2338] ]%N.

(** Special symbols mapping, in the order of the source; the last nine
    keys are U+02C6, U+00CE, U+00E5, U+00F7, U+00AB, U+00BB, U+00B0,
    U+00BF and U+00A1. *)
Definition symbols_dict : list (char * str) :=
  [ (126, [2334; 2381]); (96, [2334]); (33, [2407]); (64, [2408]);
    (35, [2409]); (36, [2410]); (37, [2411]); (94, [2412]); (38, [2413]);
    (42, [2414]); (40, [2415]); (41, [2406]); (45, [40]); (95, [41]);
    (43, [2306]); (91, [2371]); (123, [2352; 2381]); (93, [2375]);
    (125, [2376]); (92, [2381]); (124, [2381; 2352]); (59, [2360]);
    (58, [2360; 2381]); (39, [2369]); (34, [2370]); (44, [44]);
    (60, [63]); (46, [2404]); (62, [2358; 2381; 2352]); (47, [2352]);
    (63, [2352; 2369]); (61, [46]); (710, [2347; 2381]);
    (206, [2329; 2381; 2326]); (229, [2342; 2381; 2357]); (247, [47]);
    (171, [2381; 2352]); (187, [2381; 2352]); (176, [2381; 2352]);
    (191, [2381; 2352]); (161, [2381; 2352]) ]%N.

(** Nepali numerals mapping for number conversion. *)
Definition nepali_numerals : list (char * str) :=
  [ (48, [2406]); (49, [2407]); (50, [2408]); (51, [2409]); (52, [2410]);
    (53, [2411]); (54, [2412]); (55, [2413]); (56, [2414]); (57, [2415]) ]%N.

(** *** [normalize_preeti] *)

Definition ch_l : char := 108%N.        (* 'l' *)
Definition ch_f : char := 102%N.        (* 'f' *)
Definition ch_lbrace : char := 123%N.   (* '{' *)
Definition ch_o_sign : char := 2379%N.  (* U+094B, the vowel sign O *)

(** The chain of literal replacements at the head of [normalize_preeti]. *)
Definition pre_substitute (preeti_text : str) : str :=
  let text := replace preeti_text (lit "qm") (lit "s|") in
  let text := replace text (lit "f]") [2379%N] in
  let text := replace text (lit "km") [2347%N] in
  let text := replace text (lit "0f") [2339%N] in
  let text := replace text (lit "If") [2325; 2381; 2359]%N in
  let text := replace text (lit "if") [2359%N] in
  replace text (lit "cf") [2310%N].

(** The body of the [try] block: [Some (emitted, index')] when one of the
    two combinations with '{' fires and the loop continues from [index'],
    [None] when control falls through to the handling of 'l'. *)
Definition try_lbrace (text : str) (index : Z) (character : char)
  : outcome (option (str * Z)) :=
  first <- (if index + 2 <? len text then
              c2 <- getitem text (index + 2) ;;
              if char_eqb c2 ch_lbrace then
                c1 <- getitem text (index + 1) ;;
                if char_eqb c1 ch_f || char_eqb c1 ch_o_sign
                then Returned (Some ([ch_lbrace; character; c1], index + 2))
                else Returned None
              else Returned None
            else Returned None) ;;
  match first with
  | Some k => Returned (Some k)
  | None =>
      if index + 1 <? len text then
        c1 <- getitem text (index + 1) ;;
        if char_eqb c1 ch_lbrace && negb (char_eqb character ch_f)
        then Returned (Some ([ch_lbrace; character], index + 1))
        else Returned None
      else Returned None
  end.

(** The [while index + 1 < len(text)] loop; one unit of fuel per test of
    the loop condition. *)
Fixpoint normalize_loop (fuel : nat) (text : str) (index : Z)
    (normalized previous_symbol : str) : outcome str :=
  match fuel with
  | O => OutOfFuel
  | S fuel' =>
      if index + 1 <? len text then
        let index := index + 1 in
        character <- getitem text index ;;
        special <- match try_lbrace text index character with
                   | Raised IndexError => Returned None   (* except IndexError: pass *)
                   | r => r
                   end ;;
        match special with
        | Some (emitted, index') =>
            normalize_loop fuel' text index' (normalized ++ emitted) previous_symbol
        | None =>
            if char_eqb character ch_l
            then normalize_loop fuel' text index normalized [ch_l]
            else normalize_loop fuel' text index
                   (normalized ++ character :: previous_symbol) []
        end
      else Returned normalized
  end.

(** The loop tests its condition at most [len(text) + 1] times, since the
    index grows at every turn ([normalize_loop_fuel] below). *)
Definition normalize_preeti (preeti_text : str) : outcome str :=
  match preeti_text with
  | [] => Returned []
  | _ :: _ =>
      let text := pre_substitute preeti_text in
      normalize_loop (S (List.length text)) text (-1) [] []
  end.

(** *** [convert_to_unicode] *)

(** The body of the [try] block in the character loop. *)
Definition lookup_char (character : char) : outcome str :=
  let char_code := ord character in
  if (97 <=? char_code) && (char_code <=? 122) then
    getitem unicode_a_to_z (char_code - 97)
  else if (65 <=? char_code) && (char_code <=? 90) then
    getitem unicode_A_to_Z (char_code - 65)
  else if (48 <=? char_code) && (char_code <=? 57) then
    getitem unicode_0_to_9 (char_code - 48)
  else
    Returned (dict_get symbols_dict character [character]).

(** One turn of the loop, with the [except (KeyError, IndexError)] branch
    that keeps the original character. *)
Definition convert_char (converted : str) (character : char) : outcome str :=
  match lookup_char character with
  | Returned target => Returned (converted ++ target)
  | Raised IndexError | Raised KeyError => Returned (converted ++ [character])
  | Raised e => Raised e
  | OutOfFuel => OutOfFuel
  end.

Fixpoint convert_loop (converted : str) (normalized_preeti : str) : outcome str :=
  match normalized_preeti with
  | [] => Returned converted
  | character :: rest =>
      converted' <- convert_char converted character ;;
      convert_loop converted' rest
  end.

Definition convert_to_unicode (preeti_text : str) : outcome str :=
  match preeti_text with
  | [] => Returned []
  | _ :: _ =>
      normalized_preeti <- normalize_preeti preeti_text ;;
      convert_loop [] normalized_preeti
  end.

(** *** [convert_numbers_to_nepali] *)

Fixpoint numbers_loop (result : str) (text : str) : str :=
  match text with
  | [] => result
  | c :: rest => numbers_loop (result ++ dict_get nepali_numerals c [c]) rest
  end.

Definition convert_numbers_to_nepali (text : str) : outcome str :=
  match text with
  | [] => Returned []
  | _ :: _ => Returned (numbers_loop [] text)
  end.

(** *** [convert_text], the public entry point *)

Definition convert_text (text : str) (convert_numbers : bool) : outcome str :=
  match text with
  | [] => Returned []
  | _ :: _ =>
      unicode_text <- convert_to_unicode text ;;
      if convert_numbers
      then convert_numbers_to_nepali unicode_text
      else Returned unicode_text
  end.

End Converter.

(** *** The normalizer loop in closed form

    [scan rest previous_symbol] is what the loop of [normalize_preeti]
    appends to [normalized] when [rest] is the text from the next index on;
    [normalize_loop_scan] below proves that the loop computes it. *)

Import Converter.

Definition plain_step (c : char) (prev : str)
    (on_marker : str) (on_other : str) : str :=
  if char_eqb c ch_l then on_marker else c :: prev ++ on_other.

Fixpoint scan (s : str) (prev : str) {struct s} : str :=
  match s with
  | [] => []
  | c :: r =>
      match r with
      | c1 :: r1 =>
          match r1 with
          | c2 :: r2 =>
              if char_eqb c2 ch_lbrace && (char_eqb c1 ch_f || char_eqb c1 ch_o_sign)
              then ch_lbrace :: c :: c1 :: scan r2 prev
              else if char_eqb c1 ch_lbrace && negb (char_eqb c ch_f)
                   then ch_lbrace :: c :: scan r1 prev
                   else plain_step c prev (scan r [ch_l]) (scan r [])
          | [] =>
              if char_eqb c1 ch_lbrace && negb (char_eqb c ch_f)
              then ch_lbrace :: c :: scan r1 prev
              else plain_step c prev (scan r [ch_l]) (scan r [])
          end
      | [] => plain_step c prev (scan r [ch_l]) (scan r [])
      end
  end.

(** *** Vocabulary of the statements about the converter *)

(** What [convert_to_unicode] appends for one character. *)
Definition char_target (character : char) : str :=
  match lookup_char character with
  | Returned target => target
  | _ => [character]
  end.

(** What [convert_numbers_to_nepali] appends for one character. *)
Definition numeral_of (c : char) : str := dict_get nepali_numerals c [c].

Definition is_ascii_letter (c : char) : bool :=
  ((97 <=? c) && (c <=? 122) || (65 <=? c) && (c <=? 90))%N.

Definition is_ascii_digit (c : char) : bool := ((48 <=? c) && (c <=? 57))%N.

Definition is_symbol_key (c : char) : bool :=
  existsb (fun kv => char_eqb (fst kv) c) symbols_dict.

Definition digit_free (u : str) : bool :=
  forallb (fun c => negb (is_ascii_digit c)) u.

(** A recognized source character: a letter, a digit or a key of the
    symbol table.  The literal sequences of [pre_substitute] are made of
    such characters, and so are the marker 'l' and the stacking marker
    '{' of the normalizer. *)
Definition recognized (c : char) : bool :=
  is_ascii_letter c || is_ascii_digit c || is_symbol_key c.

(** A consonant code: a source character whose target starts with a
    Devanagari consonant letter, U+0915 to U+0939. *)
Definition is_consonant_code (c : char) : bool :=
  match char_target c with
  | t :: _ => negb (char_eqb t c) && (2325 <=? t)%N && (t <=? 2361)%N
  | [] => false
  end.

Definition ch_rbracket : char := 93%N.   (* ']', mapped to the vowel sign E *)

(** Every marker 'l' of [s] is immediately followed by a character other
    than 'l', and [s] holds no stacking marker '{'. *)
Fixpoint markers_attached (s : str) : bool :=
  match s with
  | [] => true
  | c :: r =>
      negb (char_eqb c ch_lbrace)
      && (if char_eqb c ch_l
          then match r with
               | c1 :: _ => negb (char_eqb c1 ch_l)
               | [] => false
               end
          else true)
      && markers_attached r
  end.

(** The characters that the loop of [normalize_preeti] handles in its
    last branch (the handling of 'l'), in the order of the text: those
    that no combination with '{' takes.  A combination takes the
    character at the index, the 'f' or vowel sign O after it if the loop
    found one, and the '{'. *)
Fixpoint plain_chars (s : str) : str :=
  match s with
  | [] => []
  | c :: r =>
      match r with
      | c1 :: r1 =>
          match r1 with
          | c2 :: r2 =>
              if char_eqb c2 ch_lbrace && (char_eqb c1 ch_f || char_eqb c1 ch_o_sign)
              then plain_chars r2
              else if char_eqb c1 ch_lbrace && negb (char_eqb c ch_f)
                   then plain_chars r1
                   else c :: plain_chars r
          | [] =>
              if char_eqb c1 ch_lbrace && negb (char_eqb c ch_f)
              then plain_chars r1
              else c :: plain_chars r
          end
      | [] => c :: plain_chars r
      end
  end.

(** The markers of [p] that are lost, [p] being the characters handled
    in the last branch: a marker 'l' is held in [previous_symbol] until
    the next of these characters is handled; it is lost when that
    character is another marker (which takes its place) and when there
    is no such character (it is still pending when the loop ends). *)
Fixpoint lost_markers (p : str) : nat :=
  match p with
  | [] => 0
  | c :: r =>
      (if char_eqb c ch_l
       then match r with
            | c1 :: _ => if char_eqb c1 ch_l then 1 else 0
            | [] => 1
            end
       else 0)
      + lost_markers r
  end.

(** ** fonts/font_manager.py *)

Module Fonts.

Inductive FontType : Type := PREETI | PREETI_PLUS | KANTIPUR | CUSTOM | UNICODE.

Inductive MappingType : Type := CHARACTER | PATTERN | CONTEXTUAL | COMPOSITE.

(** [FontRule]; the [conditions] and [metadata] dictionaries take no part
    in matching or rewriting and are left out. *)
Record FontRule : Type := mkFontRule {
  source : str;
  target : str;
  mapping_type : MappingType;
  priority : Z;
  context_before : option str;
  context_after : option str
}.

(** [FontMapping]; [metadata] maps a key to a string. *)
Record FontMapping : Type := mkFontMapping {
  name : str;
  source_font : str;
  target_font : str;
  font_type : FontType;
  rules : list FontRule;
  metadata : list (string * str);
  version : str
}.

(** [rules.sort(key=lambda r: r.priority, reverse=True)]: Python's sort is
    stable, also with [reverse=True], so rules of equal priority keep
    their relative order.  The stable sort is written as insertion from
    the right: a rule goes before the first rule whose priority is not
    higher than its own. *)
Fixpoint insert_rule (r : FontRule) (l : list FontRule) : list FontRule :=
  match l with
  | [] => [r]
  | x :: l' =>
      if priority r <? priority x then x :: insert_rule r l' else r :: l
  end.

Definition sort_rules (l : list FontRule) : list FontRule :=
  fold_right insert_rule [] l.

(** The dataclass constructor followed by [__post_init__]. *)
Definition FontMapping_init (name source_font target_font : str)
    (font_type : FontType) (rules : list FontRule)
    (metadata : list (string * str)) (version : str) : FontMapping :=
  mkFontMapping name source_font target_font font_type
    (sort_rules rules) metadata version.

Definition add_rule (self : FontMapping) (rule : FontRule) : FontMapping :=
  mkFontMapping (name self) (source_font self) (target_font self)
    (font_type self) (sort_rules (rules self ++ [rule]))
    (metadata self) (version self).

(** [FontRule.matches_context]; a context that is [None] or the empty
    string is not checked ([if self.context_before:]). *)
Definition matches_context (self : FontRule) (text : str) (position : Z) : bool :=
  match context_before self with
  | Some ((_ :: _) as cb) =>
      let start_pos := Z.max 0 (position - len cb) in
      let before_text := slice text start_pos position in
      endswith before_text cb
  | _ => true
  end
  &&
  match context_after self with
  | Some ((_ :: _) as ca) =>
      let end_pos :=
        Z.min (len text) (position + len (source self) + len ca) in
      let after_text := slice text (position + len (source self)) end_pos in
      startswith after_text ca
  | _ => true
  end.

Section Rewriting.

(** [re.compile(pattern).match(text, pos)] of Python's [re] module:
    [Raised] when the pattern does not compile, [Returned None] when it
    does not match at [pos], [Returned (Some e)] with [e = match.end()]. *)
Variable re_match : str -> str -> Z -> outcome (option Z).

(** [FontRule.apply]. *)
Definition apply (self : FontRule) (text : str) (position : Z)
  : outcome (str * Z) :=
  match mapping_type self with
  | CHARACTER =>
      let new_text :=
        slice text 0 position ++ target self ++
        skipn (Z.to_nat (position + len (source self))) text in
      let new_position := position + len (target self) in
      Returned (new_text, new_position)
  | PATTERN =>
      m <- re_match (source self) text position ;;
      match m with
      | Some match_end =>
          let new_text :=
            slice text 0 position ++ target self ++
            skipn (Z.to_nat match_end) text in
          let new_position := position + len (target self) in
          Returned (new_text, new_position)
      | None => Returned (text, position + 1)
      end
  | _ => Returned (text, position + 1)
  end.

(** Does [rule] match at [position]: the two tests of the [for] loop. *)
Definition rule_fires (rule : FontRule) (result : str) (position : Z) : bool :=
  (position + len (source rule) <=? len result)
  && str_eqb (slice result position (position + len (source rule))) (source rule)
  && matches_context rule result position.

(** The [for rule in self.rules] loop: the first rule that fires is
    applied; [None] when no rule was applied. *)
Fixpoint try_rules (rules : list FontRule) (result : str) (position : Z)
  : outcome (option (str * Z)) :=
  match rules with
  | [] => Returned None
  | rule :: rest =>
      if rule_fires rule result position
      then r <- apply rule result position ;; Returned (Some r)
      else try_rules rest result position
  end.

(** The [while position < len(result)] loop.  It need not end (a rule
    with an empty source and target never advances), hence the fuel: one
    unit per test of the loop condition. *)
Fixpoint convert_loop (fuel : nat) (rules : list FontRule)
    (result : str) (position : Z) : outcome str :=
  match fuel with
  | O => OutOfFuel
  | S fuel' =>
      if position <? len result then
        step <- try_rules rules result position ;;
        match step with
        | Some (result', position') => convert_loop fuel' rules result' position'
        | None => convert_loop fuel' rules result (position + 1)
        end
      else Returned result
  end.

(** [FontMapping.convert_text]. *)
Definition convert_text (fuel : nat) (self : FontMapping) (text : str)
  : outcome str :=
  match text with
  | [] => Returned text
  | _ :: _ => convert_loop fuel (rules self) text 0
  end.

End Rewriting.

(** Ordered by priority, highest first. *)
Definition by_priority_desc (rules : list FontRule) : Prop :=
  StronglySorted (fun a b => priority b <= priority a) rules.


(** A matcher for mappings without [PATTERN] rules, which never consult
    it: it reports no match. *)
Definition re_no_match : str -> str -> Z -> outcome (option Z) :=
  fun _ _ _ => Returned None.

Definition character_rules (rules : list FontRule) : Prop :=
  Forall (fun rule => mapping_type rule = CHARACTER) rules.

(** No rule asks for a text before the cursor. *)
Definition no_context_before (rules : list FontRule) : Prop :=
  Forall (fun rule => context_before rule = None \/ context_before rule = Some [])
    rules.

(** *** The resolver as the specification describes it

    A rule matches at [position] when the source holds the rule's source
    there, its [context_before] (if any) ends the text [before] the
    cursor, and its [context_after] (if any) starts the source after the
    matched span.  The first matching rule's target is appended to a
    separate output and the cursor advances by the rule's source length;
    without a match the character is passed through.  [before_view]
    says which text precedes the cursor for [context_before]. *)

Definition matches_at (before : str) (src : str) (position : Z)
    (rule : FontRule) : bool :=
  startswith (skipn (Z.to_nat position) src) (source rule)
  && match context_before rule with
     | Some cb => endswith before cb
     | None => true
     end
  && match context_after rule with
     | Some ca =>
         startswith (skipn (Z.to_nat (position + len (source rule))) src) ca
     | None => true
     end.

Fixpoint resolve_with (before_view : str -> Z -> str -> str) (fuel : nat)
    (rules : list FontRule) (src : str) (position : Z) (output : str)
  : outcome str :=
  match fuel with
  | O => OutOfFuel
  | S fuel' =>
      if position <? len src then
        match find (matches_at (before_view src position output) src position) rules with
        | Some rule =>
            resolve_with before_view fuel' rules src
              (position + len (source rule)) (output ++ target rule)
        | None =>
            resolve_with before_view fuel' rules src (position + 1)
              (output ++ firstn 1 (skipn (Z.to_nat position) src))
        end
      else Returned output
  end.

(** The reference resolver of the specification: [context_before] is
    compared with the source that precedes the cursor. *)
Definition reference_resolve (fuel : nat) (rules : list FontRule) (src : str)
  : outcome str :=
  resolve_with (fun src position _ => firstn (Z.to_nat position) src)
    fuel rules src 0 [].

(** The resolver that compares [context_before] with the output produced
    so far. *)
Definition resolve_on_output (fuel : nat) (rules : list FontRule) (src : str)
  : outcome str :=
  resolve_with (fun _ _ output => output) fuel rules src 0 [].

(** *** Mappings used as examples *)

(** Two rules: 'a' becomes 'X'; 'b' becomes 'Y' after an 'a'. *)
Definition after_a_mapping : FontMapping :=
  FontMapping_init (lit "demo") (lit "demo") (lit "unicode") CUSTOM
    [ mkFontRule (lit "a") (lit "X") CHARACTER 1 None None;
      mkFontRule (lit "b") (lit "Y") CHARACTER 1 (Some (lit "a")) None ]
    [] (lit "1.0.0").

(** One rule of the [CONTEXTUAL] type. *)
Definition contextual_mapping : FontMapping :=
  FontMapping_init (lit "demo") (lit "demo") (lit "unicode") CUSTOM
    [ mkFontRule (lit "a") (lit "X") CONTEXTUAL 1 None None ]
    [] (lit "1.0.0").

(** The rule for 'c' (U+0905) and the ligature rule for "cf" (U+0906). *)
Definition rule_c (priority : Z) : FontRule :=
  mkFontRule (lit "c") [2309%N] CHARACTER priority None None.

Definition rule_cf (priority : Z) : FontRule :=
  mkFontRule (lit "cf") [2310%N] CHARACTER priority None None.

(** A mapping built with the rule for 'c', to which the ligature rule is
    added afterwards. *)
Definition c_then_cf (p_c p_cf : Z) : FontMapping :=
  add_rule
    (FontMapping_init (lit "demo") (lit "demo") (lit "unicode") CUSTOM
       [rule_c p_c] [] (lit "1.0.0"))
    (rule_cf p_cf).

End Fonts.

(** [str.lower] on ASCII text: the letters A-Z become a-z.  Used where a
    concrete lower-casing is needed; Python's [str.lower] agrees with it
    on every ASCII string. *)
Definition ascii_lower (s : str) : str :=
  List.map (fun c => if (65 <=? c)%N && (c <=? 90)%N then (c + 32)%N else c) s.

(** ** fonts/preeti_variants.py *)

Module Variants.

Section Detector.

(** Python's [str.lower], on all of Unicode. *)
Variable lower : str -> str.

(** [_variant_patterns]: the extended characters of Preeti Plus (U+00E7,
    U+00E9, U+00F1, U+00F3, U+00FA, U+00FC) and the Kantipur-specific
    characters (their capitals). *)
Definition patterns_preeti_plus : list char := [231; 233; 241; 243; 250; 252]%N.
Definition patterns_kantipur : list char := [199; 201; 209; 211; 218; 220]%N.

(** [sum(1 for char in patterns if char in text)]. *)
Definition score (patterns : list char) (text : str) : Z :=
  len (filter (fun c => existsb (char_eqb c) text) patterns).

(** The check of the font name: [Some variant] when it returns. *)
Definition detect_from_name (font_name : option str) : option str :=
  match font_name with
  | Some ((_ :: _) as font_name) =>
      let font_name_lower := lower font_name in
      if contains font_name_lower (lit "plus") then Some (lit "preeti_plus")
      else if contains font_name_lower (lit "kantipur") then Some (lit "kantipur")
      else None
  | _ => None
  end.

(** The analysis of the text content. *)
Definition detect_from_text (text : option str) : option str :=
  match text with
  | Some ((_ :: _) as text) =>
      let plus_score := score patterns_preeti_plus text in
      let kantipur_score := score patterns_kantipur text in
      if (kantipur_score <? plus_score) && (0 <? plus_score)
      then Some (lit "preeti_plus")
      else if 0 <? kantipur_score then Some (lit "kantipur")
      else None
  | _ => None
  end.

(** [PreetiVariantDetector.detect_variant]; either argument may be [None]
    or empty. *)
Definition detect_variant (text : option str) (font_name : option str) : str :=
  match detect_from_name font_name with
  | Some variant => variant
  | None =>
      match detect_from_text text with
      | Some variant => variant
      | None => lit "standard"
      end
  end.

(** Does the lower-cased font name hold [sub]; [false] without a name. *)
Definition name_has (sub : str) (font_name : option str) : bool :=
  match font_name with
  | Some ((_ :: _) as font_name) => contains (lower font_name) sub
  | _ => false
  end.

(** The score of a variant on the text; 0 without a text. *)
Definition text_score (patterns : list char) (text : option str) : Z :=
  match text with
  | Some text => score patterns text
  | None => 0
  end.

End Detector.

(** The count of the specification: the occurrences in the text of the
    marker characters of a variant. *)
Definition occurrences (patterns : list char) (text : str) : Z :=
  len (filter (fun c => existsb (char_eqb c) patterns) text).

End Variants.

(** ** fonts/custom_fonts.py and fonts/font_registry.py *)

Module Registry.

Import Fonts.

Inductive ConversionStrategy : Type :=
  SIMPLE | CONTEXTUAL_STRATEGY | PATTERN_BASED | RULE_BASED | CUSTOM_STRATEGY.

Definition strategy_value (s : ConversionStrategy) : str :=
  match s with
  | SIMPLE => lit "simple"
  | CONTEXTUAL_STRATEGY => lit "contextual"
  | PATTERN_BASED => lit "pattern_based"
  | RULE_BASED => lit "rule_based"
  | CUSTOM_STRATEGY => lit "custom"
  end.

Record MappingRule : Type := mkMappingRule {
  from_char : str;
  to_char : str;
  rule_priority : Z;
  before : option str;
  after : option str;
  rule_description : option str
}.

Definition to_font_rule (self : MappingRule) : FontRule :=
  mkFontRule (from_char self) (to_char self) CHARACTER (rule_priority self)
    (before self) (after self).

Record FontDefinition : Type := mkFontDefinition {
  def_name : str;
  display_name : str;
  def_font_type : str;
  description : str;
  def_version : str;
  author : str;
  def_source_font : str;
  def_target_font : str;
  strategy : ConversionStrategy;
  def_rules : list MappingRule;
  def_metadata : list (string * str)
}.

(** [FontType(value)]: [None] stands for the [ValueError] of a value that
    names no member. *)
Definition FontType_of_value (v : str) : option FontType :=
  if str_eqb v (lit "preeti") then Some PREETI
  else if str_eqb v (lit "preeti_plus") then Some PREETI_PLUS
  else if str_eqb v (lit "kantipur") then Some KANTIPUR
  else if str_eqb v (lit "custom") then Some CUSTOM
  else if str_eqb v (lit "unicode") then Some UNICODE
  else None.

(** [d[k] = v] on a metadata dict given by its items: a key that is
    already there keeps its place and takes the new value, a new key goes
    to the end.  [metadata_update d extra] is the dict display
    [{**d, **extra}]. *)
Fixpoint metadata_set (d : list (string * str)) (k : string) (v : str)
  : list (string * str) :=
  match d with
  | [] => [(k, v)]
  | (k', v') :: d' =>
      if String.eqb k' k then (k, v) :: d' else (k', v') :: metadata_set d' k v
  end.

Definition metadata_update (d extra : list (string * str)) : list (string * str) :=
  fold_left (fun m kv => metadata_set m (fst kv) (snd kv)) extra d.

Section Register.

Variable lower : str -> str.

(** [FontDefinition.to_font_mapping].  In the metadata, an entry of
    [self.metadata] replaces the entry of the same key among the four
    that the dict display writes first. *)
Definition to_font_mapping (self : FontDefinition) : FontMapping :=
  let font_type :=
    match FontType_of_value (lower (def_font_type self)) with
    | Some t => t
    | None => CUSTOM            (* except ValueError *)
    end in
  let font_rules := List.map to_font_rule (def_rules self) in
  FontMapping_init
    (def_name self)
    (match def_source_font self with [] => def_name self | s => s end)
    (def_target_font self)
    font_type
    font_rules
    (metadata_update
       [ ("display_name"%string, display_name self);
         ("description"%string, description self);
         ("author"%string, author self);
         ("strategy"%string, strategy_value (strategy self)) ]
       (def_metadata self))
    (def_version self).

(** The default validators of [CustomFontLoader]. *)
Definition validate_basic_fields (definition : FontDefinition) : list string :=
  (match def_name definition with
   | [] => ["Font name is required"%string] | _ => [] end)
  ++ (match display_name definition with
      | [] => ["Display name is required"%string] | _ => [] end)
  ++ (match def_rules definition with
      | [] => ["At least one conversion rule is required"%string] | _ => [] end).

(** [validate_rules]; [i] is the index that [enumerate] gives the rule. *)
Fixpoint validate_rules_from (i : nat) (rules : list MappingRule) : list string :=
  match rules with
  | [] => []
  | rule :: rest =>
      (match from_char rule with
       | [] => [("Rule " ++ show_nat i ++ ": source character is required")%string]
       | _ => []
       end)
      ++ (match to_char rule with
          | [] => [("Rule " ++ show_nat i ++ ": target character is required")%string]
          | _ => []
          end)
      ++ validate_rules_from (S i) rest
  end.

Definition validate_rules (definition : FontDefinition) : list string :=
  validate_rules_from 0 (def_rules definition).

Definition validate_definition (definition : FontDefinition) : list string :=
  validate_basic_fields definition ++ validate_rules definition.

(** [CustomFontLoader.create_from_mapping_dict] without keyword options:
    the display name defaults to the name. *)
Definition create_from_mapping_dict (name : str) (mapping_dict : list (str * str))
  : outcome FontDefinition :=
  let definition :=
    mkFontDefinition name name (lit "custom") [] (lit "1.0.0") [] []
      (lit "unicode") SIMPLE
      (List.map (fun kv => mkMappingRule (fst kv) (snd kv) 0 None None None)
         mapping_dict)
      [] in
  match validate_definition definition with
  | [] => Returned definition
  | errors => Raised (ValidationError errors)
  end.

(** [FontManager]: the registered mappings, in insertion order, and the
    name of the default one. *)
Record FontManager : Type := mkFontManager {
  mappings : list (str * FontMapping);
  default_mapping : option str
}.

Fixpoint dict_set (d : list (str * FontMapping)) (k : str) (v : FontMapping)
  : list (str * FontMapping) :=
  match d with
  | [] => [(k, v)]
  | (k', v') :: d' =>
      if str_eqb k' k then (k, v) :: d' else (k', v') :: dict_set d' k v
  end.

Definition register_mapping (self : FontManager) (mapping : FontMapping)
    (is_default : bool) : FontManager :=
  mkFontManager
    (dict_set (mappings self) (name mapping) mapping)
    (if is_default then Some (name mapping)
     else match default_mapping self with
          | None => Some (name mapping)
          | d => d
          end).

Definition get_mapping (self : FontManager) (name : str) : option FontMapping :=
  option_map snd (find (fun kv => str_eqb (fst kv) name) (mappings self)).

(** [FontRegistry]: the font manager and the set of registered names. *)
Record FontRegistry : Type := mkFontRegistry {
  font_manager : FontManager;
  registered_fonts : list str
}.

Definition set_add (s : list str) (x : str) : list str :=
  if existsb (str_eqb x) s then s else s ++ [x].

(** [FontRegistry.register_font]: whatever the body raises is wrapped in
    a [ConfigurationError]. *)
Definition register_font (self : FontRegistry) (font_definition : FontDefinition)
  : outcome FontRegistry :=
  let body :=
    mapping <- Returned (to_font_mapping font_definition) ;;
    let manager := register_mapping (font_manager self) mapping false in
    Returned (mkFontRegistry manager (set_add (registered_fonts self) (name mapping))) in
  match body with
  | Raised e => Raised (ConfigurationError e)
  | r => r
  end.

(** [FontRegistry.register_font_from_dict]: exceptions are logged and
    raised again. *)
Definition register_font_from_dict (self : FontRegistry) (name : str)
    (mapping_dict : list (str * str)) : outcome FontRegistry :=
  definition <- create_from_mapping_dict name mapping_dict ;;
  register_font self definition.

End Register.

(** A registry without fonts, and a definition without name, display
    name and rules. *)
Definition empty_registry : FontRegistry :=
  mkFontRegistry (mkFontManager [] None) [].

Definition empty_definition : FontDefinition :=
  mkFontDefinition [] [] (lit "custom") [] (lit "1.0.0") [] []
    (lit "unicode") SIMPLE [] [].

End Registry.

(** ** converter.py: [is_preeti_font] *)

Module FontName.

Section IsPreeti.

Variable lower : str -> str.

(** [is_preeti_font]: [False] without a name; otherwise whether the
    lower-cased name holds one of the indicators. *)
Definition preeti_indicators : list str := [lit "preeti"; lit "pcs"; lit "nepali"].

Definition is_preeti_font (font_name : option str) : bool :=
  match font_name with
  | Some ((_ :: _) as font_name) =>
      let font_name := lower font_name in
      existsb (fun indicator => contains font_name indicator) preeti_indicators
  | _ => false
  end.

End IsPreeti.

End FontName.

(** ** fonts/font_manager.py: [remove_rule], [FontDetector], [FontManager] *)

Module Manager.

Import Fonts Registry.

(** [FontMapping.remove_rule]: the first rule with this source and target
    is deleted; the flag says whether there was one. *)
Fixpoint remove_first (src tgt : str) (rules : list FontRule)
  : option (list FontRule) :=
  match rules with
  | [] => None
  | rule :: rest =>
      if str_eqb (source rule) src && str_eqb (target rule) tgt
      then Some rest
      else option_map (cons rule) (remove_first src tgt rest)
  end.

Definition remove_rule (self : FontMapping) (src tgt : str) : FontMapping * bool :=
  match remove_first src tgt (rules self) with
  | Some rules' =>
      (mkFontMapping (name self) (source_font self) (target_font self)
         (font_type self) rules' (metadata self) (version self), true)
  | None => (self, false)
  end.

Definition FontType_eqb (a b : FontType) : bool :=
  match a, b with
  | PREETI, PREETI | PREETI_PLUS, PREETI_PLUS | KANTIPUR, KANTIPUR
  | CUSTOM, CUSTOM | UNICODE, UNICODE => true
  | _, _ => false
  end.

(** *** [FontDetector] *)

(** The patterns on font names: a literal, or two literals with
    whitespace in between ([a\s*b]). *)
Inductive name_pattern : Type :=
| Literal (s : str)
| Spaced (a b : str).

(** [_font_patterns], in the order of the dict; ['preeti\+'] is the
    literal "preeti+". *)
Definition font_patterns : list (FontType * list name_pattern) :=
  [ (PREETI, [Literal (lit "preeti"); Literal (lit "pcs"); Literal (lit "nepali")]);
    (PREETI_PLUS, [Spaced (lit "preeti") (lit "plus"); Literal (lit "preeti+");
                   Spaced (lit "pcs") (lit "plus")]);
    (KANTIPUR, [Literal (lit "kantipur"); Literal (lit "kantipurnews")]) ].

(** The four character classes of [_character_patterns]: [a-zA-Z0-9];
    the ASCII symbols of the second Preeti pattern; U+0900 to U+097F; and
    the class of the last pattern, whose source text is U+0440 U+0435
    U+0436 '-' U+0440 U+0435 U+043F, that is U+0440, U+0435, the range
    U+0436 to U+0440, U+0435 and U+043F. *)
Definition class_alnum (c : char) : bool :=
  ((97 <=? c) && (c <=? 122) || (65 <=? c) && (c <=? 90)
   || (48 <=? c) && (c <=? 57))%N.

Definition class_symbol (c : char) : bool :=
  existsb (char_eqb c)
    [126; 96; 33; 64; 35; 36; 37; 94; 38; 42; 40; 41; 95; 43; 91; 93; 123;
     125; 92; 124; 59; 58; 39; 34; 44; 46; 60; 62; 47; 63]%N.

Definition class_devanagari (c : char) : bool := ((2304 <=? c) && (c <=? 2431))%N.

Definition class_last (c : char) : bool :=
  (char_eqb c 1088 || char_eqb c 1077 || (1078 <=? c) && (c <=? 1088)
   || char_eqb c 1077 || char_eqb c 1087)%N.

Definition character_patterns : list (FontType * list (char -> bool)) :=
  [ (PREETI, [class_alnum; class_symbol]);
    (UNICODE, [class_devanagari; class_last]) ].

(** [re.findall] of a pattern [[class]+]: the maximal runs of characters
    of the class, from left to right; [current] is the run being read. *)
Fixpoint findall_class (cls : char -> bool) (text : str) (current : str)
  : list str :=
  match text with
  | [] => match current with [] => [] | _ => [current] end
  | c :: rest =>
      if cls c then findall_class cls rest (current ++ [c])
      else match current with [] => [] | _ => [current] end
           ++ findall_class cls rest []
  end.

(** [score += sum(len(match) for match in matches)] over the patterns of
    one font type. *)
Definition type_score (patterns : list (char -> bool)) (text : str) : Z :=
  fold_left
    (fun score cls =>
       score + fold_left (fun n m => n + len m) (findall_class cls text []) 0)
    patterns 0.

(** [max(type_scores, key=type_scores.get)]: the first key of the highest
    score. *)
Definition max_by_score (first : FontType * Z) (rest : list (FontType * Z))
  : FontType :=
  fst (fold_left (fun best kv => if snd best <? snd kv then kv else best)
         rest first).

Definition detect_font_from_text (text : str) : option FontType :=
  match text with
  | [] => None
  | _ :: _ =>
      let type_scores :=
        filter (fun kv => 0 <? snd kv)
          (List.map (fun kp => (fst kp, type_score (snd kp) text))
             character_patterns) in
      match type_scores with
      | [] => None
      | first :: rest => Some (max_by_score first rest)
      end
  end.

Section Names.

Variable lower : str -> str.

(** The characters that [\s] matches. *)
Variable is_space : char -> bool.

(** [\s*b] at the head of [s]. *)
Fixpoint spaces_then (b : str) (s : str) : bool :=
  startswith s b ||
  match s with
  | c :: r => is_space c && spaces_then b r
  | [] => false
  end.

Fixpoint search_spaced (a b : str) (s : str) : bool :=
  (startswith s a && spaces_then b (skipn (List.length a) s)) ||
  match s with
  | [] => false
  | _ :: r => search_spaced a b r
  end.

(** [re.search(pattern, s)] as a truth value. *)
Definition re_search (p : name_pattern) (s : str) : bool :=
  match p with
  | Literal l => contains s l
  | Spaced a b => search_spaced a b s
  end.

Fixpoint first_type (patterns : list (FontType * list name_pattern)) (s : str)
  : option FontType :=
  match patterns with
  | [] => None
  | (font_type, ps) :: rest =>
      if existsb (fun p => re_search p s) ps then Some font_type
      else first_type rest s
  end.

Definition detect_font_from_name (font_name : str) : option FontType :=
  match font_name with
  | [] => None
  | _ :: _ => first_type font_patterns (lower font_name)
  end.

(** [FontDetector.is_preeti_font]; [font_name or ""]. *)
Definition is_preeti_font (font_name : option str) : bool :=
  match detect_font_from_name (match font_name with Some n => n | None => [] end) with
  | Some PREETI | Some PREETI_PLUS | Some KANTIPUR => true
  | _ => false
  end.

End Names.

(** *** [FontManager] *)

(** [get_mapping(name)] with an optional name: the default mapping's name
    stands in for [None]; no mapping is registered under [None]. *)
Definition get_mapping_opt (self : FontManager) (name : option str)
  : option FontMapping :=
  match (match name with None => default_mapping self | n => n end) with
  | Some n => get_mapping self n
  | None => None
  end.

Definition list_mappings (self : FontManager) : list str :=
  List.map fst (mappings self).

Section ManagerConvert.

Variable re_match : str -> str -> Z -> outcome (option Z).

(** [FontManager.convert_text]. *)
Definition convert_text (fuel : nat) (self : FontManager) (text : str)
    (mapping_name : option str) (auto_detect : bool) : outcome str :=
  match text with
  | [] => Returned text
  | _ :: _ =>
      let mapping_name :=
        match mapping_name with
        | None =>
            if auto_detect then
              match detect_font_from_text text with
              | Some detected_type =>
                  option_map (fun kv => name (snd kv))
                    (find (fun kv => FontType_eqb (font_type (snd kv)) detected_type)
                       (mappings self))
              | None => None
              end
            else None
        | Some n => Some n
        end in
      let mapping_name :=
        match mapping_name with
        | None => default_mapping self
        | n => n
        end in
      match get_mapping_opt self mapping_name with
      | None => Returned text
      | Some mapping => Fonts.convert_text re_match fuel mapping text
      end
  end.

End ManagerConvert.

End Manager.

(** ** fonts/custom_fonts.py: dictionaries of a [FontDefinition] *)

Module Definitions.

Import Registry.

(** [FontDefinition.add_rule] without keyword options, and
    [add_rules_from_dict]. *)
Definition add_rule (self : FontDefinition) (from_char to_char : str)
  : FontDefinition :=
  mkFontDefinition (def_name self) (display_name self) (def_font_type self)
    (description self) (def_version self) (author self) (def_source_font self)
    (def_target_font self) (strategy self)
    (def_rules self ++ [mkMappingRule from_char to_char 0 None None None])
    (def_metadata self).

Definition add_rules_from_dict (self : FontDefinition)
    (rules_dict : list (str * str)) : FontDefinition :=
  fold_left (fun d kv => add_rule d (fst kv) (snd kv)) rules_dict self.

(** The dictionary of a rule and of a definition, as [to_dict] writes
    them and [from_dict] reads them: each key is absent ([None]) or
    present with a value of the field's type.  The keys 'before', 'after'
    and 'description' are read with [.get(key)] and stored as they are,
    so that the null value and the absent key give the same attribute
    [None].  A dictionary that holds the null value under another key, or
    a value of another type, is not of this form; [Json.from_dict] below
    reads every dictionary. *)
Record rule_data : Type := mkRuleData {
  rd_from_char : option str;
  rd_to_char : option str;
  rd_priority : option Z;
  rd_before : option str;
  rd_after : option str;
  rd_description : option str
}.

Record definition_data : Type := mkDefinitionData {
  dd_name : option str;
  dd_display_name : option str;
  dd_font_type : option str;
  dd_description : option str;
  dd_version : option str;
  dd_author : option str;
  dd_source_font : option str;
  dd_target_font : option str;
  dd_strategy : option str;
  dd_metadata : option (list (string * str));
  dd_rules : option (list rule_data)
}.

(** What [from_dict] raises: the [KeyError] of a missing key, or the
    [ValueError] of [ConversionStrategy(value)]. *)
Inductive load_error : Type :=
| MissingKey (key : string)
| NoSuchStrategy (value : str).

Definition to_dict (self : FontDefinition) : definition_data :=
  mkDefinitionData
    (Some (def_name self)) (Some (display_name self)) (Some (def_font_type self))
    (Some (description self)) (Some (def_version self)) (Some (author self))
    (Some (def_source_font self)) (Some (def_target_font self))
    (Some (strategy_value (strategy self)))
    (Some (def_metadata self))
    (Some (List.map
             (fun rule =>
                mkRuleData (Some (from_char rule)) (Some (to_char rule))
                  (Some (rule_priority rule)) (before rule) (after rule)
                  (rule_description rule))
             (def_rules self))).

Definition strategy_of_value (v : str) : option ConversionStrategy :=
  if str_eqb v (lit "simple") then Some SIMPLE
  else if str_eqb v (lit "contextual") then Some CONTEXTUAL_STRATEGY
  else if str_eqb v (lit "pattern_based") then Some PATTERN_BASED
  else if str_eqb v (lit "rule_based") then Some RULE_BASED
  else if str_eqb v (lit "custom") then Some CUSTOM_STRATEGY
  else None.

Definition get_default {A : Type} (o : option A) (default : A) : A :=
  match o with Some a => a | None => default end.

Definition rule_from_dict (rule_data : rule_data) : load_error + MappingRule :=
  match rd_from_char rule_data with
  | None => inl (MissingKey "from_char")
  | Some from_char =>
      match rd_to_char rule_data with
      | None => inl (MissingKey "to_char")
      | Some to_char =>
          inr (mkMappingRule from_char to_char
                 (get_default (rd_priority rule_data) 0)
                 (rd_before rule_data) (rd_after rule_data)
                 (rd_description rule_data))
      end
  end.

Fixpoint rules_from_dict (l : list rule_data) : load_error + list MappingRule :=
  match l with
  | [] => inr []
  | rule_data :: rest =>
      match rule_from_dict rule_data with
      | inl e => inl e
      | inr rule =>
          match rules_from_dict rest with
          | inl e => inl e
          | inr rules => inr (rule :: rules)
          end
      end
  end.

(** [FontDefinition.from_dict]: the rules are read first, then the
    fields in the order of the constructor call. *)
Definition from_dict (data : definition_data) : load_error + FontDefinition :=
  match rules_from_dict (get_default (dd_rules data) []) with
  | inl e => inl e
  | inr rules =>
      match dd_name data with
      | None => inl (MissingKey "name")
      | Some name =>
          let strategy_name := get_default (dd_strategy data) (lit "simple") in
          match strategy_of_value strategy_name with
          | None => inl (NoSuchStrategy strategy_name)
          | Some strategy =>
              inr (mkFontDefinition name
                     (get_default (dd_display_name data) name)
                     (get_default (dd_font_type data) (lit "custom"))
                     (get_default (dd_description data) [])
                     (get_default (dd_version data) (lit "1.0.0"))
                     (get_default (dd_author data) [])
                     (get_default (dd_source_font data) [])
                     (get_default (dd_target_font data) (lit "unicode"))
                     strategy rules
                     (get_default (dd_metadata data) []))
          end
      end
  end.

End Definitions.

(** ** fonts/custom_fonts.py: [from_dict] on loaded data

    [CustomFontLoader.load_from_file] hands [from_dict] what [json.load]
    returned.  Python checks no field type: a key may hold a value of any
    type, the null value included, and the dataclasses store what they
    are given.  [Definitions.from_dict] above is the case of a dictionary
    whose values have the types of the fields. *)

Module Json.

Import Registry.

(** A value as [json.load] returns it.  A float is given by the 64 bits
    of its encoding; a dict by its items in order, one per key. *)
Unset Elimination Schemes.
Inductive value : Type :=
| VNone
| VBool (b : bool)
| VInt (i : Z)
| VFloat (bits : Z)
| VStr (s : str)
| VList (items : list value)
| VDict (items : list (str * value)).
Set Elimination Schemes.

Definition dict : Type := list (str * value).

Inductive error : Type :=
| Type_error                 (* TypeError: not iterable, or not indexed by a key *)
| Key_error (key : str)      (* KeyError *)
| Value_error (v : value).   (* ValueError of [ConversionStrategy(v)] *)

Fixpoint lookup (d : dict) (key : str) : option value :=
  match d with
  | [] => None
  | (k, v) :: d' => if str_eqb k key then Some v else lookup d' key
  end.

Definition has_key (d : dict) (key : str) : bool :=
  match lookup d key with Some _ => true | None => false end.

(** [d.get(key, default)] and [d[key]]. *)
Definition get (d : dict) (key : str) (default : value) : value :=
  match lookup d key with Some v => v | None => default end.

Definition subscript (d : dict) (key : str) : error + value :=
  match lookup d key with Some v => inr v | None => inl (Key_error key) end.

(** What [for x in v] visits: the items of a list, the characters of a
    str, the keys of a dict; any other value is not iterable. *)
Definition iterate (v : value) : error + list value :=
  match v with
  | VList items => inr items
  | VStr s => inr (List.map (fun c => VStr [c]) s)
  | VDict items => inr (List.map (fun kv => VStr (fst kv)) items)
  | VNone | VBool _ | VInt _ | VFloat _ => inl Type_error
  end.

(** The attributes of a [MappingRule] and of a [FontDefinition] object. *)
Record MappingRuleObject : Type := mkRuleObject {
  ro_from_char : value;
  ro_to_char : value;
  ro_priority : value;
  ro_before : value;
  ro_after : value;
  ro_description : value
}.

Record FontDefinitionObject : Type := mkDefinitionObject {
  fo_name : value;
  fo_display_name : value;
  fo_font_type : value;
  fo_description : value;
  fo_version : value;
  fo_author : value;
  fo_source_font : value;
  fo_target_font : value;
  fo_strategy : ConversionStrategy;
  fo_rules : list MappingRuleObject;
  fo_metadata : value
}.

(** The body of the loop over the rules: [rule_data['from_char']] raises
    [TypeError] on what is not a dict. *)
Definition rule_from_dict (rule_data : value) : error + MappingRuleObject :=
  match rule_data with
  | VDict d =>
      match subscript d (lit "from_char") with
      | inl e => inl e
      | inr from_char =>
          match subscript d (lit "to_char") with
          | inl e => inl e
          | inr to_char =>
              inr (mkRuleObject from_char to_char
                     (get d (lit "priority") (VInt 0))
                     (get d (lit "before") VNone)
                     (get d (lit "after") VNone)
                     (get d (lit "description") VNone))
          end
      end
  | _ => inl Type_error
  end.

Fixpoint rules_from_items (items : list value) : error + list MappingRuleObject :=
  match items with
  | [] => inr []
  | rule_data :: rest =>
      match rule_from_dict rule_data with
      | inl e => inl e
      | inr rule =>
          match rules_from_items rest with
          | inl e => inl e
          | inr rules => inr (rule :: rules)
          end
      end
  end.

(** [ConversionStrategy(v)]: the member whose value is [v]. *)
Definition strategy_of (v : value) : error + ConversionStrategy :=
  match v with
  | VStr s =>
      match Definitions.strategy_of_value s with
      | Some strategy => inr strategy
      | None => inl (Value_error v)
      end
  | _ => inl (Value_error v)
  end.

(** [FontDefinition.from_dict]: the loop over [data.get('rules', [])]
    first, then the arguments of the constructor call from left to
    right. *)
Definition from_dict (data : dict) : error + FontDefinitionObject :=
  match
    match iterate (get data (lit "rules") (VList [])) with
    | inl e => inl e
    | inr items => rules_from_items items
    end
  with
  | inl e => inl e
  | inr rules =>
      match subscript data (lit "name") with
      | inl e => inl e
      | inr name =>
          match strategy_of (get data (lit "strategy") (VStr (lit "simple"))) with
          | inl e => inl e
          | inr strategy =>
              inr (mkDefinitionObject name
                     (get data (lit "display_name") name)
                     (get data (lit "font_type") (VStr (lit "custom")))
                     (get data (lit "description") (VStr []))
                     (get data (lit "version") (VStr (lit "1.0.0")))
                     (get data (lit "author") (VStr []))
                     (get data (lit "source_font") (VStr []))
                     (get data (lit "target_font") (VStr (lit "unicode")))
                     strategy rules
                     (get data (lit "metadata") (VDict [])))
          end
      end
  end.

(** The objects and the dictionary of a definition whose attributes have
    the declared types; [to_dict] writes every key, a missing context or
    description as the null value. *)
Definition optional (o : option str) : value :=
  match o with Some s => VStr s | None => VNone end.

Definition rule_object (rule : MappingRule) : MappingRuleObject :=
  mkRuleObject (VStr (from_char rule)) (VStr (to_char rule))
    (VInt (rule_priority rule)) (optional (before rule)) (optional (after rule))
    (optional (rule_description rule)).

Definition metadata_value (metadata : list (string * str)) : value :=
  VDict (List.map (fun kv => (lit (fst kv), VStr (snd kv))) metadata).

Definition definition_object (definition : FontDefinition) : FontDefinitionObject :=
  mkDefinitionObject
    (VStr (def_name definition)) (VStr (display_name definition))
    (VStr (def_font_type definition)) (VStr (description definition))
    (VStr (def_version definition)) (VStr (author definition))
    (VStr (def_source_font definition)) (VStr (def_target_font definition))
    (strategy definition)
    (List.map rule_object (def_rules definition))
    (metadata_value (def_metadata definition)).

Definition to_dict (self : FontDefinition) : dict :=
  [ (lit "name", VStr (def_name self));
    (lit "display_name", VStr (display_name self));
    (lit "font_type", VStr (def_font_type self));
    (lit "description", VStr (description self));
    (lit "version", VStr (def_version self));
    (lit "author", VStr (author self));
    (lit "source_font", VStr (def_source_font self));
    (lit "target_font", VStr (def_target_font self));
    (lit "strategy", VStr (strategy_value (strategy self)));
    (lit "metadata", metadata_value (def_metadata self));
    (lit "rules",
     VList (List.map
              (fun rule =>
                 VDict [ (lit "from_char", VStr (from_char rule));
                         (lit "to_char", VStr (to_char rule));
                         (lit "priority", VInt (rule_priority rule));
                         (lit "before", optional (before rule));
                         (lit "after", optional (after rule));
                         (lit "description", optional (rule_description rule)) ])
              (def_rules self))) ].

(** A dictionary with typed values, as [Definitions.from_dict] takes it,
    given as loaded data: an absent key ([None]) writes no item. *)
Definition item {A : Type} (key : string) (encode : A -> value) (o : option A)
  : dict :=
  match o with Some a => [(lit key, encode a)] | None => [] end.

Definition rule_data_value (r : Definitions.rule_data) : value :=
  VDict (item "from_char" VStr (Definitions.rd_from_char r)
         ++ item "to_char" VStr (Definitions.rd_to_char r)
         ++ item "priority" VInt (Definitions.rd_priority r)
         ++ item "before" VStr (Definitions.rd_before r)
         ++ item "after" VStr (Definitions.rd_after r)
         ++ item "description" VStr (Definitions.rd_description r)).

Definition definition_data_dict (data : Definitions.definition_data) : dict :=
  item "name" VStr (Definitions.dd_name data)
  ++ item "display_name" VStr (Definitions.dd_display_name data)
  ++ item "font_type" VStr (Definitions.dd_font_type data)
  ++ item "description" VStr (Definitions.dd_description data)
  ++ item "version" VStr (Definitions.dd_version data)
  ++ item "author" VStr (Definitions.dd_author data)
  ++ item "source_font" VStr (Definitions.dd_source_font data)
  ++ item "target_font" VStr (Definitions.dd_target_font data)
  ++ item "strategy" VStr (Definitions.dd_strategy data)
  ++ item "metadata" metadata_value (Definitions.dd_metadata data)
  ++ item "rules" (fun rules => VList (List.map rule_data_value rules))
       (Definitions.dd_rules data).

(** The result of [Definitions.from_dict], as objects and exceptions. *)
Definition typed_result (r : Definitions.load_error + FontDefinition)
  : error + FontDefinitionObject :=
  match r with
  | inl (Definitions.MissingKey key) => inl (Key_error (lit key))
  | inl (Definitions.NoSuchStrategy v) => inl (Value_error (VStr v))
  | inr definition => inr (definition_object definition)
  end.

(** The rules that the loop of [from_dict] reads without an exception:
    the key 'rules' is absent, or holds a list of dicts that each have
    the keys 'from_char' and 'to_char', or holds an empty str or dict,
    over which the loop makes no turn. *)
Definition rule_readable (v : value) : bool :=
  match v with
  | VDict d => has_key d (lit "from_char") && has_key d (lit "to_char")
  | _ => false
  end.

Definition rules_readable (data : dict) : bool :=
  match lookup data (lit "rules") with
  | None => true
  | Some (VList items) => forallb rule_readable items
  | Some (VStr []) => true
  | Some (VDict []) => true
  | Some _ => false
  end.

(** What the loop over the rules raises. *)
Definition rule_error (e : error) : Prop :=
  e = Type_error \/ e = Key_error (lit "from_char") \/ e = Key_error (lit "to_char").

(** The number of turns of the loop over the rules. *)
Definition rule_count (data : dict) : nat :=
  match lookup data (lit "rules") with
  | Some (VList items) => List.length items
  | _ => 0%nat
  end.

Definition strategy_known (data : dict) : bool :=
  match get data (lit "strategy") (VStr (lit "simple")) with
  | VStr s =>
      existsb (str_eqb s)
        [lit "simple"; lit "contextual"; lit "pattern_based"; lit "rule_based";
         lit "custom"]
  | _ => false
  end.

End Json.

(** ** fonts/font_registry.py: queries and [unregister_font] *)

Module RegistryQueries.

Import Fonts Registry.

Definition get_font_mapping (self : FontRegistry) (name : str) : option FontMapping :=
  get_mapping (font_manager self) name.

Definition list_available_fonts (self : FontRegistry) : list str :=
  registered_fonts self.

(** [unregister_font]: the name leaves the set of registered fonts; the
    font manager is not touched. *)
Definition unregister_font (self : FontRegistry) (name : str) : FontRegistry * bool :=
  if existsb (str_eqb name) (registered_fonts self)
  then (mkFontRegistry (font_manager self)
          (filter (fun n => negb (str_eqb n name)) (registered_fonts self)),
        true)
  else (self, false).

End RegistryQueries.

(** ** fonts/preeti_variants.py: the built-in mappings *)

Module Builtin.

Import Fonts Registry.

(** [StandardPreetiMapping.get_character_mappings], in the order of the
    source: a-z, A-Z, 0-9 and the ASCII symbols. *)
Definition standard_character_mappings : list (char * str) :=
  [ (97, [2348]); (98, [2342]); (99, [2309]); (100, [2350]); (101, [2349]);
    (102, [2366]); (103, [2344]); (104, [2332]); (105, [2359; 2381]);
    (106, [2357]); (107, [2346]); (108, [2367]); (109, [2347]); (110, [2354]);
    (111, [2351]); (112, [2313]); (113, [2340; 2381; 2352]); (114, [2330]);
    (115, [2325]); (116, [2340]); (117, [2327]); (118, [2326]); (119, [2343]);
    (120, [2361]); (121, [2341]); (122, [2358]);
    (65, [2348; 2381]); (66, [2343]); (67, [2315]); (68, [2350; 2381]);
    (69, [2349; 2381]); (70, [2305]); (71, [2344; 2381]); (72, [2332; 2381]);
    (73, [2325; 2381; 2359; 2381]); (74, [2357; 2381]); (75, [2346; 2381]);
    (76, [2368]); (77, [2307]); (78, [2354; 2381]); (79, [2311]); (80, [2319]);
    (81, [2340; 2381; 2340]); (82, [2330; 2381]); (83, [2325; 2381]);
    (84, [2340; 2381]); (85, [2327; 2381]); (86, [2326; 2381]);
    (87, [2343; 2381]); (88, [2361; 2381]); (89, [2341; 2381]);
    (90, [2358; 2381]);
    (48, [2339; 2381]); (49, [2332; 2381; 2334]); (50, [2342; 2381; 2342]);
    (51, [2328]); (52, [2342; 2381; 2343]); (53, [2331]); (54, [2335]);
    (55, [2336]); (56, [2337]); (57, [2338]);
    (126, [2334; 2381]); (96, [2334]); (33, [2407]); (64, [2408]);
    (35, [2409]); (36, [2410]); (37, [2411]); (94, [2412]); (38, [2413]);
    (42, [2414]); (40, [2415]); (41, [2406]); (45, [40]); (95, [41]);
    (43, [2306]); (91, [2371]); (123, [2352; 2381]); (93, [2375]);
    (125, [2376]); (92, [2381]); (124, [2381; 2352]); (59, [2360]);
    (58, [2360; 2381]); (39, [2369]); (34, [2370]); (44, [44]); (60, [63]);
    (46, [2404]); (62, [2358; 2381; 2352]); (47, [2352]); (63, [2352; 2369]);
    (61, [46]) ]%N.

(** The entries that Preeti Plus and Kantipur add. *)
Definition plus_mappings : list (char * str) :=
  [ (231, [2365]); (233, [2384]); (241, [2321]); (243, [2322]);
    (250, [2400]); (252, [2401]) ]%N.

Definition kantipur_overrides : list (char * str) :=
  [ (199, [2365]); (201, [2384]); (209, [2321]); (211, [2322]);
    (218, [2400]); (220, [2401]) ]%N.

(** [d[k] = v] and [d.update(u)] on a dict given by its items: a key that
    is present keeps its place, a new key goes to the end. *)
Fixpoint dict_put (d : list (char * str)) (k : char) (v : str) : list (char * str) :=
  match d with
  | [] => [(k, v)]
  | (k', v') :: d' =>
      if char_eqb k' k then (k, v) :: d' else (k', v') :: dict_put d' k v
  end.

Definition dict_update (d u : list (char * str)) : list (char * str) :=
  fold_left (fun d kv => dict_put d (fst kv) (snd kv)) u d.

Definition plus_character_mappings : list (char * str) :=
  dict_update standard_character_mappings plus_mappings.

Definition kantipur_character_mappings : list (char * str) :=
  dict_update standard_character_mappings kantipur_overrides.

(** [StandardPreetiMapping.get_special_rules], and the Kantipur rules
    that extend them. *)
Definition standard_special_rules : list FontRule :=
  [ mkFontRule (lit "qm") [2360; 2381]%N CHARACTER 10 None None;
    mkFontRule (lit "f]") [2379]%N CHARACTER 10 None None;
    mkFontRule (lit "km") [2347]%N CHARACTER 10 None None;
    mkFontRule (lit "0f") [2339]%N CHARACTER 10 None None;
    mkFontRule (lit "If") [2325; 2381; 2359]%N CHARACTER 10 None None;
    mkFontRule (lit "if") [2359]%N CHARACTER 10 None None;
    mkFontRule (lit "cf") [2310]%N CHARACTER 10 None None ].

Definition kantipur_special_rules : list FontRule :=
  standard_special_rules
  ++ [ mkFontRule (lit "Qm") [2360; 2381]%N CHARACTER 15 None None ].

(** [create_mapping], shared by the three classes: the rules of the
    character table at priority 1, then the special rules. *)
Definition create_mapping (name display_name description : str)
    (char_mappings : list (char * str)) (special_rules : list FontRule)
  : FontMapping :=
  FontMapping_init name (lit "preeti") (lit "unicode") PREETI
    (List.map (fun kv => mkFontRule [fst kv] (snd kv) CHARACTER 1 None None)
       char_mappings
     ++ special_rules)
    [ ("display_name"%string, display_name);
      ("description"%string, description);
      ("author"%string, lit "Preeti Unicode Converter");
      ("strategy"%string, lit "rule_based") ]
    (lit "1.0.0").

Definition standard_mapping : FontMapping :=
  create_mapping (lit "standard_preeti") (lit "Standard Preeti")
    (lit "Standard Preeti font to Unicode conversion")
    standard_character_mappings standard_special_rules.

Definition plus_mapping : FontMapping :=
  create_mapping (lit "preeti_plus") (lit "Preeti Plus")
    (lit "Preeti Plus font to Unicode conversion with extended character set")
    plus_character_mappings standard_special_rules.

Definition kantipur_mapping : FontMapping :=
  create_mapping (lit "kantipur") (lit "Kantipur")
    (lit "Kantipur font to Unicode conversion")
    kantipur_character_mappings kantipur_special_rules.

(** [FontRegistry._register_builtin_fonts] on a registry without fonts:
    the standard mapping as default, then Preeti Plus and Kantipur. *)
Definition register_builtin (self : FontRegistry) (mapping : FontMapping)
    (is_default : bool) : FontRegistry :=
  mkFontRegistry (register_mapping (font_manager self) mapping is_default)
    (set_add (registered_fonts self) (name mapping)).

Definition builtin_registry : FontRegistry :=
  register_builtin
    (register_builtin (register_builtin empty_registry standard_mapping true)
       plus_mapping false)
    kantipur_mapping false.

(** The non-ASCII keys of the converter's symbol table, which the
    standard character table does not have. *)
Definition is_extra_symbol (c : char) : bool :=
  existsb (char_eqb c) [710; 206; 229; 247; 171; 187; 176; 191; 161]%N.

(** The literal sequences of the special rules. *)
Definition special_sequences : list str :=
  [lit "qm"; lit "f]"; lit "km"; lit "0f"; lit "If"; lit "if"; lit "cf"].

End Builtin.

(** ** Vocabulary of the statements about mappings *)

Module MappingFacts.

Import Fonts.

(** The target that the first rule for the single character [c] gives,
    or [c] itself without such a rule. *)
Definition rule_target (rules : list FontRule) (c : char) : str :=
  match find (fun rule => str_eqb (source rule) [c]) rules with
  | Some rule => target rule
  | None => [c]
  end.

Definition single_char_source (rule : FontRule) : Prop :=
  exists x, source rule = [x].

(** A rule without contexts to check: each context is [None] or empty. *)
Definition context_free (rule : FontRule) : Prop :=
  (context_before rule = None \/ context_before rule = Some []) /\
  (context_after rule = None \/ context_after rule = Some []).

(** [rule] put behind the rules of [l] whose priority is not lower. *)
Fixpoint place_rule (rule : FontRule) (l : list FontRule) : list FontRule :=
  match l with
  | [] => [rule]
  | x :: l' =>
      if priority x <? priority rule then rule :: l else x :: place_rule rule l'
  end.

Definition same_source_target (src tgt : str) (rule : FontRule) : Prop :=
  source rule = src /\ target rule = tgt.

End MappingFacts.

(** ** Vocabulary of the statements about detection *)

Module DetectionFacts.

Import Fonts Manager.

(** The number of characters of a text that belong to a class. *)
Definition class_count (cls : char -> bool) (text : str) : Z :=
  len (filter cls text).

Definition preeti_count (text : str) : Z :=
  class_count class_alnum text + class_count class_symbol text.

Definition unicode_count (text : str) : Z :=
  class_count class_devanagari text + class_count class_last text.

End DetectionFacts.

(** ** Vocabulary of the statements about registration *)

Module RegistrationFacts.

Import Fonts Registry.

(** A rule with a source and a target. *)
Definition rule_complete (rule : MappingRule) : Prop :=
  from_char rule <> [] /\ to_char rule <> [].

(** An entry of a mapping dictionary with a key and a value, and the rule
    that a font built from the dictionary has for it. *)
Definition entry_complete (kv : str * str) : Prop := fst kv <> [] /\ snd kv <> [].

Definition entry_rule (kv : str * str) : FontRule :=
  mkFontRule (fst kv) (snd kv) CHARACTER 0 None None.

End RegistrationFacts.

(** ** Vocabulary of the statements about the built-in mappings *)

Module BuiltinFacts.

Import Fonts Builtin.

(** The rule that [create_mapping] builds for an entry of the table. *)
Definition char_rule (kv : char * str) : FontRule :=
  mkFontRule [fst kv] (snd kv) CHARACTER 1 None None.

(** A character that both engines treat alone and alike: not the marker
    'l', not the stacking marker '{', and not one of the symbol keys that
    only the converter's table has. *)
Definition plain_char (c : char) : Prop :=
  c <> ch_l /\ c <> ch_lbrace /\ is_extra_symbol c = false.

(** The entry of the standard table for [c], if any, is the converter's
    target for [c]; without an entry the converter keeps [c]. *)
Definition table_entry_agrees (c : char) : bool :=
  match find (fun kv => str_eqb [fst kv] [c]) standard_character_mappings with
  | Some kv => str_eqb (snd kv) (char_target c)
  | None => str_eqb (char_target c) [c]
  end.

End BuiltinFacts.

(** ** Vocabulary of the statements about the converted text *)

Module OutputFacts.

(** No ASCII letter and no ASCII digit. *)
Definition alnum_free (u : str) : bool :=
  forallb (fun c => negb (is_ascii_letter c || is_ascii_digit c)) u.

End OutputFacts.

(** ** Facts about the Python primitives *)

Section PythonFacts.

Lemma char_eqb_eq (a b : char) : char_eqb a b = true <-> a = b.
Proof. apply N.eqb_eq. Qed.

Lemma char_eqb_refl (a : char) : char_eqb a a = true.
Proof. apply N.eqb_refl. Qed.

Lemma char_eqb_neq (a b : char) : char_eqb a b = false <-> a <> b.
Proof. apply N.eqb_neq. Qed.

Lemma str_eqb_eq (a b : str) : str_eqb a b = true <-> a = b.
Proof.
  revert b; induction a as [|x a IH]; intros [|y b]; simpl;
    try (split; [discriminate | congruence]); try tauto.
  rewrite andb_true_iff, char_eqb_eq, IH.
  split; [intros [-> ->]; reflexivity | intros H; inversion H; auto].
Qed.

Lemma len_nonneg {A : Type} (s : list A) : 0 <= len s.
Proof. unfold len; lia. Qed.

Lemma len_app {A : Type} (s t : list A) : len (s ++ t) = len s + len t.
Proof. unfold len; rewrite length_app; lia. Qed.

(** Indexing at offset [k] from a non-negative position [i], read on the
    suffix that starts at [i]. *)
Lemma getitem_skipn {A : Type} (s : list A) (i : Z) (k : nat) :
  0 <= i ->
  getitem s (i + Z.of_nat k) =
  match nth_error (skipn (Z.to_nat i) s) k with
  | Some x => Returned x
  | None => Raised IndexError
  end.
Proof.
  intros Hi. unfold getitem.
  destruct (i + Z.of_nat k <? 0) eqn:E; [apply Z.ltb_lt in E; lia|].
  rewrite E.
  replace (Z.to_nat (i + Z.of_nat k)) with (Z.to_nat i + k)%nat by lia.
  rewrite nth_error_skipn. reflexivity.
Qed.

Lemma in_range_skipn {A : Type} (s : list A) (i : Z) (k : nat) :
  0 <= i ->
  (i + Z.of_nat k <? len s) = (k <? List.length (skipn (Z.to_nat i) s))%nat.
Proof.
  intros Hi. rewrite length_skipn. unfold len.
  destruct (Nat.ltb_spec k (List.length s - Z.to_nat i));
    [apply Z.ltb_lt | apply Z.ltb_ge]; lia.
Qed.

Lemma skipn_succ {A : Type} (s : list A) (i : Z) (c : A) (r : list A) :
  0 <= i ->
  skipn (Z.to_nat i) s = c :: r ->
  skipn (Z.to_nat (i + 1)) s = r.
Proof.
  intros Hi H.
  replace (Z.to_nat (i + 1)) with (1 + Z.to_nat i)%nat by lia.
  rewrite <- skipn_skipn, H. reflexivity.
Qed.

Lemma contains_nil_true (s : str) : contains s [] = true.
Proof. destruct s; reflexivity. Qed.

Lemma replace_from_not_contains (old new s : str) :
  contains s old = false -> replace_from old new 0 s = s.
Proof.
  induction s as [|c r IH]; [reflexivity|].
  cbn [contains replace_from]. intros H.
  apply orb_false_iff in H as [H1 H2]. rewrite H1. now rewrite IH.
Qed.

Lemma replace_not_contains (s old new : str) :
  contains s old = false -> replace s old new = s.
Proof.
  intros H. destruct old as [|o old'].
  - now rewrite contains_nil_true in H.
  - unfold replace. now apply replace_from_not_contains.
Qed.

End PythonFacts.

(** ** The normalizer *)

Section Normalizer.

Lemma skipn_offset {A : Type} (s : list A) (i : Z) (pre r : list A) :
  0 <= i ->
  skipn (Z.to_nat i) s = pre ++ r ->
  skipn (Z.to_nat (i + len pre)) s = r.
Proof.
  intros Hi H. unfold len.
  replace (Z.to_nat (i + Z.of_nat (List.length pre)))
    with (List.length pre + Z.to_nat i)%nat by lia.
  rewrite <- skipn_skipn, H, skipn_app, skipn_all, Nat.sub_diag.
  reflexivity.
Qed.

Lemma scan_1 (c : char) (prev : str) :
  scan [c] prev = plain_step c prev (scan [] [ch_l]) (scan [] []).
Proof. reflexivity. Qed.

Lemma scan_2 (c c1 : char) (prev : str) :
  scan [c; c1] prev =
  if char_eqb c1 ch_lbrace && negb (char_eqb c ch_f)
  then ch_lbrace :: c :: scan [] prev
  else plain_step c prev (scan [c1] [ch_l]) (scan [c1] []).
Proof. reflexivity. Qed.

Lemma scan_3 (c c1 c2 : char) (r2 prev : str) :
  scan (c :: c1 :: c2 :: r2) prev =
  if char_eqb c2 ch_lbrace && (char_eqb c1 ch_f || char_eqb c1 ch_o_sign)
  then ch_lbrace :: c :: c1 :: scan r2 prev
  else if char_eqb c1 ch_lbrace && negb (char_eqb c ch_f)
       then ch_lbrace :: c :: scan (c2 :: r2) prev
       else plain_step c prev (scan (c1 :: c2 :: r2) [ch_l]) (scan (c1 :: c2 :: r2) []).
Proof. reflexivity. Qed.

(** The loop of [normalize_preeti] computes [scan] on the text that is
    still to be read, whenever the fuel exceeds the length of that text. *)
Lemma normalize_loop_scan (text : str) (fuel : nat) :
  forall (index : Z) (normalized prev : str),
    -1 <= index ->
    (List.length (skipn (Z.to_nat (index + 1)) text) < fuel)%nat ->
    normalize_loop fuel text index normalized prev =
    Returned (normalized ++ scan (skipn (Z.to_nat (index + 1)) text) prev).
Proof.
  induction fuel as [|fuel IH]; intros index normalized prev Hidx Hfuel; [lia|].
  cbn [normalize_loop].
  assert (Hi : 0 <= index + 1) by lia.
  pose proof (fun k => in_range_skipn text (index + 1) k Hi) as Hrange.
  pose proof (fun k => getitem_skipn text (index + 1) k Hi) as Hget.
  pose proof (fun pre r => skipn_offset text (index + 1) pre r Hi) as Hskip.
  remember (skipn (Z.to_nat (index + 1)) text) as rest eqn:Erest.
  symmetry in Erest.
  generalize (Hrange 0%nat); rewrite Z.add_0_r; intros ->.
  destruct rest as [|c r]; [cbn; now rewrite app_nil_r|].
  cbn [List.length Nat.ltb Nat.leb].
  generalize (Hget 0%nat); rewrite Z.add_0_r; intros ->.
  cbn [nth_error bind].
  unfold try_lbrace.
  change (index + 1 + 2) with (index + 1 + Z.of_nat 2).
  change (index + 1 + 1) with (index + 1 + Z.of_nat 1).
  rewrite !Hrange, !Hget.
  assert (Hnext : forall pre r' n p,
             c :: r = pre ++ r' -> pre <> [] ->
             normalize_loop fuel text (index + 1 + (len pre - 1)) n p =
             Returned (n ++ scan r' p)).
  { intros pre r' n p E Hne.
    assert (Hl : 1 <= len pre)
      by (destruct pre; [congruence | unfold len; cbn; lia]).
    rewrite IH; [| lia |].
    - replace (index + 1 + (len pre - 1) + 1) with (index + 1 + len pre) by lia.
      now rewrite (Hskip pre r' E).
    - replace (index + 1 + (len pre - 1) + 1) with (index + 1 + len pre) by lia.
      rewrite (Hskip pre r' E).
      apply (f_equal (@List.length _)) in E. rewrite length_app in E.
      cbn [List.length] in *. unfold len in Hl. lia. }
  assert (Hplain : forall r',
             r = r' ->
             (if char_eqb c ch_l
              then normalize_loop fuel text (index + 1) normalized [ch_l]
              else normalize_loop fuel text (index + 1)
                     (normalized ++ c :: prev) []) =
             Returned (normalized ++ plain_step c prev (scan r' [ch_l]) (scan r' []))).
  { intros r' <-. unfold plain_step.
    pose proof (Hnext [c] r) as H1. rewrite Z.add_0_r in H1.
    destruct (char_eqb c ch_l).
    - apply H1; [reflexivity|discriminate].
    - rewrite H1; [|reflexivity|discriminate].
      now rewrite <- app_assoc. }
  destruct r as [|c1 [|c2 r2]].
  - rewrite scan_1. cbn [List.length Nat.ltb Nat.leb nth_error bind].
    exact (Hplain _ eq_refl).
  - rewrite scan_2. pose proof (Hnext [c; c1] []) as H2.
    cbn [List.length Nat.ltb Nat.leb nth_error bind].
    destruct (char_eqb c1 ch_lbrace && negb (char_eqb c ch_f)).
    + cbn [bind]. change (index + 1 + Z.of_nat 1) with (index + 1 + (len [c; c1] - 1)).
      rewrite H2; [|reflexivity|discriminate].
      now rewrite <- app_assoc.
    + cbn [bind]. exact (Hplain _ eq_refl).
  - rewrite scan_3.
    pose proof (Hnext [c; c1] (c2 :: r2)) as H2.
    pose proof (Hnext [c; c1; c2] r2) as H3.
    cbn [List.length Nat.ltb Nat.leb nth_error bind].
    destruct (char_eqb c2 ch_lbrace); cbn [bind andb].
    + destruct (char_eqb c1 ch_f || char_eqb c1 ch_o_sign); cbn [bind].
      * change (index + 1 + Z.of_nat 2) with (index + 1 + (len [c; c1; c2] - 1)).
        rewrite H3; [|reflexivity|discriminate].
        now rewrite <- app_assoc.
      * destruct (char_eqb c1 ch_lbrace && negb (char_eqb c ch_f)); cbn [bind].
        -- change (index + 1 + Z.of_nat 1) with (index + 1 + (len [c; c1] - 1)).
           rewrite H2; [|reflexivity|discriminate].
           now rewrite <- app_assoc.
        -- exact (Hplain _ eq_refl).
    + destruct (char_eqb c1 ch_lbrace && negb (char_eqb c ch_f)); cbn [bind].
      * change (index + 1 + Z.of_nat 1) with (index + 1 + (len [c; c1] - 1)).
        rewrite H2; [|reflexivity|discriminate].
        now rewrite <- app_assoc.
      * exact (Hplain _ eq_refl).
Qed.

End Normalizer.

(** ** Closed forms of the converter's functions *)

Section ConverterClosedForms.

Lemma pre_substitute_nil : pre_substitute [] = [].
Proof. reflexivity. Qed.

Lemma normalize_preeti_scan (text : str) :
  normalize_preeti text = Returned (scan (pre_substitute text) []).
Proof.
  destruct text as [|c r]; [reflexivity|].
  unfold normalize_preeti.
  rewrite normalize_loop_scan.
  - reflexivity.
  - lia.
  - change (Z.to_nat (-1 + 1)) with 0%nat. cbn [skipn]. lia.
Qed.

(** More fuel than [normalize_preeti] gives its loop changes nothing. *)
Lemma normalize_loop_fuel (text : str) (extra : nat) :
  normalize_loop (S (List.length (pre_substitute text)) + extra)
    (pre_substitute text) (-1) [] [] = normalize_preeti text.
Proof.
  rewrite normalize_preeti_scan, normalize_loop_scan.
  - reflexivity.
  - lia.
  - change (Z.to_nat (-1 + 1)) with 0%nat. cbn [skipn]. lia.
Qed.

Lemma getitem_in_range {A : Type} (s : list A) (i : Z) :
  0 <= i < len s -> exists x, getitem s i = Returned x.
Proof.
  intros [H0 H1]. unfold getitem.
  destruct (i <? 0) eqn:E; [apply Z.ltb_lt in E; lia|]. rewrite E.
  destruct (nth_error s (Z.to_nat i)) eqn:En; [eauto|].
  apply nth_error_None in En. unfold len in H1. lia.
Qed.

(** The [try] block of the character loop never raises. *)
Lemma lookup_char_returns (character : char) :
  exists target, lookup_char character = Returned target.
Proof.
  unfold lookup_char.
  destruct ((97 <=? ord character) && (ord character <=? 122)) eqn:E1.
  { apply andb_true_iff in E1 as [H1 H2]. apply Z.leb_le in H1, H2.
    apply getitem_in_range. change (len unicode_a_to_z) with 26. lia. }
  destruct ((65 <=? ord character) && (ord character <=? 90)) eqn:E2.
  { apply andb_true_iff in E2 as [H1 H2]. apply Z.leb_le in H1, H2.
    apply getitem_in_range. change (len unicode_A_to_Z) with 26. lia. }
  destruct ((48 <=? ord character) && (ord character <=? 57)) eqn:E3.
  { apply andb_true_iff in E3 as [H1 H2]. apply Z.leb_le in H1, H2.
    apply getitem_in_range. change (len unicode_0_to_9) with 10. lia. }
  eauto.
Qed.

Lemma convert_char_target (converted : str) (character : char) :
  convert_char converted character = Returned (converted ++ char_target character).
Proof.
  unfold convert_char, char_target.
  destruct (lookup_char_returns character) as [t ->]. reflexivity.
Qed.

Lemma convert_loop_flat_map (normalized converted : str) :
  convert_loop converted normalized =
  Returned (converted ++ flat_map char_target normalized).
Proof.
  revert converted; induction normalized as [|c r IH]; intros converted; cbn.
  - now rewrite app_nil_r.
  - rewrite convert_char_target. cbn. rewrite IH. now rewrite <- app_assoc.
Qed.

Lemma convert_to_unicode_closed (text : str) :
  convert_to_unicode text =
  Returned (flat_map char_target (scan (pre_substitute text) [])).
Proof.
  destruct text as [|c r]; [reflexivity|].
  unfold convert_to_unicode. rewrite normalize_preeti_scan. cbn [bind].
  now rewrite convert_loop_flat_map.
Qed.

Lemma numbers_loop_flat_map (text result : str) :
  numbers_loop result text = result ++ flat_map numeral_of text.
Proof.
  revert result; induction text as [|c r IH]; intros result; cbn.
  - now rewrite app_nil_r.
  - rewrite IH. now rewrite <- app_assoc.
Qed.

Lemma convert_numbers_closed (text : str) :
  convert_numbers_to_nepali text = Returned (flat_map numeral_of text).
Proof.
  destruct text as [|c r]; [reflexivity|].
  unfold convert_numbers_to_nepali. now rewrite numbers_loop_flat_map.
Qed.

Lemma convert_text_closed (text : str) (convert_numbers : bool) :
  convert_text text convert_numbers =
  Returned
    (let unicode_text := flat_map char_target (scan (pre_substitute text) []) in
     if convert_numbers then flat_map numeral_of unicode_text else unicode_text).
Proof.
  destruct text as [|c r]; [now destruct convert_numbers|].
  unfold convert_text. rewrite convert_to_unicode_closed. cbn [bind].
  destruct convert_numbers; [apply convert_numbers_closed | reflexivity].
Qed.

End ConverterClosedForms.

(** ** Totality of the conversion *)

Section Totality.

(** C6. For every input string, [convert_text] returns a string and
    raises nothing: [normalize_preeti] (whose loop gives the same result
    with any larger fuel), [convert_to_unicode] and
    [convert_numbers_to_nepali] all return, and the [try] block of the
    character loop always returns a target, so its
    [except (KeyError, IndexError)] branch is never entered. *)
Theorem convert_text_total (text : str) (convert_numbers : bool) :
  (exists n, normalize_preeti text = Returned n /\
             forall extra,
               normalize_loop (S (List.length (pre_substitute text)) + extra)
                 (pre_substitute text) (-1) [] [] = Returned n) /\
  (exists u, convert_to_unicode text = Returned u) /\
  (exists r, convert_numbers_to_nepali text = Returned r) /\
  (exists s, convert_text text convert_numbers = Returned s) /\
  (forall character converted,
      exists target,
        lookup_char character = Returned target /\
        convert_char converted character = Returned (converted ++ target)).
Proof.
  split; [|split; [|split; [|split]]].
  - exists (scan (pre_substitute text) []). split.
    + apply normalize_preeti_scan.
    + intros extra. rewrite normalize_loop_fuel. apply normalize_preeti_scan.
  - eexists. apply convert_to_unicode_closed.
  - eexists. apply convert_numbers_closed.
  - eexists. apply convert_text_closed.
  - intros character converted.
    destruct (lookup_char_returns character) as [t Ht].
    exists t. split; [exact Ht|].
    unfold convert_char. now rewrite Ht.
Qed.

End Totality.

(** ** Digits *)

Section Digits.

Lemma getitem_In {A : Type} (s : list A) (i : Z) (x : A) :
  0 <= i -> getitem s i = Returned x -> In x s.
Proof.
  intros Hi. unfold getitem.
  destruct (i <? 0) eqn:E; [apply Z.ltb_lt in E; lia|]. rewrite E.
  destruct (nth_error s (Z.to_nat i)) eqn:En; [|discriminate].
  intros H; injection H as ->. eapply nth_error_In; eauto.
Qed.

Lemma dict_get_cases {V : Type} (d : list (char * V)) (k : char) (default : V) :
  dict_get d k default = default \/ In (dict_get d k default) (List.map snd d).
Proof.
  induction d as [|[k' v] d IH]; cbn; [now left|].
  destruct (char_eqb k' k); [right; now left|].
  destruct IH as [IH|IH]; [now left | right; now right].
Qed.

Lemma dict_get_not_key {V : Type} (d : list (char * V)) (k : char) (default : V) :
  existsb (fun kv => char_eqb (fst kv) k) d = false ->
  dict_get d k default = default.
Proof.
  induction d as [|[k' v] d IH]; cbn; [reflexivity|].
  intros H. apply orb_false_iff in H as [H1 H2]. rewrite H1. auto.
Qed.

(** No target of the class tables holds an ASCII digit, and a digit is
    never passed through: the output of the resolver is free of them. *)
Lemma char_target_digit_free (c : char) : digit_free (char_target c) = true.
Proof.
  assert (Htab : forall tab, forallb digit_free tab = true ->
                 forall i t, 0 <= i -> getitem tab i = Returned t -> digit_free t = true).
  { intros tab Htab i t Hi Hg.
    rewrite forallb_forall in Htab. apply Htab. eapply getitem_In; eauto. }
  unfold char_target, lookup_char.
  destruct ((97 <=? ord c) && (ord c <=? 122)) eqn:E1.
  { apply andb_true_iff in E1 as [H1 H2]. apply Z.leb_le in H1, H2.
    destruct (getitem unicode_a_to_z (ord c - 97)) eqn:Eg;
      try (eapply Htab; [| |exact Eg]; [reflexivity|lia]).
    all: cbn; unfold is_ascii_digit; replace (c <=? 57)%N with false;
      [now rewrite andb_false_r | symmetry; apply N.leb_gt; unfold ord in *; lia]. }
  destruct ((65 <=? ord c) && (ord c <=? 90)) eqn:E2.
  { apply andb_true_iff in E2 as [H1 H2]. apply Z.leb_le in H1, H2.
    destruct (getitem unicode_A_to_Z (ord c - 65)) eqn:Eg;
      try (eapply Htab; [| |exact Eg]; [reflexivity|lia]).
    all: cbn; unfold is_ascii_digit; replace (c <=? 57)%N with false;
      [now rewrite andb_false_r | symmetry; apply N.leb_gt; unfold ord in *; lia]. }
  destruct ((48 <=? ord c) && (ord c <=? 57)) eqn:E3.
  { apply andb_true_iff in E3 as [H1 H2]. apply Z.leb_le in H1, H2.
    destruct (getitem unicode_0_to_9 (ord c - 48)) eqn:Eg;
      try (eapply Htab; [| |exact Eg]; [reflexivity|lia]).
    all: exfalso; destruct (getitem_in_range unicode_0_to_9 (ord c - 48)) as [x Hx];
      [change (len unicode_0_to_9) with 10; lia | congruence]. }
  destruct (dict_get_cases symbols_dict c [c]) as [-> | Hin].
  - cbn. rewrite andb_true_r. unfold is_ascii_digit.
    apply negb_true_iff.
    apply andb_false_iff. apply andb_false_iff in E3 as [E3|E3];
      [left; apply N.leb_gt; apply Z.leb_gt in E3
      |right; apply N.leb_gt; apply Z.leb_gt in E3]; unfold ord in *; lia.
  - assert (Hall : forallb digit_free (List.map snd symbols_dict) = true) by reflexivity.
    rewrite forallb_forall in Hall. now apply Hall.
Qed.

Lemma numeral_of_non_digit (c : char) :
  is_ascii_digit c = false -> numeral_of c = [c].
Proof.
  intros H. unfold numeral_of. apply dict_get_not_key.
  unfold is_ascii_digit in H. unfold nepali_numerals. cbn [existsb fst].
  repeat match goal with
         | |- context [char_eqb ?k c] =>
             replace (char_eqb k c) with false;
             [ | symmetry; apply char_eqb_neq; intros <-; discriminate H ]
         end.
  reflexivity.
Qed.

Lemma flat_map_numeral_digit_free (u : str) :
  digit_free u = true -> flat_map numeral_of u = u.
Proof.
  unfold digit_free.
  induction u as [|c u IH]; cbn [forallb flat_map]; [reflexivity|].
  intros H. apply andb_true_iff in H as [Hc Hu].
  apply negb_true_iff in Hc.
  rewrite numeral_of_non_digit, IH by assumption. reflexivity.
Qed.

Lemma flat_map_digit_free (s : str) :
  digit_free (flat_map char_target s) = true.
Proof.
  induction s as [|c s IH]; cbn [flat_map]; [reflexivity|].
  unfold digit_free in *. rewrite forallb_app.
  rewrite IH, andb_true_r. apply char_target_digit_free.
Qed.

(** The numeral pass replaces each character by exactly one character. *)
Lemma numeral_of_one (c : char) : List.length (numeral_of c) = 1%nat.
Proof.
  unfold numeral_of.
  destruct (dict_get_cases nepali_numerals c [c]) as [-> | Hin]; [reflexivity|].
  assert (Hall : forallb (fun t => Nat.eqb (List.length t) 1)
                   (List.map snd nepali_numerals) = true) by reflexivity.
  rewrite forallb_forall in Hall. apply Nat.eqb_eq. now apply Hall.
Qed.

(** The character loop maps a digit through [unicode_0_to_9], and no
    entry of that table is the digit itself. *)
Lemma digit_target (d : char) :
  is_ascii_digit d = true ->
  getitem unicode_0_to_9 (ord d - 48) = Returned (char_target d) /\
  char_target d <> [d].
Proof.
  intros Hd. unfold is_ascii_digit in Hd.
  apply andb_true_iff in Hd as [H1 H2].
  apply N.leb_le in H1, H2.
  assert (Hcases : (d = 48 \/ d = 49 \/ d = 50 \/ d = 51 \/ d = 52 \/
                    d = 53 \/ d = 54 \/ d = 55 \/ d = 56 \/ d = 57 \/ False)%N) by lia.
  repeat (destruct Hcases as [-> | Hcases];
          [ split; [reflexivity | discriminate] | ]).
  contradiction.
Qed.

End Digits.

(** ** Order of a consonant and the sign that follows it *)

Section Reordering.

Ltac lit_norm :=
  repeat match goal with
         | |- context [lit ?s] =>
             let v := eval vm_compute in (lit s) in change (lit s) with v
         end.

Lemma replace_pair_no_match (a b x y : char) (new : str) :
  char_eqb a x && char_eqb b y = false ->
  replace [x; y] [a; b] new = [x; y].
Proof.
  intros H. unfold replace. cbn [replace_from startswith].
  rewrite andb_true_r, H.
  destruct (char_eqb a y); reflexivity.
Qed.

Lemma pre_substitute_before_rbracket (c : char) :
  c <> ch_f -> pre_substitute [c; ch_rbracket] = [c; ch_rbracket].
Proof.
  intros Hc. unfold pre_substitute.
  assert (Hf : char_eqb 102%N c = false)
    by (apply char_eqb_neq; intros E; apply Hc; now rewrite <- E).
  cbv zeta. lit_norm.
  repeat (rewrite replace_pair_no_match;
          [| first [ now rewrite Hf | now rewrite andb_false_r ] ]).
  reflexivity.
Qed.

(** C7. A consonant code followed immediately by the sign ']' is
    converted to the consonant's mapping followed by the mapping of ']',
    never the reverse; in particular "k]" becomes U+092A U+0947 (PA and
    the vowel sign E) and not U+0947 U+092A. *)
Theorem consonant_then_sign (c : char) (convert_numbers : bool) :
  is_consonant_code c = true ->
  convert_text [c; ch_rbracket] convert_numbers =
    Returned (char_target c ++ char_target ch_rbracket) /\
  char_target c ++ char_target ch_rbracket <>
    char_target ch_rbracket ++ char_target c /\
  convert_text (lit "k]") convert_numbers = Returned [2346; 2375]%N /\
  convert_text (lit "k]") convert_numbers <> Returned [2375; 2346]%N.
Proof.
  intros Hc.
  assert (Hf : c <> ch_f) by (intros ->; discriminate Hc).
  assert (Hl : c <> ch_l) by (intros ->; discriminate Hc).
  assert (Hnorm : scan (pre_substitute [c; ch_rbracket]) [] = [c; ch_rbracket]).
  { rewrite pre_substitute_before_rbracket by assumption.
    rewrite scan_2. cbn [andb char_eqb].
    change (char_eqb ch_rbracket ch_lbrace) with false. cbn [andb].
    unfold plain_step.
    apply char_eqb_neq in Hl. rewrite Hl.
    reflexivity. }
  split; [|split; [|split]].
  - rewrite convert_text_closed, Hnorm. cbv zeta.
    cbn [flat_map]. rewrite app_nil_r.
    destruct convert_numbers; [|reflexivity].
    apply f_equal. apply flat_map_numeral_digit_free.
    pose proof (char_target_digit_free c) as Hd.
    unfold digit_free in *. rewrite forallb_app, Hd. reflexivity.
  - unfold is_consonant_code in Hc.
    destruct (char_target c) as [|t x]; [discriminate|].
    change (char_target ch_rbracket) with [2375%N].
    cbn [app]. intros E. injection E as E _. subst t.
    cbn in Hc. rewrite andb_false_r in Hc. discriminate.
  - now destruct convert_numbers.
  - destruct convert_numbers; discriminate.
Qed.

Lemma consonant_then_sign_witness :
  convert_text [107%N; ch_rbracket] true
  = Returned (char_target 107%N ++ char_target ch_rbracket).
Proof.
  apply (consonant_then_sign 107%N true). reflexivity.
Defined.

End Reordering.

(** ** Text without source characters *)

Section Passthrough.

Lemma replace_from_no_head (old new : str) (h : char) (s : str) :
  hd_error old = Some h -> ~ In h s -> replace_from old new 0 s = s.
Proof.
  intros Hh. induction s as [|c s IH]; intros Hn; [reflexivity|].
  cbn [replace_from].
  destruct old as [|o old']; [discriminate|]. injection Hh as ->.
  cbn [startswith].
  replace (char_eqb h c) with false.
  - cbn [andb]. rewrite IH; [reflexivity|]. intros Hin. apply Hn. now right.
  - symmetry. apply char_eqb_neq. intros ->. apply Hn. now left.
Qed.

Lemma replace_no_head (s old new : str) (h : char) :
  hd_error old = Some h -> ~ In h s -> replace s old new = s.
Proof.
  intros Hh Hn. destruct old as [|o old']; [discriminate|].
  unfold replace. eapply replace_from_no_head; eauto.
Qed.

Lemma unrecognized_not_letter_or_digit (s : str) (h : char) :
  Forall (fun c => recognized c = false) s ->
  is_ascii_letter h || is_ascii_digit h = true ->
  ~ In h s.
Proof.
  intros Hs Hh Hin. rewrite Forall_forall in Hs. specialize (Hs h Hin).
  unfold recognized in Hs. rewrite Hh in Hs. discriminate.
Qed.

Lemma pre_substitute_unrecognized (s : str) :
  Forall (fun c => recognized c = false) s -> pre_substitute s = s.
Proof.
  intros Hs. unfold pre_substitute. cbv zeta.
  rewrite (replace_no_head s (lit "qm") _ 113%N);
    [|reflexivity|now apply unrecognized_not_letter_or_digit].
  rewrite (replace_no_head s (lit "f]") _ 102%N);
    [|reflexivity|now apply unrecognized_not_letter_or_digit].
  rewrite (replace_no_head s (lit "km") _ 107%N);
    [|reflexivity|now apply unrecognized_not_letter_or_digit].
  rewrite (replace_no_head s (lit "0f") _ 48%N);
    [|reflexivity|now apply unrecognized_not_letter_or_digit].
  rewrite (replace_no_head s (lit "If") _ 73%N);
    [|reflexivity|now apply unrecognized_not_letter_or_digit].
  rewrite (replace_no_head s (lit "if") _ 105%N);
    [|reflexivity|now apply unrecognized_not_letter_or_digit].
  rewrite (replace_no_head s (lit "cf") _ 99%N);
    [|reflexivity|now apply unrecognized_not_letter_or_digit].
  reflexivity.
Qed.

(** Without 'l' and '{' the loop copies its input. *)
Lemma scan_no_marker (s : str) :
  Forall (fun c => c <> ch_l /\ c <> ch_lbrace) s -> scan s [] = s.
Proof.
  induction s as [|c r IH]; intros Hs; [reflexivity|].
  inversion Hs as [|? ? [Hl Hb] Hr]; subst.
  specialize (IH Hr).
  assert (Hplain : plain_step c [] (scan r [ch_l]) (scan r []) = c :: r).
  { unfold plain_step. apply char_eqb_neq in Hl. rewrite Hl, IH. reflexivity. }
  destruct r as [|c1 [|c2 r2]].
  - exact Hplain.
  - rewrite scan_2.
    inversion Hr as [|? ? [_ Hb1] _]; subst.
    apply char_eqb_neq in Hb1. rewrite Hb1. exact Hplain.
  - rewrite scan_3.
    inversion Hr as [|? ? [_ Hb1] Hr1]; subst.
    inversion Hr1 as [|? ? [_ Hb2] _]; subst.
    apply char_eqb_neq in Hb1, Hb2. rewrite Hb1, Hb2. exact Hplain.
Qed.

Lemma ord_between (lo hi : N) (c : char) :
  (Z.of_N lo <=? ord c) && (ord c <=? Z.of_N hi) = ((lo <=? c) && (c <=? hi))%N.
Proof.
  unfold ord.
  destruct (N.leb_spec lo c), (N.leb_spec c hi),
    (Z.leb_spec (Z.of_N lo) (Z.of_N c)), (Z.leb_spec (Z.of_N c) (Z.of_N hi));
    try reflexivity; lia.
Qed.

Lemma char_target_unrecognized (c : char) :
  recognized c = false -> char_target c = [c].
Proof.
  unfold recognized, is_ascii_letter, is_ascii_digit. intros H.
  apply orb_false_iff in H as [H Hsym].
  apply orb_false_iff in H as [Hlet Hdig].
  apply orb_false_iff in Hlet as [Hlow Hup].
  unfold char_target, lookup_char.
  rewrite (ord_between 97 122), (ord_between 65 90), (ord_between 48 57).
  rewrite Hlow, Hup, Hdig.
  now rewrite dict_get_not_key.
Qed.

Lemma flat_map_char_target_unrecognized (s : str) :
  Forall (fun c => recognized c = false) s -> flat_map char_target s = s.
Proof.
  induction 1 as [|c s Hc Hs IH]; cbn [flat_map]; [reflexivity|].
  now rewrite char_target_unrecognized, IH.
Qed.

(** C10. A string without recognized source characters (no ASCII letter,
    no ASCII digit, no key of the symbol table; hence none of the literal
    sequences and neither marker of the normalizer) is returned
    unchanged by [convert_text], with or without the numeral pass. *)
Theorem convert_text_unrecognized (text : str) (convert_numbers : bool) :
  Forall (fun c => recognized c = false) text ->
  convert_text text convert_numbers = Returned text.
Proof.
  intros H.
  rewrite convert_text_closed. cbv zeta.
  rewrite pre_substitute_unrecognized by assumption.
  rewrite scan_no_marker.
  - rewrite flat_map_char_target_unrecognized by assumption.
    destruct convert_numbers; [|reflexivity].
    f_equal. apply flat_map_numeral_digit_free.
    unfold digit_free. apply forallb_forall. intros c Hc.
    rewrite Forall_forall in H. specialize (H c Hc).
    unfold recognized in H.
    apply orb_false_iff in H as [H _]. apply orb_false_iff in H as [_ H].
    now rewrite H.
  - eapply Forall_impl; [|exact H].
    intros c Hc. split; intros ->; discriminate Hc.
Qed.

Lemma convert_text_unrecognized_witness :
  convert_text [2325; 32; 2406]%N true = Returned [2325; 32; 2406]%N.
Proof.
  apply (convert_text_unrecognized [2325; 32; 2406]%N true).
  repeat constructor.
Defined.

End Passthrough.

(** ** A marker pending at the end of the text *)

Section TrailingMarker.

Lemma startswith_length (s p : str) :
  startswith s p = true -> (List.length p <= List.length s)%nat.
Proof.
  revert s; induction p as [|x p IH]; intros s H; cbn; [lia|].
  destruct s as [|y s]; [discriminate|].
  cbn in H. apply andb_true_iff in H as [_ H]. apply IH in H. cbn. lia.
Qed.

Lemma startswith_snoc (s p : str) (x : char) :
  ~ In x p -> p <> [] -> startswith (s ++ [x]) p = startswith s p.
Proof.
  revert p; induction s as [|c s IH]; intros p Hx Hp.
  - destruct p as [|y p]; [congruence|]. cbn.
    replace (char_eqb y x) with false; [reflexivity|].
    symmetry. apply char_eqb_neq. intros ->. apply Hx. now left.
  - destruct p as [|y p]; [congruence|]. cbn.
    destruct p as [|z p].
    + destruct (s ++ [x]), s; reflexivity.
    + rewrite IH; [reflexivity| |discriminate].
      intros Hin. apply Hx. now right.
Qed.

Lemma replace_from_snoc (old new : str) (x : char) :
  ~ In x old -> old <> [] ->
  forall (s : str) (skip : nat),
    (skip <= List.length s)%nat ->
    replace_from old new skip (s ++ [x]) = replace_from old new skip s ++ [x].
Proof.
  intros Hx Hold. induction s as [|c s IH]; intros skip Hskip.
  - assert (skip = 0%nat) by (cbn in Hskip; lia). subst skip.
    cbn [app replace_from].
    pose proof (startswith_snoc [] old x Hx Hold) as E. cbn [app] in E.
    rewrite E. destruct old; [congruence|]. reflexivity.
  - cbn [app replace_from]. destruct skip as [|k].
    + change (c :: s ++ [x]) with ((c :: s) ++ [x]).
      rewrite (startswith_snoc (c :: s) old x Hx Hold).
      destruct (startswith (c :: s) old) eqn:E.
      * apply startswith_length in E. cbn in E.
        rewrite IH by lia. now rewrite app_assoc.
      * rewrite IH by lia. reflexivity.
    + apply IH. cbn in Hskip. lia.
Qed.

Lemma replace_snoc (s old new : str) (x : char) :
  ~ In x old -> old <> [] ->
  replace (s ++ [x]) old new = replace s old new ++ [x].
Proof.
  intros Hx Hold. destruct old as [|o old']; [congruence|].
  unfold replace. apply replace_from_snoc; [assumption|discriminate|lia].
Qed.

(** None of the literal sequences holds the marker 'l'. *)
Lemma pre_substitute_snoc_marker (s : str) :
  pre_substitute (s ++ [ch_l]) = pre_substitute s ++ [ch_l].
Proof.
  unfold pre_substitute. cbv zeta.
  repeat (rewrite replace_snoc;
          [ | cbn; intros [H|[H|[]]]; discriminate H | discriminate ]).
  reflexivity.
Qed.

(** A marker at the end of the text is read into the pending slot and
    never written. *)
Lemma scan_snoc_marker (n : nat) :
  forall (s prev : str),
    (List.length s <= n)%nat -> scan (s ++ [ch_l]) prev = scan s prev.
Proof.
  induction n as [|n IH]; intros s prev Hn.
  - destruct s; [reflexivity | cbn in Hn; lia].
  - destruct s as [|c [|c1 [|c2 r2]]].
    + reflexivity.
    + cbn [app]. rewrite scan_2, (scan_1 c prev). reflexivity.
    + cbn [app]. rewrite scan_3, (scan_2 c c1 prev).
      change (char_eqb ch_l ch_lbrace) with false. cbn [andb].
      destruct (char_eqb c1 ch_lbrace && negb (char_eqb c ch_f)); [reflexivity|].
      change [c1; ch_l] with ([c1] ++ [ch_l]).
      rewrite !IH by (cbn in *; lia). reflexivity.
    + cbn [app]. cbn [List.length] in Hn.
      change (c :: c1 :: c2 :: r2 ++ [ch_l]) with (c :: c1 :: c2 :: (r2 ++ [ch_l])).
      rewrite !scan_3.
      change (c2 :: r2 ++ [ch_l]) with ((c2 :: r2) ++ [ch_l]).
      change (c1 :: (c2 :: r2) ++ [ch_l]) with ((c1 :: c2 :: r2) ++ [ch_l]).
      rewrite !IH by (cbn; lia). reflexivity.
Qed.

(** C9. When the text ends in the marker 'l', the marker is still
    pending when the scan ends and is dropped: [normalize_preeti] returns
    what it returns for the text without that last marker, and so do
    [convert_to_unicode] and [convert_text]: the dropped marker leaves
    no mapping in the converted output.  For the marker alone the output
    is empty. *)
Theorem trailing_marker_dropped (s : str) (convert_numbers : bool) :
  (exists n, normalize_preeti (s ++ [ch_l]) = Returned n /\
             normalize_preeti s = Returned n) /\
  (exists u, convert_text (s ++ [ch_l]) convert_numbers = Returned u /\
             convert_text s convert_numbers = Returned u) /\
  convert_text [ch_l] convert_numbers = Returned [].
Proof.
  assert (E : scan (pre_substitute (s ++ [ch_l])) [] = scan (pre_substitute s) []).
  { rewrite pre_substitute_snoc_marker.
    apply (scan_snoc_marker (List.length (pre_substitute s))). lia. }
  split; [|split].
  - eexists. split; [|apply normalize_preeti_scan].
    rewrite normalize_preeti_scan. now rewrite E.
  - eexists. split; [|apply convert_text_closed].
    rewrite convert_text_closed. cbv zeta. now rewrite E.
  - now destruct convert_numbers.
Qed.

End TrailingMarker.

(** ** What the normalizer keeps *)

Section Preservation.

Local Abbreviation count := (count_occ N.eq_dec).

Ltac count_tac :=
  cbn [count_occ app]; rewrite ?count_occ_app; cbn [count_occ];
  repeat match goal with
         | |- context [N.eq_dec ?a ?b] => destruct (N.eq_dec a b)
         end;
  subst; unfold char in *; try congruence; try lia.

Ltac learn_eqb :=
  repeat match goal with
         | H : _ && _ = true |- _ => apply andb_true_iff in H as [? ?]
         | H : char_eqb _ _ = true |- _ => apply char_eqb_eq in H
         end.

(** The loop writes no character that it has not read, and only the
    marker 'l' can go missing. *)
Lemma scan_count (x : char) (n : nat) :
  forall (s prev : str),
    (List.length s <= n)%nat ->
    (count (scan s prev) x <= count s x + count prev x)%nat /\
    (x <> ch_l -> count prev x = 0%nat -> count (scan s prev) x = count s x).
Proof.
  induction n as [|n IH]; intros s prev Hn.
  - destruct s; [cbn; split; lia | cbn in Hn; lia].
  - assert (Hplain : forall c r,
               (List.length r <= n)%nat ->
               (count (plain_step c prev (scan r [ch_l]) (scan r [])) x
                <= count (c :: r) x + count prev x)%nat /\
               (x <> ch_l -> count prev x = 0%nat ->
                count (plain_step c prev (scan r [ch_l]) (scan r [])) x
                = count (c :: r) x)).
    { intros c r Hr. unfold plain_step.
      destruct (IH r [ch_l] Hr) as [A1 A2].
      destruct (IH r [] Hr) as [B1 B2].
      destruct (char_eqb c ch_l) eqn:E.
      - apply char_eqb_eq in E. subst c. split.
        + revert A1. count_tac.
        + intros Hx Hp. rewrite A2; [count_tac | assumption | count_tac].
      - split.
        + revert B1. count_tac.
        + intros Hx Hp. specialize (B2 Hx eq_refl). revert B2. count_tac. }
    destruct s as [|c [|c1 [|c2 r2]]].
    + cbn. split; lia.
    + rewrite scan_1. apply Hplain. cbn; lia.
    + rewrite scan_2. cbn [List.length] in Hn.
      destruct (char_eqb c1 ch_lbrace && negb (char_eqb c ch_f)) eqn:E.
      * learn_eqb. subst c1. change (scan [] prev) with (@nil char).
        split; [count_tac | intros; count_tac].
      * apply Hplain. cbn; lia.
    + rewrite scan_3. cbn [List.length] in Hn.
      destruct (IH r2 prev ltac:(lia)) as [A1 A2].
      destruct (IH (c2 :: r2) prev ltac:(cbn; lia)) as [B1 B2].
      destruct (char_eqb c2 ch_lbrace && (char_eqb c1 ch_f || char_eqb c1 ch_o_sign)) eqn:E1;
        [|destruct (char_eqb c1 ch_lbrace && negb (char_eqb c ch_f)) eqn:E2];
        learn_eqb; subst.
      * split.
        -- revert A1. count_tac.
        -- intros Hx Hp. specialize (A2 Hx Hp). revert A2. count_tac.
      * split.
        -- revert B1. count_tac.
        -- intros Hx Hp. specialize (B2 Hx Hp). revert B2. count_tac.
      * apply Hplain. cbn; lia.
Qed.

Lemma markers_attached_step (c : char) (r prev : str) :
  markers_attached (c :: r) = true ->
  scan (c :: r) prev = plain_step c prev (scan r [ch_l]) (scan r []).
Proof.
  intros H. cbn [markers_attached] in H.
  apply andb_true_iff in H as [H Hr]. apply andb_true_iff in H as [_ _].
  destruct r as [|c1 [|c2 r2]].
  - apply scan_1.
  - rewrite scan_2. cbn [markers_attached] in Hr.
    apply andb_true_iff in Hr as [Hr _]. apply andb_true_iff in Hr as [Hb _].
    apply negb_true_iff in Hb. now rewrite Hb.
  - rewrite scan_3. cbn [markers_attached] in Hr.
    apply andb_true_iff in Hr as [Hr Hr2]. apply andb_true_iff in Hr as [Hb1 _].
    apply andb_true_iff in Hr2 as [Hr2 _]. apply andb_true_iff in Hr2 as [Hb2 _].
    apply negb_true_iff in Hb1, Hb2. now rewrite Hb1, Hb2.
Qed.

Lemma markers_attached_tail (c : char) (r : str) :
  markers_attached (c :: r) = true -> markers_attached r = true.
Proof.
  cbn [markers_attached]. intros H. now apply andb_true_iff in H as [_ H].
Qed.

(** With every marker attached to a following character, the loop only
    moves each marker behind that character. *)
Lemma scan_permutation (s : str) :
  markers_attached s = true ->
  Permutation s (scan s []) /\
  (forall c r, s = c :: r -> c <> ch_l -> Permutation (ch_l :: s) (scan s [ch_l])).
Proof.
  induction s as [|c r IH]; intros H.
  - split; [constructor | discriminate].
  - pose proof (markers_attached_tail _ _ H) as Hr.
    destruct (IH Hr) as [IH1 IH2].
    split.
    + rewrite markers_attached_step by assumption. unfold plain_step.
      destruct (char_eqb c ch_l) eqn:E.
      * apply char_eqb_eq in E. subst c.
        cbn [markers_attached] in H. change (char_eqb ch_l ch_l) with true in H.
        destruct r as [|c1 r1]; [rewrite andb_false_r in H; discriminate|].
        apply andb_true_iff in H as [H _]. apply andb_true_iff in H as [_ H].
        apply negb_true_iff, char_eqb_neq in H.
        now apply (IH2 c1 r1).
      * cbn [app]. now constructor.
    + intros c' r' E Hc. injection E as <- <-.
      rewrite markers_attached_step by assumption. unfold plain_step.
      apply char_eqb_neq in Hc. rewrite Hc. cbn [app].
      eapply perm_trans; [apply perm_swap|]. now do 2 constructor.
Qed.

Lemma plain_chars_1 (c : char) : plain_chars [c] = [c].
Proof. reflexivity. Qed.

Lemma plain_chars_2 (c c1 : char) :
  plain_chars [c; c1] =
  if char_eqb c1 ch_lbrace && negb (char_eqb c ch_f)
  then []
  else c :: plain_chars [c1].
Proof. reflexivity. Qed.

Lemma plain_chars_3 (c c1 c2 : char) (r2 : str) :
  plain_chars (c :: c1 :: c2 :: r2) =
  if char_eqb c2 ch_lbrace && (char_eqb c1 ch_f || char_eqb c1 ch_o_sign)
  then plain_chars r2
  else if char_eqb c1 ch_lbrace && negb (char_eqb c ch_f)
       then plain_chars (c2 :: r2)
       else c :: plain_chars (c1 :: c2 :: r2).
Proof. reflexivity. Qed.

Lemma lost_markers_cons (c : char) (p : str) :
  lost_markers (c :: p) =
  ((if char_eqb c ch_l
    then match p with
         | c1 :: _ => if char_eqb c1 ch_l then 1 else 0
         | [] => 1
         end
    else 0) + lost_markers p)%nat.
Proof. reflexivity. Qed.

(** The markers written and the markers lost are the markers read, the
    pending one included. *)
Lemma scan_marker_count (n : nat) :
  forall (s prev : str),
    (List.length s <= n)%nat ->
    prev = [] \/ prev = [ch_l] ->
    (count (scan s prev) ch_l + lost_markers (prev ++ plain_chars s)
     = count s ch_l + count prev ch_l)%nat.
Proof.
  induction n as [|n IH]; intros s prev Hn Hprev.
  - destruct s; [|cbn in Hn; lia].
    destruct Hprev as [-> | ->]; reflexivity.
  - assert (Hplain : forall c r,
               (List.length r <= n)%nat ->
               (count (plain_step c prev (scan r [ch_l]) (scan r [])) ch_l
                + lost_markers (prev ++ c :: plain_chars r)
                = count (c :: r) ch_l + count prev ch_l)%nat).
    { intros c r Hr. unfold plain_step.
      pose proof (IH r [ch_l] Hr (or_intror eq_refl)) as A.
      pose proof (IH r [] Hr (or_introl eq_refl)) as B.
      cbn [app] in A, B.
      destruct (char_eqb c ch_l) eqn:E.
      - apply char_eqb_eq in E. subst c.
        destruct Hprev as [-> | ->]; cbn [app].
        + revert A. count_tac.
        + rewrite (lost_markers_cons ch_l (ch_l :: plain_chars r)).
          rewrite !char_eqb_refl. revert A. count_tac.
      - destruct Hprev as [-> | ->]; cbn [app].
        + rewrite lost_markers_cons, E. revert B. count_tac.
        + rewrite (lost_markers_cons ch_l (c :: plain_chars r)).
          rewrite char_eqb_refl, E.
          rewrite lost_markers_cons, E. revert B. count_tac. }
    destruct s as [|c [|c1 [|c2 r2]]].
    + destruct Hprev as [-> | ->]; reflexivity.
    + rewrite scan_1, plain_chars_1.
      change [c] with (c :: plain_chars []). apply Hplain. cbn; lia.
    + rewrite scan_2, plain_chars_2. cbn [List.length] in Hn.
      destruct (char_eqb c1 ch_lbrace && negb (char_eqb c ch_f)) eqn:E.
      * learn_eqb. subst c1. change (scan [] prev) with (@nil char).
        destruct Hprev as [-> | ->]; cbn [app lost_markers];
          rewrite ?char_eqb_refl; count_tac.
      * apply Hplain. cbn; lia.
    + rewrite scan_3, plain_chars_3. cbn [List.length] in Hn.
      pose proof (IH r2 prev ltac:(lia) Hprev) as A.
      pose proof (IH (c2 :: r2) prev ltac:(cbn; lia) Hprev) as B.
      destruct (char_eqb c2 ch_lbrace && (char_eqb c1 ch_f || char_eqb c1 ch_o_sign)) eqn:E1;
        [|destruct (char_eqb c1 ch_lbrace && negb (char_eqb c ch_f)) eqn:E2];
        learn_eqb; subst.
      * revert A. count_tac.
      * revert B. count_tac.
      * apply Hplain. cbn; lia.
Qed.

(** The text is the output together with the lost markers, in another
    order. *)
Lemma scan_accounts (s : str) :
  Permutation s (scan s [] ++ repeat ch_l (lost_markers (plain_chars s))).
Proof.
  apply (Permutation_count_occ N.eq_dec). intros x.
  rewrite count_occ_app.
  destruct (N.eq_dec x ch_l) as [-> | Hx].
  - rewrite count_occ_repeat_eq by reflexivity.
    pose proof (scan_marker_count _ s [] (le_n _) (or_introl eq_refl)) as H.
    cbn [app count_occ] in H. unfold char in *. lia.
  - rewrite count_occ_repeat_neq by congruence.
    destruct (scan_count x _ s [] (le_n _)) as [_ H].
    specialize (H Hx eq_refl). unfold char in *. lia.
Qed.

(** Without a stacking marker '{' no combination takes a character. *)
Lemma plain_chars_no_lbrace (s : str) :
  count s ch_lbrace = 0%nat -> plain_chars s = s.
Proof.
  induction s as [|c r IH]; intros H; [reflexivity|].
  assert (Hr : count r ch_lbrace = 0%nat) by (revert H; count_tac).
  specialize (IH Hr).
  destruct r as [|c1 [|c2 r2]].
  - reflexivity.
  - rewrite plain_chars_2.
    replace (char_eqb c1 ch_lbrace) with false; [now rewrite IH|].
    symmetry. apply char_eqb_neq. intros ->. revert Hr. count_tac.
  - rewrite plain_chars_3.
    replace (char_eqb c1 ch_lbrace) with false.
    + replace (char_eqb c2 ch_lbrace) with false; [now rewrite IH|].
      symmetry. apply char_eqb_neq. intros ->. revert Hr. count_tac.
    + symmetry. apply char_eqb_neq. intros ->. revert Hr. count_tac.
Qed.

(** C8, as the code has it.  On the text left by the literal
    replacements, [normalize_preeti] only rearranges characters and drops
    markers 'l': the text is a rearrangement of the output together with
    the lost markers.  Every character other than 'l' keeps its
    multiplicity.  The markers lost are counted by [lost_markers] on the
    characters that no combination with '{' takes ([plain_chars]; all of
    the text when it holds no '{'): a marker is lost exactly when the next
    of these characters is another marker, which takes its place in the
    pending slot, or when there is none, so that it is still pending at
    the end of the scan.  An 'l' that a combination with '{' takes is
    written like any other character.  When no stacking marker '{' occurs
    and every marker 'l' is immediately followed by a character other
    than 'l', the output is a rearrangement of that text, so every marker
    is kept. *)
Theorem normalize_preserves (text : str) :
  exists n,
    normalize_preeti text = Returned n /\
    Permutation (pre_substitute text)
      (n ++ repeat ch_l (lost_markers (plain_chars (pre_substitute text)))) /\
    (forall c, c <> ch_l -> count n c = count (pre_substitute text) c) /\
    (count n ch_l + lost_markers (plain_chars (pre_substitute text))
     = count (pre_substitute text) ch_l)%nat /\
    (count (pre_substitute text) ch_lbrace = 0%nat ->
     plain_chars (pre_substitute text) = pre_substitute text) /\
    (markers_attached (pre_substitute text) = true ->
     Permutation (pre_substitute text) n).
Proof.
  exists (scan (pre_substitute text) []).
  split; [apply normalize_preeti_scan|].
  split; [apply scan_accounts|].
  split; [|split; [|split]].
  - intros c Hc.
    destruct (scan_count c _ (pre_substitute text) [] (le_n _)) as [_ Hc'].
    now apply Hc'.
  - pose proof (scan_marker_count _ (pre_substitute text) [] (le_n _)
                  (or_introl eq_refl)) as H.
    cbn [app count_occ] in H. unfold char in *. lia.
  - apply plain_chars_no_lbrace.
  - intros H. now apply scan_permutation.
Qed.

Lemma normalize_preserves_witness :
  exists n,
    normalize_preeti (lit "lk]") = Returned n /\
    plain_chars (pre_substitute (lit "lk]")) = pre_substitute (lit "lk]") /\
    Permutation (pre_substitute (lit "lk]")) n.
Proof.
  destruct (normalize_preserves (lit "lk]")) as [n [Hn [_ [_ [_ [Hb Hp]]]]]].
  exists n. split; [exact Hn|]. split.
  - apply Hb. reflexivity.
  - apply Hp. reflexivity.
Defined.

(** A marker stays pending across a combination with '{' and is written
    behind the next character that the last branch handles; an 'l' taken
    by a combination is written as it is. *)
Lemma marker_pending_across_combination :
  normalize_preeti (lit "la{b") = Returned (lit "{abl") /\
  lost_markers (plain_chars (lit "la{b")) = 0%nat /\
  normalize_preeti (lit "lab{") = Returned (lit "al{b") /\
  lost_markers (plain_chars (lit "lab{")) = 0%nat /\
  normalize_preeti (lit "l{") = Returned (lit "{l") /\
  lost_markers (plain_chars (lit "l{")) = 0%nat /\
  lost_markers (plain_chars (lit "la{")) = 1%nat /\
  lost_markers (plain_chars (lit "lla")) = 1%nat.
Proof. repeat split; reflexivity. Qed.

(** C8, as stated, fails: in "lla" and in "la{" every marker 'l' is
    followed by a further character, and one marker is lost. *)
Lemma marker_lost :
  normalize_preeti (lit "lla") = Returned (lit "al") /\
  pre_substitute (lit "lla") = lit "lla" /\
  count (lit "lla") ch_l = 2%nat /\ count (lit "al") ch_l = 1%nat /\
  normalize_preeti (lit "la{") = Returned (lit "{a") /\
  pre_substitute (lit "la{") = lit "la{" /\
  count (lit "la{") ch_l = 1%nat /\ count (lit "{a") ch_l = 0%nat.
Proof. repeat split; reflexivity. Qed.

End Preservation.

(** ** The digits of the text *)

Section DigitsOfTheText.

Local Abbreviation count := (count_occ N.eq_dec).

Lemma startswith_prefix (s p : str) :
  startswith s p = true -> firstn (List.length p) s = p.
Proof.
  revert s; induction p as [|x p IH]; intros s H; [reflexivity|].
  destruct s as [|y s]; [discriminate|].
  cbn [startswith] in H. apply andb_true_iff in H as [Hx Hp].
  apply char_eqb_eq in Hx. subst y.
  cbn [List.length firstn]. now rewrite IH.
Qed.

(** [replace] writes no character that is neither in the text nor in
    [new]. *)
Lemma replace_from_count_le (old new : str) (x : char) :
  count new x = 0%nat ->
  forall (s : str) (skip : nat),
    (count (replace_from old new skip s) x <= count s x)%nat.
Proof.
  intros Hnew. induction s as [|c r IH]; intros skip; [cbn; lia|].
  cbn [replace_from]. destruct skip as [|k].
  - destruct (startswith (c :: r) old).
    + rewrite count_occ_app. specialize (IH (List.length old - 1)%nat).
      cbn [count_occ]. destruct (N.eq_dec c x); unfold char in *; lia.
    + specialize (IH 0%nat).
      cbn [count_occ]. destruct (N.eq_dec c x); unfold char in *; lia.
  - specialize (IH k).
    cbn [count_occ]. destruct (N.eq_dec c x); unfold char in *; lia.
Qed.

Lemma replace_count_le (s old new : str) (x : char) :
  old <> [] -> count new x = 0%nat ->
  (count (replace s old new) x <= count s x)%nat.
Proof.
  intros Hold Hnew. destruct old as [|o old']; [congruence|].
  unfold replace. now apply replace_from_count_le.
Qed.

(** A character that is neither in [old] nor in [new] keeps its
    multiplicity. *)
Lemma replace_from_count (old new : str) (x : char) :
  old <> [] -> count new x = 0%nat -> count old x = 0%nat ->
  forall (s : str) (skip : nat),
    count (firstn skip s) x = 0%nat ->
    count (replace_from old new skip s) x = count s x.
Proof.
  intros Hne Hnew Hold. induction s as [|c r IH]; intros skip Hskip; [reflexivity|].
  cbn [replace_from]. destruct skip as [|k].
  - destruct (startswith (c :: r) old) eqn:E.
    + destruct old as [|o old']; [congruence|].
      cbn [startswith] in E. apply andb_true_iff in E as [Eo E].
      apply char_eqb_eq in Eo. subst o.
      apply startswith_prefix in E.
      cbn [count_occ] in Hold. destruct (N.eq_dec c x) as [->|Hc]; [discriminate|].
      cbn [List.length]. rewrite Nat.sub_succ, Nat.sub_0_r.
      rewrite count_occ_app, IH by (now rewrite E).
      cbn [count_occ]. destruct (N.eq_dec c x); [congruence|].
      unfold char in *. lia.
    + cbn [count_occ]. rewrite (IH 0%nat) by reflexivity. reflexivity.
  - cbn [firstn count_occ] in Hskip.
    destruct (N.eq_dec c x) as [->|Hc]; [discriminate|].
    rewrite IH by assumption.
    cbn [count_occ]. destruct (N.eq_dec c x); [congruence|reflexivity].
Qed.

Lemma replace_count (s old new : str) (x : char) :
  old <> [] -> count new x = 0%nat -> count old x = 0%nat ->
  count (replace s old new) x = count s x.
Proof.
  intros Hne Hnew Hold. destruct old as [|o old'] eqn:Eold; [congruence|].
  unfold replace. rewrite <- Eold in *. now apply replace_from_count.
Qed.

(** A replacement whose [new] holds neither [a] nor [b] brings no [a]
    directly before a [b]. *)
Lemma contains_pair_app (a b : char) (x y : str) :
  ~ In a x -> contains (x ++ y) [a; b] = contains y [a; b].
Proof.
  induction x as [|h x IH]; intros Ha; [reflexivity|].
  cbn [app contains startswith].
  replace (char_eqb a h) with false.
  - cbn [andb orb]. apply IH. intros Hin. apply Ha. now right.
  - symmetry. apply char_eqb_neq. intros ->. apply Ha. now left.
Qed.

Lemma replace_from_keeps_absent (a b : char) (old new : str) :
  new <> [] -> ~ In a new -> ~ In b new ->
  forall (s : str) (skip : nat),
    contains s [a; b] = false ->
    contains (replace_from old new skip s) [a; b] = false.
Proof.
  intros Hne Ha Hb. induction s as [|c r IH]; intros skip H; [reflexivity|].
  cbn [contains] in H. apply orb_false_iff in H as [Hs Hr].
  cbn [replace_from]. destruct skip as [|k]; [|now apply IH].
  destruct (startswith (c :: r) old) eqn:E.
  - rewrite contains_pair_app by assumption. now apply IH.
  - cbn [contains]. rewrite (IH 0%nat Hr), orb_false_r.
    cbn [startswith]. destruct (char_eqb a c) eqn:Eac; [|reflexivity].
    cbn [andb].
    destruct r as [|c' r']; [reflexivity|].
    cbn [startswith] in Hs. rewrite Eac in Hs. cbn [andb] in Hs.
    cbn [replace_from]. destruct (startswith (c' :: r') old).
    + destruct new as [|n0 new']; [congruence|]. cbn [app startswith].
      replace (char_eqb b n0) with false; [reflexivity|].
      symmetry. apply char_eqb_neq. intros ->. apply Hb. now left.
    + cbn [startswith]. exact Hs.
Qed.

Lemma replace_keeps_absent (a b : char) (s old new : str) :
  old <> [] -> new <> [] -> ~ In a new -> ~ In b new ->
  contains s [a; b] = false ->
  contains (replace s old new) [a; b] = false.
Proof.
  intros Hold Hne Ha Hb H. destruct old as [|o old']; [congruence|].
  unfold replace. now apply replace_from_keeps_absent.
Qed.

Ltac digit_cases d Hd :=
  unfold is_ascii_digit in Hd;
  apply andb_true_iff in Hd as [?H1 ?H2];
  apply N.leb_le in H1, H2;
  assert (Hcases : (d = 48 \/ d = 49 \/ d = 50 \/ d = 51 \/ d = 52 \/
                    d = 53 \/ d = 54 \/ d = 55 \/ d = 56 \/ d = 57 \/ False)%N) by lia.

(** The literal replacements write no digit. *)
Lemma pre_substitute_count_le (t : str) (d : char) :
  is_ascii_digit d = true ->
  (count (pre_substitute t) d <= count t d)%nat.
Proof.
  intros Hd. digit_cases d Hd.
  unfold pre_substitute. cbv zeta.
  repeat (destruct Hcases as [-> | Hcases];
          [ repeat (etransitivity;
                    [apply replace_count_le; [discriminate | reflexivity]|]);
            apply le_n | ]).
  contradiction.
Qed.

(** Only '0' occurs in a replaced sequence: the other digits keep their
    multiplicity. *)
Lemma pre_substitute_count_digit (t : str) (d : char) :
  is_ascii_digit d = true -> d <> 48%N ->
  count (pre_substitute t) d = count t d.
Proof.
  intros Hd H0. digit_cases d Hd.
  unfold pre_substitute. cbv zeta.
  destruct Hcases as [-> | Hcases]; [congruence|].
  repeat (destruct Hcases as [-> | Hcases];
          [ repeat (rewrite replace_count; [ | discriminate | reflexivity | reflexivity ]);
            reflexivity | ]).
  contradiction.
Qed.

(** A '0' is taken only by the replacement of '0f'. *)
Lemma pre_substitute_count_zero (t : str) :
  contains t (lit "0f") = false ->
  count (pre_substitute t) 48%N = count t 48%N.
Proof.
  intros H. unfold pre_substitute. cbv zeta.
  assert (H3 : contains
                 (replace (replace (replace t (lit "qm") (lit "s|"))
                             (lit "f]") [2379%N])
                    (lit "km") [2347%N])
                 (lit "0f") = false).
  { repeat (apply replace_keeps_absent;
            [ discriminate | discriminate
            | cbn; intuition discriminate | cbn; intuition discriminate | ]).
    exact H. }
  rewrite (replace_not_contains _ (lit "0f")) by exact H3.
  repeat (rewrite replace_count; [ | discriminate | reflexivity | reflexivity ]).
  reflexivity.
Qed.

(** C2, as the code has it.  With [convert_numbers=False], [convert_text]
    is [convert_to_unicode], and an ASCII digit of the text is not kept:
    it is a Preeti code like the letters and the symbols.  The only
    digit that the literal replacements can take is a '0' that stands
    directly before an 'f': a digit from '1' to '9' occurs in the
    normalized text as often as in the text, and so does '0' when the
    text does not hold '0f'; no digit occurs there more often than in the
    text.  The output is one target per character of the normalized
    text, in its order; at the place of a digit stands the digit's entry
    of [unicode_0_to_9], which is never the digit.  So the output holds no
    ASCII digit.  With [convert_numbers=True] the numeral pass runs on
    that output and replaces each character by one character. *)
Theorem convert_text_digits (t : str) :
  convert_text t false = convert_to_unicode t /\
  (exists n u,
      normalize_preeti t = Returned n /\
      convert_to_unicode t = Returned u /\
      u = flat_map char_target n /\
      (forall a d b,
          n = a ++ d :: b -> is_ascii_digit d = true ->
          exists ua e ub,
            convert_loop [] a = Returned ua /\
            getitem unicode_0_to_9 (ord d - 48) = Returned e /\
            convert_loop [] b = Returned ub /\
            e <> [d] /\
            u = ua ++ e ++ ub) /\
      (forall d, is_ascii_digit d = true ->
                 (count n d <= count t d)%nat /\
                 (d <> 48%N \/ contains t (lit "0f") = false ->
                  count n d = count t d)) /\
      convert_text t true = Returned (flat_map numeral_of u) /\
      digit_free u = true) /\
  (forall d, is_ascii_digit d = true ->
             getitem unicode_0_to_9 (ord d - 48) = Returned (char_target d) /\
             char_target d <> [d]) /\
  (forall c, List.length (numeral_of c) = 1%nat).
Proof.
  split; [|split; [|split]].
  - now rewrite convert_text_closed, convert_to_unicode_closed.
  - exists (scan (pre_substitute t) []),
      (flat_map char_target (scan (pre_substitute t) [])).
    split; [apply normalize_preeti_scan|].
    split; [apply convert_to_unicode_closed|].
    split; [reflexivity|].
    split; [|split; [|split]].
    + intros a d b En Hd.
      destruct (digit_target d Hd) as [Hg Hne].
      exists (flat_map char_target a), (char_target d), (flat_map char_target b).
      rewrite !convert_loop_flat_map. cbn [app].
      split; [reflexivity|]. split; [exact Hg|]. split; [reflexivity|].
      split; [exact Hne|].
      rewrite En, flat_map_app. reflexivity.
    + intros d Hd.
      assert (Hl : d <> ch_l).
      { intros ->. discriminate Hd. }
      destruct (scan_count d _ (pre_substitute t) [] (le_n _)) as [_ Hkeep].
      specialize (Hkeep Hl eq_refl).
      split.
      * rewrite Hkeep. now apply pre_substitute_count_le.
      * intros [H0 | Hc].
        -- rewrite Hkeep. now apply pre_substitute_count_digit.
        -- destruct (N.eq_dec d 48%N) as [-> | H0].
           ++ rewrite Hkeep. now apply pre_substitute_count_zero.
           ++ rewrite Hkeep. now apply pre_substitute_count_digit.
    + now rewrite convert_text_closed.
    + apply flat_map_digit_free.
  - apply digit_target.
  - apply numeral_of_one.
Qed.

Lemma convert_text_digits_witness :
  exists n u,
    normalize_preeti (lit "k10") = Returned n /\
    convert_to_unicode (lit "k10") = Returned u /\
    count n 49%N = count (lit "k10") 49%N /\
    count n 48%N = count (lit "k10") 48%N /\
    exists ua e ub,
      convert_loop [] (lit "k") = Returned ua /\
      getitem unicode_0_to_9 (ord 49%N - 48) = Returned e /\
      convert_loop [] (lit "0") = Returned ub /\
      e <> [49%N] /\
      u = ua ++ e ++ ub.
Proof.
  destruct (convert_text_digits (lit "k10"))
    as [_ [[n [u (Hn & Hu & _ & Hplace & Hcount & _)]] _]].
  exists n, u. split; [exact Hn|]. split; [exact Hu|].
  split; [|split].
  - apply (Hcount 49%N eq_refl). left. discriminate.
  - apply (Hcount 48%N eq_refl). right. reflexivity.
  - apply (Hplace (lit "k") 49%N (lit "0")); [|reflexivity].
    rewrite normalize_preeti_scan in Hn. injection Hn as <-. reflexivity.
Defined.

(** The replacement of '0f' takes the digit: "0f" gives U+0923, and the
    entry of '0' in [unicode_0_to_9] is not written. *)
Lemma zero_before_f_replaced :
  pre_substitute (lit "0f") = [2339%N] /\
  convert_text (lit "0f") false = Returned [2339%N] /\
  char_target 48%N = [2339; 2381]%N.
Proof. repeat split; reflexivity. Qed.

(** C2, as stated, fails: the digit of "1" is not kept with
    [convert_numbers=False]; the output is U+091C U+094D U+091E. *)
Lemma digit_not_kept :
  convert_text (lit "1") false = Returned [2332; 2381; 2334]%N /\
  In 49%N (lit "1") /\
  ~ In 49%N [2332; 2381; 2334]%N.
Proof.
  split; [reflexivity|]. split; [now left|].
  cbn. intros [H|[H|[H|[]]]]; discriminate H.
Qed.

End DigitsOfTheText.

(** ** Rewriting in place and the resolver with a separate output *)

Section Refinement.

Import Fonts.

Variable re_match : str -> str -> Z -> outcome (option Z).

Lemma prefix_test (p rest : str) :
  (len p <=? len rest) && str_eqb (firstn (List.length p) rest) p
  = startswith rest p.
Proof.
  revert rest; induction p as [|x p IH]; intros rest.
  - cbn [firstn List.length str_eqb startswith].
    destruct rest; [reflexivity|].
    unfold len. cbn [List.length].
    destruct (Z.leb_spec (Z.of_nat 0) (Z.of_nat (S (List.length rest))));
      [reflexivity | lia].
  - destruct rest as [|y rest].
    + cbn [firstn str_eqb startswith]. apply andb_false_r.
    + cbn [firstn str_eqb startswith List.length].
      rewrite <- IH.
      replace (len (x :: p) <=? len (y :: rest)) with (len p <=? len rest).
      * replace (char_eqb y x) with (char_eqb x y) by apply N.eqb_sym.
        destruct (len p <=? len rest), (char_eqb x y),
          (str_eqb (firstn (List.length p) rest) p); reflexivity.
      * unfold len. cbn [List.length].
        destruct (Z.leb_spec (Z.of_nat (List.length p)) (Z.of_nat (List.length rest))),
          (Z.leb_spec (Z.of_nat (S (List.length p))) (Z.of_nat (S (List.length rest))));
          try reflexivity; lia.
Qed.

Lemma startswith_firstn (s p : str) (m : nat) :
  (List.length p <= m)%nat -> startswith (firstn m s) p = startswith s p.
Proof.
  revert s m; induction p as [|x p IH]; intros s m H; [reflexivity|].
  destruct m as [|m]; [cbn in H; lia|].
  destruct s as [|y s]; [reflexivity|].
  cbn [firstn startswith]. rewrite IH; [reflexivity | cbn in H; lia].
Qed.

Lemma startswith_firstn_min (s p : str) :
  startswith (firstn (Nat.min (List.length s) (List.length p)) s) p = startswith s p.
Proof.
  destruct (Nat.le_ge_cases (List.length p) (List.length s)) as [H|H].
  - apply startswith_firstn. lia.
  - rewrite Nat.min_l by assumption. now rewrite firstn_all.
Qed.

Lemma endswith_skipn (s p : str) :
  endswith (skipn (List.length s - List.length p) s) p = endswith s p.
Proof.
  unfold endswith. rewrite <- firstn_rev.
  apply startswith_firstn. rewrite length_rev. lia.
Qed.


Lemma skipn_len_app (out rest : str) (k : Z) :
  0 <= k ->
  skipn (Z.to_nat (len out + k)) (out ++ rest) = skipn (Z.to_nat k) rest.
Proof.
  intros Hk. unfold len.
  replace (Z.to_nat (Z.of_nat (List.length out) + k))
    with (List.length out + Z.to_nat k)%nat by lia.
  rewrite skipn_app, skipn_all2 by lia.
  replace (List.length out + Z.to_nat k - List.length out)%nat
    with (Z.to_nat k) by lia.
  reflexivity.
Qed.

(** The three tests of the [for] loop, read on the output written so far
    and the source still to be read. *)
Lemma source_test (rule : FontRule) (out rest : str) :
  (len out + len (source rule) <=? len (out ++ rest))
  && str_eqb (slice (out ++ rest) (len out) (len out + len (source rule)))
       (source rule)
  = startswith rest (source rule).
Proof.
  rewrite <- prefix_test. f_equal.
  - rewrite len_app.
    destruct (Z.leb_spec (len (source rule)) (len rest)),
      (Z.leb_spec (len out + len (source rule)) (len out + len rest));
      try reflexivity; lia.
  - unfold slice.
    replace (skipn (Z.to_nat (len out)) (out ++ rest)) with rest.
    + do 2 f_equal. unfold len. lia.
    + unfold len. rewrite Nat2Z.id, skipn_app, skipn_all, Nat.sub_diag.
      reflexivity.
Qed.

Lemma before_test (cb out rest : str) :
  endswith (slice (out ++ rest) (Z.max 0 (len out - len cb)) (len out)) cb
  = endswith out cb.
Proof.
  rewrite <- (endswith_skipn out cb). f_equal.
  unfold slice, len.
  replace (Z.to_nat (Z.max 0 (Z.of_nat (List.length out) - Z.of_nat (List.length cb))))
    with (List.length out - List.length cb)%nat by lia.
  rewrite skipn_app.
  replace (List.length out - List.length cb - List.length out)%nat with 0%nat by lia.
  cbn [skipn].
  match goal with
  | |- firstn ?n _ = _ =>
      replace n with (List.length (skipn (List.length out - List.length cb) out))
        by (rewrite length_skipn; lia)
  end.
  rewrite firstn_app, Nat.sub_diag, firstn_all. cbn [firstn]. apply app_nil_r.
Qed.

Lemma after_test (rule : FontRule) (ca out rest : str) :
  (List.length (source rule) <= List.length rest)%nat ->
  startswith
    (slice (out ++ rest) (len out + len (source rule))
       (Z.min (len (out ++ rest)) (len out + len (source rule) + len ca))) ca
  = startswith (skipn (List.length (source rule)) rest) ca.
Proof.
  intros Hle.
  rewrite <- (startswith_firstn_min (skipn (List.length (source rule)) rest) ca).
  f_equal. unfold slice.
  rewrite skipn_len_app by apply len_nonneg.
  replace (Z.to_nat (len (source rule))) with (List.length (source rule))
    by (unfold len; lia).
  f_equal. rewrite length_skipn, len_app. unfold len. lia.
Qed.

Lemma rule_fires_matches_at (rule : FontRule) (out src : str) (pos : Z) :
  0 <= pos ->
  rule_fires rule (out ++ skipn (Z.to_nat pos) src) (len out)
  = matches_at out src pos rule.
Proof.
  intros Hpos. unfold rule_fires, matches_at.
  set (rest := skipn (Z.to_nat pos) src).
  rewrite source_test.
  destruct (startswith rest (source rule)) eqn:Es; [|reflexivity].
  cbn [andb]. unfold matches_context.
  apply startswith_length in Es.
  apply (f_equal2 andb).
  - destruct (context_before rule) as [[|b cb]|]; try reflexivity.
    exact (before_test (b :: cb) out rest).
  - replace (skipn (Z.to_nat (pos + len (source rule))) src)
      with (skipn (List.length (source rule)) rest).
    + destruct (context_after rule) as [[|a ca]|]; try reflexivity.
      exact (after_test rule (a :: ca) out rest Es).
    + unfold rest. rewrite skipn_skipn. f_equal. unfold len. lia.
Qed.


Lemma apply_character (rule : FontRule) (out rest : str) :
  mapping_type rule = CHARACTER ->
  apply re_match rule (out ++ rest) (len out) =
  Returned (out ++ target rule ++ skipn (List.length (source rule)) rest,
            len out + len (target rule)).
Proof.
  intros H. unfold apply. rewrite H.
  rewrite skipn_len_app by apply len_nonneg.
  unfold slice, len at 1. cbn [Z.to_nat skipn].
  rewrite Z.sub_0_r, Nat2Z.id, firstn_app, Nat.sub_diag, firstn_all.
  cbn [firstn]. rewrite app_nil_r.
  replace (Z.to_nat (len (source rule))) with (List.length (source rule))
    by (unfold len; lia).
  reflexivity.
Qed.

Lemma try_rules_find (rules : list FontRule) (out src : str) (pos : Z) :
  character_rules rules -> 0 <= pos ->
  try_rules re_match rules (out ++ skipn (Z.to_nat pos) src) (len out) =
  Returned
    (option_map
       (fun rule =>
          (out ++ target rule ++
             skipn (List.length (source rule)) (skipn (Z.to_nat pos) src),
           len out + len (target rule)))
       (find (matches_at out src pos) rules)).
Proof.
  intros Hc Hpos. induction Hc as [|rule rules Hr Hc IH]; [reflexivity|].
  cbn [try_rules find]. rewrite rule_fires_matches_at by assumption.
  destruct (matches_at out src pos rule); [|exact IH].
  rewrite apply_character by assumption. reflexivity.
Qed.

(** The simulation: the text rewritten in place is the output followed by
    the source still to be read, and the position is the output's length. *)
Lemma convert_loop_resolve (rules : list FontRule) (src : str) :
  character_rules rules ->
  forall (fuel : nat) (pos : Z) (out : str),
    0 <= pos ->
    convert_loop re_match fuel rules (out ++ skipn (Z.to_nat pos) src) (len out)
    = resolve_with (fun _ _ output => output) fuel rules src pos out.
Proof.
  intros Hc. induction fuel as [|fuel IH]; intros pos out Hpos; [reflexivity|].
  cbn [convert_loop resolve_with].
  replace (len out <? len (out ++ skipn (Z.to_nat pos) src)) with (pos <? len src).
  2:{ rewrite len_app. unfold len at 4. rewrite length_skipn.
      destruct (Z.ltb_spec pos (len src)),
        (Z.ltb_spec (len out) (len out + Z.of_nat (List.length src - Z.to_nat pos)));
        try reflexivity; unfold len in *; lia. }
  destruct (pos <? len src) eqn:Elt; [|
    apply Z.ltb_ge in Elt;
    rewrite skipn_all2 by (unfold len in Elt; lia);
    now rewrite app_nil_r ].
  apply Z.ltb_lt in Elt.
  rewrite try_rules_find by assumption. cbn [bind].
  destruct (find (matches_at out src pos) rules) as [rule|]; cbn [option_map].
  - rewrite app_assoc, <- len_app, skipn_skipn.
    replace (List.length (source rule) + Z.to_nat pos)%nat
      with (Z.to_nat (pos + len (source rule))) by (unfold len; lia).
    apply IH. pose proof (len_nonneg (source rule)). lia.
  - destruct (skipn (Z.to_nat pos) src) as [|c rest] eqn:Es.
    + apply (f_equal (@List.length _)) in Es. rewrite length_skipn in Es.
      unfold len in Elt. cbn in Es. lia.
    + cbn [firstn].
      replace (out ++ c :: rest) with ((out ++ [c]) ++ rest)
        by now rewrite <- app_assoc.
      replace (len out + 1) with (len (out ++ [c])) by now rewrite len_app.
      rewrite <- (skipn_succ src pos c rest Hpos Es).
      apply IH. lia.
Qed.

Lemma matches_at_before (rule : FontRule) (b1 b2 src : str) (pos : Z) :
  context_before rule = None \/ context_before rule = Some [] ->
  matches_at b1 src pos rule = matches_at b2 src pos rule.
Proof.
  intros [H|H]; unfold matches_at; rewrite H; reflexivity.
Qed.

Lemma resolve_with_before (rules : list FontRule) (src : str)
    (view1 view2 : str -> Z -> str -> str) :
  no_context_before rules ->
  forall (fuel : nat) (pos : Z) (out : str),
    resolve_with view1 fuel rules src pos out
    = resolve_with view2 fuel rules src pos out.
Proof.
  intros Hn. induction fuel as [|fuel IH]; intros pos out; [reflexivity|].
  cbn [resolve_with].
  replace (find (matches_at (view1 src pos out) src pos) rules)
    with (find (matches_at (view2 src pos out) src pos) rules).
  - destruct (pos <? len src); [|reflexivity].
    destruct (find _ rules); apply IH.
  - clear IH. induction Hn as [|rule rules Hr Hn IHn]; [reflexivity|].
    cbn [find].
    rewrite (matches_at_before rule _ (view1 src pos out) src pos Hr).
    now rewrite IHn.
Qed.

(** C3, as the code has it.  For a mapping whose rules all have the
    [CHARACTER] type, [FontMapping.convert_text] computes what the
    resolver with a separate output computes: the first matching rule's
    target is appended to the output and the cursor advances by the
    rule's source length over the unmodified source, [context_after] is
    compared with the source after the matched span, and
    [context_before] is compared with the output written so far, not
    with the source before the cursor.  When no rule asks for a
    [context_before], this is the reference resolver. *)
Theorem convert_text_refines (fuel : nat) (mapping : FontMapping) (text : str) :
  character_rules (rules mapping) ->
  Fonts.convert_text re_match (S fuel) mapping text
    = resolve_on_output (S fuel) (rules mapping) text /\
  (no_context_before (rules mapping) ->
   Fonts.convert_text re_match (S fuel) mapping text
     = reference_resolve (S fuel) (rules mapping) text).
Proof.
  intros Hc.
  assert (E : Fonts.convert_text re_match (S fuel) mapping text
              = resolve_on_output (S fuel) (rules mapping) text).
  { unfold Fonts.convert_text, resolve_on_output.
    destruct text as [|c text]; [reflexivity|].
    exact (convert_loop_resolve (rules mapping) (c :: text) Hc (S fuel) 0 []
             (Z.le_refl 0)). }
  split; [exact E|].
  intros Hn. rewrite E. unfold resolve_on_output, reference_resolve.
  now apply resolve_with_before.
Qed.

End Refinement.

Section RefinementExamples.

Import Fonts.

Lemma convert_text_refines_witness :
  Fonts.convert_text re_no_match 3 after_a_mapping (lit "ab")
  = resolve_on_output 3 (rules after_a_mapping) (lit "ab").
Proof.
  apply (convert_text_refines re_no_match 2 after_a_mapping (lit "ab")).
  repeat constructor.
Defined.

(** C3, as stated, fails.  On "ab" the code has rewritten 'a' to 'X' when
    it reaches 'b', so the [context_before] "a" is compared with "X" and
    the second rule does not fire: the code returns "Xb", the reference
    resolver "XY".  A rule of another type than [CHARACTER] leaves the
    text as it is where the reference resolver writes its target. *)
Lemma context_before_sees_output :
  Fonts.convert_text re_no_match 3 after_a_mapping (lit "ab") = Returned (lit "Xb") /\
  reference_resolve 3 (rules after_a_mapping) (lit "ab") = Returned (lit "XY") /\
  Fonts.convert_text re_no_match 2 contextual_mapping (lit "a") = Returned (lit "a") /\
  reference_resolve 2 (rules contextual_mapping) (lit "a") = Returned (lit "X").
Proof. repeat split; reflexivity. Qed.

End RefinementExamples.

(** ** The order of the rules and the ligature rule *)

Section RuleOrder.

Import Fonts.

Variable re_match : str -> str -> Z -> outcome (option Z).

Lemma insert_rule_In (x y : FontRule) (l : list FontRule) :
  In y (insert_rule x l) <-> y = x \/ In y l.
Proof.
  induction l as [|a l IH]; cbn.
  - intuition congruence.
  - destruct (priority x <? priority a); cbn; rewrite ?IH; intuition congruence.
Qed.

Lemma insert_rule_sorted (x : FontRule) (l : list FontRule) :
  by_priority_desc l -> by_priority_desc (insert_rule x l).
Proof.
  unfold by_priority_desc.
  induction 1 as [|a l Hl IH Ha]; cbn.
  - repeat constructor.
  - destruct (Z.ltb_spec (priority x) (priority a)) as [Hlt|Hge].
    + constructor; [exact IH|].
      rewrite Forall_forall in *. intros y Hy.
      apply insert_rule_In in Hy as [-> | Hy]; [lia | now apply Ha].
    + constructor; [now constructor|].
      constructor; [exact Hge|].
      rewrite Forall_forall in *. intros y Hy. specialize (Ha y Hy). lia.
Qed.

Lemma sort_rules_sorted (l : list FontRule) : by_priority_desc (sort_rules l).
Proof.
  induction l as [|x l IH]; cbn.
  - constructor.
  - now apply insert_rule_sorted.
Qed.

Lemma insert_rule_perm (x : FontRule) (l : list FontRule) :
  Permutation (x :: l) (insert_rule x l).
Proof.
  induction l as [|a l IH]; cbn; [reflexivity|].
  destruct (priority x <? priority a); [|reflexivity].
  eapply perm_trans; [apply perm_swap|]. now constructor.
Qed.

Lemma sort_rules_perm (l : list FontRule) : Permutation l (sort_rules l).
Proof.
  induction l as [|x l IH]; cbn; [constructor|].
  eapply perm_trans; [|apply insert_rule_perm]. now constructor.
Qed.








Lemma str_eqb_refl (s : str) : str_eqb s s = true.
Proof. now apply str_eqb_eq. Qed.



End RuleOrder.

Section RuleOrderExamples.

Import Fonts.



End RuleOrderExamples.

(** ** Detection of the variant *)

Section Detection.

Import Variants.

Variable lower : str -> str.

Lemma detect_from_name_has (font_name : option str) :
  detect_from_name lower font_name =
  if name_has lower (lit "plus") font_name then Some (lit "preeti_plus")
  else if name_has lower (lit "kantipur") font_name then Some (lit "kantipur")
  else None.
Proof.
  unfold detect_from_name, name_has.
  destruct font_name as [[|c fn]|]; reflexivity.
Qed.

Lemma score_nil (patterns : list char) : score patterns [] = 0.
Proof.
  unfold score. induction patterns as [|c p IH]; [reflexivity | exact IH].
Qed.

Lemma score_nonneg (patterns : list char) (text : str) : 0 <= score patterns text.
Proof. apply len_nonneg. Qed.

Lemma detect_from_text_score (text : option str) :
  detect_from_text text =
  let plus_score := text_score patterns_preeti_plus text in
  let kantipur_score := text_score patterns_kantipur text in
  if (kantipur_score <? plus_score) && (0 <? plus_score)
  then Some (lit "preeti_plus")
  else if 0 <? kantipur_score then Some (lit "kantipur")
  else None.
Proof.
  unfold detect_from_text, text_score.
  destruct text as [[|c t]|]; try reflexivity.
Qed.

(** C4, as the code has it.  A font name that holds "plus" (in lower
    case) gives 'preeti_plus' whatever the text; one that holds
    "kantipur" and not "plus" gives 'kantipur'.  Otherwise the score of a
    variant is the number of its marker characters that occur in the
    text: the variant with the strictly higher score is returned, and
    'standard' when both scores are 0.  The result is always one of the
    three names, for every combination of absent, empty or given
    arguments. *)
Theorem detect_variant_cases (text font_name : option str) :
  let plus_score := text_score patterns_preeti_plus text in
  let kantipur_score := text_score patterns_kantipur text in
  (name_has lower (lit "plus") font_name = true ->
   detect_variant lower text font_name = lit "preeti_plus") /\
  (name_has lower (lit "plus") font_name = false ->
   name_has lower (lit "kantipur") font_name = true ->
   detect_variant lower text font_name = lit "kantipur") /\
  (name_has lower (lit "plus") font_name = false ->
   name_has lower (lit "kantipur") font_name = false ->
   (kantipur_score < plus_score ->
    detect_variant lower text font_name = lit "preeti_plus") /\
   (plus_score < kantipur_score ->
    detect_variant lower text font_name = lit "kantipur") /\
   (plus_score = 0 -> kantipur_score = 0 ->
    detect_variant lower text font_name = lit "standard")) /\
  (detect_variant lower text font_name = lit "standard" \/
   detect_variant lower text font_name = lit "preeti_plus" \/
   detect_variant lower text font_name = lit "kantipur").
Proof.
  intros plus_score kantipur_score.
  pose proof (score_nonneg patterns_preeti_plus) as Hp.
  pose proof (score_nonneg patterns_kantipur) as Hk.
  assert (Hp0 : 0 <= plus_score)
    by (unfold plus_score, text_score; destruct text; [apply Hp | lia]).
  assert (Hk0 : 0 <= kantipur_score)
    by (unfold kantipur_score, text_score; destruct text; [apply Hk | lia]).
  unfold detect_variant.
  rewrite detect_from_name_has, detect_from_text_score. cbv zeta.
  fold plus_score kantipur_score.
  destruct (name_has lower (lit "plus") font_name);
    [repeat split; try discriminate; auto|].
  destruct (name_has lower (lit "kantipur") font_name);
    [repeat split; try discriminate; auto|].
  destruct (Z.ltb_spec kantipur_score plus_score),
    (Z.ltb_spec 0 plus_score), (Z.ltb_spec 0 kantipur_score);
    cbn [andb]; repeat split; intros; try discriminate; auto; lia.
Qed.

End Detection.

Section DetectionExamples.

Import Variants.

Lemma detect_variant_cases_witness :
  detect_variant ascii_lower (Some [231%N; 107%N]) (Some (lit "Preeti"))
  = lit "preeti_plus".
Proof.
  destruct (detect_variant_cases ascii_lower (Some [231%N; 107%N])
              (Some (lit "Preeti"))) as [_ [_ [H _]]].
  destruct (H eq_refl eq_refl) as [Hplus _].
  apply Hplus. reflexivity.
Defined.

(** C4, as stated, fails.  The font name "Kantipur Plus" holds
    "kantipur" and yet gives 'preeti_plus', since "plus" is looked for
    first.  In a text with three occurrences of one Preeti Plus marker
    and one occurrence each of two Kantipur markers, the Preeti Plus
    markers occur more often, and the code returns 'kantipur': it counts
    the distinct markers present, 1 against 2. *)
Lemma kantipur_name_with_plus :
  name_has ascii_lower (lit "kantipur") (Some (lit "Kantipur Plus")) = true /\
  detect_variant ascii_lower None (Some (lit "Kantipur Plus")) = lit "preeti_plus" /\
  occurrences patterns_kantipur [231; 231; 231; 199; 201]%N
    < occurrences patterns_preeti_plus [231; 231; 231; 199; 201]%N /\
  detect_variant ascii_lower (Some [231; 231; 231; 199; 201]%N) None = lit "kantipur".
Proof. repeat split; reflexivity. Qed.

(** With the same positive score on both sides the code returns
    'kantipur'. *)
Lemma detect_variant_equal_scores :
  score patterns_preeti_plus [231; 199]%N = 1 /\
  score patterns_kantipur [231; 199]%N = 1 /\
  detect_variant ascii_lower (Some [231; 199]%N) None = lit "kantipur".
Proof. repeat split; reflexivity. Qed.

End DetectionExamples.

(** ** Registration of a font definition *)

Section Registration.

Import Fonts Registry.

(** [register_font] checks nothing: it returns for every definition. *)
Lemma register_font_returns (lower : str -> str) (self : FontRegistry)
    (font_definition : FontDefinition) :
  exists registry, register_font lower self font_definition = Returned registry.
Proof. unfold register_font. cbn [bind]. eauto. Qed.

(** C5 at the failing input.  The definition without name and without
    rules is rejected by the default validators, and by
    [register_font_from_dict], which runs them; [register_font] itself
    raises nothing and registers a mapping without rules under the empty
    name. *)
Theorem register_font_accepts_invalid :
  validate_basic_fields empty_definition =
    [ "Font name is required"%string; "Display name is required"%string;
      "At least one conversion rule is required"%string ] /\
  (exists errors,
      register_font_from_dict ascii_lower empty_registry [] []
      = Raised (ValidationError errors)) /\
  (exists registry,
      register_font ascii_lower empty_registry empty_definition = Returned registry /\
      registered_fonts registry = [ [] ] /\
      option_map rules (get_mapping (font_manager registry) []) = Some []).
Proof.
  split; [reflexivity|]. split.
  - eexists. reflexivity.
  - eexists. repeat split; reflexivity.
Qed.

End Registration.

(** * Further properties of the converter *)

Section ConverterMore.

Ltac lit_norm' :=
  repeat match goal with
         | |- context [lit ?s] =>
             let v := eval vm_compute in (lit s) in change (lit s) with v
         end.

(** The result of [convert_text], whatever the flag. *)
Lemma convert_text_flat (text : str) (convert_numbers : bool) :
  convert_text text convert_numbers =
  Returned (flat_map char_target (scan (pre_substitute text) [])).
Proof.
  rewrite convert_text_closed. cbv zeta.
  destruct convert_numbers; [|reflexivity].
  f_equal. apply flat_map_numeral_digit_free, flat_map_digit_free.
Qed.

(** X1. The flag [convert_numbers] does not change the result of
    [convert_text]: the resolver's output holds no ASCII digit for the
    numeral pass to replace. *)
Theorem convert_numbers_flag_irrelevant (text : str) :
  convert_text text true = convert_text text false.
Proof. now rewrite !convert_text_flat. Qed.

Lemma numeral_of_digit_free (c : char) : digit_free (numeral_of c) = true.
Proof.
  unfold numeral_of.
  destruct (dict_get_cases nepali_numerals c [c]) as [E | Hin].
  - rewrite E. destruct (is_ascii_digit c) eqn:Ed.
    + exfalso. unfold is_ascii_digit in Ed.
      apply andb_true_iff in Ed as [H1 H2]. apply N.leb_le in H1, H2.
      assert (Hcases : (c = 48 \/ c = 49 \/ c = 50 \/ c = 51 \/ c = 52 \/
                        c = 53 \/ c = 54 \/ c = 55 \/ c = 56 \/ c = 57 \/ False)%N)
        by lia.
      repeat (destruct Hcases as [-> | Hcases]; [discriminate E | ]).
      contradiction.
    + cbn. now rewrite Ed.
  - assert (Hall : forallb digit_free (List.map snd nepali_numerals) = true)
      by reflexivity.
    rewrite forallb_forall in Hall. now apply Hall.
Qed.

Lemma flat_map_numeral_length (text : str) :
  List.length (flat_map numeral_of text) = List.length text.
Proof.
  induction text as [|c r IH]; [reflexivity|].
  cbn [flat_map]. rewrite length_app, numeral_of_one, IH. reflexivity.
Qed.

Lemma flat_map_numeral_is_digit_free (text : str) :
  digit_free (flat_map numeral_of text) = true.
Proof.
  induction text as [|c r IH]; [reflexivity|].
  cbn [flat_map]. unfold digit_free in *. rewrite forallb_app, IH, andb_true_r.
  apply numeral_of_digit_free.
Qed.

(** X2. [convert_numbers_to_nepali] works character by character: it
    keeps the length, distributes over concatenation, leaves no ASCII
    digit, and applying it again changes nothing. *)
Theorem numeral_pass_properties (a b : str) :
  exists ra rb,
    convert_numbers_to_nepali a = Returned ra /\
    convert_numbers_to_nepali b = Returned rb /\
    convert_numbers_to_nepali (a ++ b) = Returned (ra ++ rb) /\
    List.length ra = List.length a /\
    digit_free ra = true /\
    convert_numbers_to_nepali ra = Returned ra.
Proof.
  exists (flat_map numeral_of a), (flat_map numeral_of b).
  rewrite !convert_numbers_closed.
  repeat split.
  - now rewrite flat_map_app.
  - apply flat_map_numeral_length.
  - apply flat_map_numeral_is_digit_free.
  - f_equal. apply flat_map_numeral_digit_free, flat_map_numeral_is_digit_free.
Qed.

Lemma replace_triple_no_match (a b x y z : char) (new : str) :
  char_eqb a x && char_eqb b y = false ->
  char_eqb a y && char_eqb b z = false ->
  replace [x; y; z] [a; b] new = [x; y; z].
Proof.
  intros H1 H2. unfold replace. cbn [replace_from startswith].
  rewrite !andb_true_r, H1, H2.
  destruct (char_eqb a z); reflexivity.
Qed.

(** X3. The marker 'l' written before a character is moved behind it:
    for every character [c] other than 'l' and '{', the text "l" [c] is
    normalized to [c] "l" and converted to the target of [c] followed by
    U+093F, the vowel sign I. *)
Theorem marker_moves_behind (c : char) (convert_numbers : bool) :
  c <> ch_l -> c <> ch_lbrace ->
  normalize_preeti [ch_l; c] = Returned [c; ch_l] /\
  convert_text [ch_l; c] convert_numbers = Returned (char_target c ++ [2367%N]).
Proof.
  intros Hl Hb.
  assert (Hpre : pre_substitute [ch_l; c] = [ch_l; c]).
  { unfold pre_substitute. cbv zeta. lit_norm'.
    repeat (rewrite replace_pair_no_match; [| reflexivity]). reflexivity. }
  assert (Hscan : scan [ch_l; c] [] = [c; ch_l]).
  { rewrite scan_2. apply char_eqb_neq in Hb. rewrite Hb. cbn [andb].
    unfold plain_step. change (char_eqb ch_l ch_l) with true. cbv iota.
    rewrite scan_1. unfold plain_step.
    apply char_eqb_neq in Hl. rewrite Hl. reflexivity. }
  split.
  - now rewrite normalize_preeti_scan, Hpre, Hscan.
  - rewrite convert_text_flat, Hpre, Hscan. cbn [flat_map].
    now rewrite app_nil_r.
Qed.

Lemma marker_moves_behind_witness :
  convert_text (lit "ls") true = Returned [2325; 2367]%N.
Proof.
  apply (marker_moves_behind 115%N true); discriminate.
Defined.

(** X4. The stacking marker '{' written after a character is moved in
    front of it: for every character [c] other than 'f', the text [c] "{"
    is normalized to "{" [c] and converted to U+0930 U+094D followed by
    the target of [c]; with the carrier 'f' in between, [c] "f{" is
    normalized to "{" [c] "f" unless [c] starts one of the literal
    sequences that end in 'f'. *)
Theorem stacking_marker_moves_front (c : char) (convert_numbers : bool) :
  c <> ch_f ->
  normalize_preeti [c; ch_lbrace] = Returned [ch_lbrace; c] /\
  convert_text [c; ch_lbrace] convert_numbers
    = Returned ([2352; 2381]%N ++ char_target c) /\
  (~ In c [48; 73; 105; 99]%N ->
   normalize_preeti [c; ch_f; ch_lbrace] = Returned [ch_lbrace; c; ch_f]).
Proof.
  intros Hf.
  assert (Hpre : pre_substitute [c; ch_lbrace] = [c; ch_lbrace]).
  { unfold pre_substitute. cbv zeta. lit_norm'.
    repeat (rewrite replace_pair_no_match; [| now rewrite andb_false_r]).
    reflexivity. }
  assert (Hscan : scan [c; ch_lbrace] [] = [ch_lbrace; c]).
  { rewrite scan_2. change (char_eqb ch_lbrace ch_lbrace) with true.
    apply char_eqb_neq in Hf. rewrite Hf. reflexivity. }
  split; [|split].
  - now rewrite normalize_preeti_scan, Hpre, Hscan.
  - rewrite convert_text_flat, Hpre, Hscan. cbn [flat_map].
    now rewrite app_nil_r.
  - intros Hc. rewrite normalize_preeti_scan.
    assert (Hne : forall k, In k [48; 73; 105; 99]%N -> char_eqb k c = false).
    { intros k Hk. apply char_eqb_neq. intros ->. now apply Hc. }
    assert (Hpre3 : pre_substitute [c; ch_f; ch_lbrace] = [c; ch_f; ch_lbrace]).
    { unfold pre_substitute. cbv zeta. lit_norm'.
      repeat (rewrite replace_triple_no_match;
              [ | first [ now rewrite andb_false_r
                        | rewrite Hne by (cbn; tauto); reflexivity ]
                | now rewrite andb_false_r ]).
      reflexivity. }
    rewrite Hpre3, scan_3.
    change (char_eqb ch_lbrace ch_lbrace) with true.
    change (char_eqb ch_f ch_f) with true. reflexivity.
Qed.

Lemma stacking_marker_moves_front_witness :
  convert_text (lit "s{") false = Returned [2352; 2381; 2325]%N /\
  normalize_preeti (lit "sf{") = Returned (lit "{sf").
Proof.
  destruct (stacking_marker_moves_front 115%N false) as [_ [H1 H2]];
    [discriminate|].
  split; [exact H1|]. apply H2.
  cbn. intros [H|[H|[H|[H|[]]]]]; discriminate H.
Defined.

Lemma scan_length (n : nat) :
  forall (s prev : str),
    (List.length s <= n)%nat ->
    (List.length (scan s prev) <= List.length s + List.length prev)%nat.
Proof.
  induction n as [|n IH]; intros s prev Hn.
  - destruct s; [cbn; lia | cbn in Hn; lia].
  - assert (Hplain : forall c r,
               (List.length r <= n)%nat ->
               (List.length (plain_step c prev (scan r [ch_l]) (scan r []))
                <= List.length (c :: r) + List.length prev)%nat).
    { intros c r Hr. unfold plain_step.
      pose proof (IH r [ch_l] Hr) as A. pose proof (IH r [] Hr) as B.
      destruct (char_eqb c ch_l).
      - cbn [List.length] in *. lia.
      - cbn [List.length] in *. rewrite length_app. lia. }
    destruct s as [|c [|c1 [|c2 r2]]].
    + cbn. lia.
    + rewrite scan_1. apply Hplain. cbn; lia.
    + rewrite scan_2. cbn [List.length] in Hn.
      destruct (char_eqb c1 ch_lbrace && negb (char_eqb c ch_f)).
      * change (scan [] prev) with (@nil char). cbn. lia.
      * apply Hplain. cbn; lia.
    + rewrite scan_3. cbn [List.length] in Hn.
      pose proof (IH r2 prev ltac:(lia)) as A.
      pose proof (IH (c2 :: r2) prev ltac:(cbn; lia)) as B.
      destruct (char_eqb c2 ch_lbrace && (char_eqb c1 ch_f || char_eqb c1 ch_o_sign));
        [|destruct (char_eqb c1 ch_lbrace && negb (char_eqb c ch_f))].
      * cbn [List.length] in *. lia.
      * cbn [List.length] in *. lia.
      * apply Hplain. cbn; lia.
Qed.

(** X5. [normalize_preeti] never returns more characters than the text
    left by the literal replacements, and it returns that text as it is
    when it holds neither the marker 'l' nor the stacking marker '{'. *)
Theorem normalize_length (text : str) :
  exists n,
    normalize_preeti text = Returned n /\
    (List.length n <= List.length (pre_substitute text))%nat /\
    (Forall (fun c => c <> ch_l /\ c <> ch_lbrace) (pre_substitute text) ->
     n = pre_substitute text).
Proof.
  exists (scan (pre_substitute text) []).
  split; [apply normalize_preeti_scan|]. split.
  - pose proof (scan_length _ (pre_substitute text) [] (le_n _)) as H.
    cbn [List.length] in H. lia.
  - apply scan_no_marker.
Qed.

Lemma normalize_length_witness :
  normalize_preeti (lit "cfkm") = Returned [2310; 2347]%N.
Proof.
  destruct (normalize_length (lit "cfkm")) as [n [Hn [_ H]]].
  rewrite Hn. f_equal. apply H.
  repeat constructor; discriminate.
Defined.

End ConverterMore.

(** * Further properties of the font mappings *)

Section MappingsMore.

Import Fonts Manager MappingFacts.

Variable re_match : str -> str -> Z -> outcome (option Z).

Lemma same_source_target_test (src tgt : str) (rule : FontRule) :
  str_eqb (source rule) src && str_eqb (target rule) tgt = true
  <-> same_source_target src tgt rule.
Proof.
  unfold same_source_target. now rewrite andb_true_iff, !str_eqb_eq.
Qed.

Lemma remove_first_some (src tgt : str) (rules rules' : list FontRule) :
  remove_first src tgt rules = Some rules' ->
  exists pre rule post,
    rules = pre ++ rule :: post /\ rules' = pre ++ post /\
    same_source_target src tgt rule /\
    Forall (fun x => ~ same_source_target src tgt x) pre.
Proof.
  revert rules'; induction rules as [|x rules IH]; intros rules' H; [discriminate|].
  cbn [remove_first] in H.
  destruct (str_eqb (source x) src && str_eqb (target x) tgt) eqn:E.
  - injection H as <-. exists [], x, rules.
    split; [reflexivity|]. split; [reflexivity|].
    split; [now apply same_source_target_test | constructor].
  - destruct (remove_first src tgt rules) as [l|]; [|discriminate].
    injection H as <-.
    destruct (IH l eq_refl) as (pre & rule & post & -> & -> & Hr & Hpre).
    exists (x :: pre), rule, post.
    split; [reflexivity|]. split; [reflexivity|]. split; [exact Hr|].
    constructor; [|exact Hpre].
    intros Hx. apply same_source_target_test in Hx. congruence.
Qed.

Lemma remove_first_none (src tgt : str) (rules : list FontRule) :
  remove_first src tgt rules = None ->
  Forall (fun x => ~ same_source_target src tgt x) rules.
Proof.
  induction rules as [|x rules IH]; intros H; [constructor|].
  cbn [remove_first] in H.
  destruct (str_eqb (source x) src && str_eqb (target x) tgt) eqn:E; [discriminate|].
  destruct (remove_first src tgt rules) as [l|]; [discriminate|].
  constructor; [|now apply IH].
  intros Hx. apply same_source_target_test in Hx. congruence.
Qed.

Lemma sorted_remove_middle (pre post : list FontRule) (rule : FontRule) :
  by_priority_desc (pre ++ rule :: post) -> by_priority_desc (pre ++ post).
Proof.
  unfold by_priority_desc. induction pre as [|x pre IH]; cbn [app]; intros H.
  - now inversion H.
  - inversion H as [|? ? Hs Hx]; subst. constructor; [now apply IH|].
    rewrite Forall_app in *. destruct Hx as [H1 H2].
    split; [exact H1 | now inversion H2].
Qed.

(** X6. [remove_rule] deletes exactly the first rule with the given
    source and target and answers [True], leaving the remaining rules in
    their order, still sorted by priority; when no rule has this source
    and target it answers [False] and the mapping is unchanged. *)
Theorem remove_rule_first_match (self : FontMapping) (src tgt : str) :
  by_priority_desc (rules self) ->
  (exists pre rule post,
      rules self = pre ++ rule :: post /\
      same_source_target src tgt rule /\
      Forall (fun x => ~ same_source_target src tgt x) pre /\
      snd (remove_rule self src tgt) = true /\
      rules (fst (remove_rule self src tgt)) = pre ++ post /\
      by_priority_desc (rules (fst (remove_rule self src tgt)))) \/
  (Forall (fun x => ~ same_source_target src tgt x) (rules self) /\
   remove_rule self src tgt = (self, false)).
Proof.
  intros Hs. unfold remove_rule.
  destruct (remove_first src tgt (rules self)) as [rules'|] eqn:E.
  - left. destruct (remove_first_some _ _ _ _ E)
      as (pre & rule & post & Hr & -> & Hm & Hpre).
    exists pre, rule, post. cbn [fst snd rules].
    split; [exact Hr|]. split; [exact Hm|]. split; [exact Hpre|].
    split; [reflexivity|]. split; [reflexivity|].
    rewrite Hr in Hs. now apply sorted_remove_middle in Hs.
  - right. split; [now apply remove_first_none | reflexivity].
Qed.

Lemma remove_rule_first_match_witness :
  rules (fst (remove_rule (c_then_cf 1 10) (lit "c") [2309%N])) = [rule_cf 10].
Proof.
  destruct (remove_rule_first_match (c_then_cf 1 10) (lit "c") [2309%N])
    as [(pre & rule & post & _ & _ & _ & _ & _ & _) | [_ H]].
  - repeat constructor; cbn; lia.
  - reflexivity.
  - discriminate H.
Defined.

Lemma sort_rules_snoc (rule : FontRule) (l : list FontRule) :
  by_priority_desc l -> sort_rules (l ++ [rule]) = place_rule rule l.
Proof.
  unfold by_priority_desc. induction 1 as [|x l Hl IH Hx]; [reflexivity|].
  cbn [app sort_rules fold_right place_rule]. fold (sort_rules (l ++ [rule])).
  rewrite IH. rewrite Forall_forall in Hx.
  destruct (Z.ltb_spec (priority x) (priority rule)) as [Hlt|Hge].
  - destruct l as [|y l'].
    + cbn. now replace (priority x <? priority rule) with true
        by (symmetry; apply Z.ltb_lt; lia).
    + cbn [place_rule].
      pose proof (Hx y (or_introl eq_refl)) as Hy.
      replace (priority y <? priority rule) with true
        by (symmetry; apply Z.ltb_lt; lia).
      cbn [insert_rule].
      replace (priority x <? priority rule) with true
        by (symmetry; apply Z.ltb_lt; lia).
      replace (priority x <? priority y) with false
        by (symmetry; apply Z.ltb_ge; lia).
      reflexivity.
  - destruct l as [|y l'].
    + cbn. now replace (priority x <? priority rule) with false
        by (symmetry; apply Z.ltb_ge; lia).
    + cbn [place_rule].
      pose proof (Hx y (or_introl eq_refl)) as Hy.
      destruct (priority y <? priority rule); cbn [insert_rule].
      * now replace (priority x <? priority rule) with false
          by (symmetry; apply Z.ltb_ge; lia).
      * now replace (priority x <? priority y) with false
          by (symmetry; apply Z.ltb_ge; lia).
Qed.

Lemma remove_first_place_rule (rule : FontRule) (l : list FontRule) :
  Forall (fun x => ~ same_source_target (source rule) (target rule) x) l ->
  remove_first (source rule) (target rule) (place_rule rule l) = Some l.
Proof.
  induction 1 as [|x l Hx Hl IH]; cbn [place_rule remove_first].
  - now rewrite !str_eqb_refl.
  - destruct (priority x <? priority rule).
    + cbn [remove_first]. now rewrite !str_eqb_refl.
    + cbn [remove_first].
      destruct (str_eqb (source x) (source rule) && str_eqb (target x) (target rule)) eqn:E.
      * apply same_source_target_test in E. contradiction.
      * now rewrite IH.
Qed.

(** X7. Adding a rule and removing it again gives the mapping back: when
    the rules are sorted by priority (as the constructor leaves them) and
    no rule of the mapping has the source and target of the new rule,
    [remove_rule] after [add_rule] answers [True] and restores the
    mapping, rule for rule. *)
Theorem add_then_remove_rule (self : FontMapping) (rule : FontRule) :
  by_priority_desc (rules self) ->
  Forall (fun x => ~ same_source_target (source rule) (target rule) x) (rules self) ->
  remove_rule (add_rule self rule) (source rule) (target rule) = (self, true).
Proof.
  intros Hs Hn. unfold remove_rule, add_rule. cbn [rules].
  rewrite sort_rules_snoc by assumption.
  rewrite remove_first_place_rule by assumption.
  now destruct self.
Qed.

Lemma add_then_remove_rule_witness :
  remove_rule (add_rule after_a_mapping (rule_cf 10)) (lit "cf") [2310%N]
  = (after_a_mapping, true).
Proof.
  apply (add_then_remove_rule after_a_mapping (rule_cf 10)).
  - repeat constructor; cbn; lia.
  - repeat constructor; intros [H _]; discriminate H.
Defined.

Lemma skipn_nonempty_lt {A : Type} (s : list A) (pos : Z) :
  0 <= pos ->
  (pos <? len s) = match skipn (Z.to_nat pos) s with [] => false | _ => true end.
Proof.
  intros Hpos.
  pose proof (in_range_skipn s pos 0 Hpos) as H. rewrite Z.add_0_r in H.
  rewrite H. now destruct (skipn (Z.to_nat pos) s).
Qed.

Lemma matches_at_source (before src : str) (pos : Z) (rule : FontRule) :
  matches_at before src pos rule = true ->
  startswith (skipn (Z.to_nat pos) src) (source rule) = true.
Proof.
  unfold matches_at. intros H.
  apply andb_true_iff in H as [H _]. now apply andb_true_iff in H as [H _].
Qed.

(** The resolver ends when every rule that can match reads at least one
    character. *)
Lemma resolve_with_returns (view : str -> Z -> str -> str)
    (rules : list FontRule) (src : str) :
  Forall (fun rule => source rule <> []) rules ->
  forall (fuel : nat) (pos : Z) (out : str),
    0 <= pos ->
    (List.length (skipn (Z.to_nat pos) src) < fuel)%nat ->
    exists result, resolve_with view fuel rules src pos out = Returned result.
Proof.
  intros Hne. induction fuel as [|fuel IH]; intros pos out Hpos Hfuel; [lia|].
  cbn [resolve_with]. rewrite skipn_nonempty_lt by assumption.
  destruct (skipn (Z.to_nat pos) src) as [|c rest] eqn:Es; [eauto|].
  destruct (find _ rules) as [rule|] eqn:Ef.
  - apply find_some in Ef as [Hin Hm].
    rewrite Forall_forall in Hne. specialize (Hne rule Hin).
    assert (Hl : 1 <= len (source rule)).
    { destruct (source rule); [congruence | unfold len; cbn; lia]. }
    apply IH; [lia|].
    replace (Z.to_nat (pos + len (source rule)))
      with ((Z.to_nat (len (source rule)) - 1) + (1 + Z.to_nat pos))%nat by lia.
    rewrite <- !skipn_skipn, Es. cbn [skipn].
    rewrite length_skipn. cbn [List.length] in Hfuel. lia.
  - apply IH; [lia|].
    rewrite (skipn_succ src pos c rest Hpos Es).
    cbn [List.length] in Hfuel. lia.
Qed.

(** X8. A mapping whose rules all have the [CHARACTER] type and a
    non-empty source converts every text within [len(text) + 1] tests of
    its loop condition: [FontMapping.convert_text] returns. *)
Theorem convert_text_returns (mapping : FontMapping) (text : str) :
  character_rules (rules mapping) ->
  Forall (fun rule => source rule <> []) (rules mapping) ->
  exists result,
    Fonts.convert_text re_match (S (List.length text)) mapping text
    = Returned result.
Proof.
  intros Hc Hne. unfold Fonts.convert_text.
  destruct text as [|c text]; [eauto|].
  pose proof (convert_loop_resolve re_match (rules mapping) (c :: text) Hc
                (S (List.length (c :: text))) 0 [] (Z.le_refl 0)) as E.
  change (convert_loop re_match (S (List.length (c :: text))) (rules mapping)
            (c :: text) 0 = 
          resolve_with (fun _ _ output => output) (S (List.length (c :: text)))
            (rules mapping) (c :: text) 0 []) in E.
  rewrite E.
  apply resolve_with_returns; [assumption | lia |].
  cbn [Z.to_nat skipn]. lia.
Qed.

Lemma rule_fires_empty_source (rule : FontRule) (result : str) (position : Z) :
  source rule = [] -> context_before rule = None -> context_after rule = None ->
  0 <= position <= len result ->
  rule_fires rule result position = true.
Proof.
  intros Hs Hb Ha Hpos. unfold rule_fires, matches_context.
  rewrite Hs, Hb, Ha. change (len (@nil char)) with 0.
  rewrite Z.add_0_r. unfold slice. rewrite Z.sub_diag. cbn [Z.to_nat firstn str_eqb].
  rewrite !andb_true_r. apply Z.leb_le. lia.
Qed.

Lemma convert_loop_empty_source (rule : FontRule) (rest : list FontRule) :
  source rule = [] -> mapping_type rule = CHARACTER ->
  context_before rule = None -> context_after rule = None ->
  forall (fuel : nat) (result : str) (position : Z),
    0 <= position < len result ->
    convert_loop re_match fuel (rule :: rest) result position = OutOfFuel.
Proof.
  intros Hs Ht Hb Ha. induction fuel as [|fuel IH]; intros result position Hpos;
    [reflexivity|].
  cbn [convert_loop try_rules].
  replace (position <? len result) with true by (symmetry; apply Z.ltb_lt; lia).
  rewrite rule_fires_empty_source by (try assumption; lia).
  unfold apply. rewrite Ht, Hs. cbn [bind].
  apply IH.
  change (len (@nil char)) with 0. rewrite Z.add_0_r.
  rewrite !len_app. unfold slice, len.
  rewrite length_firstn, length_skipn, length_skipn.
  cbn [Z.to_nat]. pose proof (len_nonneg (target rule)).
  unfold len in *. lia.
Qed.

(** X9. A rule with an empty source and no context fires at every
    position without moving the cursor towards the end of the text: when
    such a [CHARACTER] rule is the first of the mapping's rules,
    [FontMapping.convert_text] does not return for any non-empty text,
    however many turns its loop is given. *)
Theorem convert_text_empty_source_loops
    (mapping : FontMapping) (rule : FontRule) (rest : list FontRule)
    (text : str) (fuel : nat) :
  rules mapping = rule :: rest ->
  source rule = [] -> mapping_type rule = CHARACTER ->
  context_before rule = None -> context_after rule = None ->
  text <> [] ->
  Fonts.convert_text re_match fuel mapping text = OutOfFuel.
Proof.
  intros Hr Hs Ht Hb Ha Hne. unfold Fonts.convert_text.
  destruct text as [|c text]; [congruence|].
  rewrite Hr. apply convert_loop_empty_source; try assumption.
  unfold len. cbn [List.length]. lia.
Qed.

(** When the rule found at every position reads one character, the
    resolver maps the text character by character. *)
Lemma resolve_charwise (view : str -> Z -> str -> str)
    (rules : list FontRule) (g : char -> str) (src : str) :
  (forall pos c rest before,
      0 <= pos -> skipn (Z.to_nat pos) src = c :: rest ->
      match find (matches_at before src pos) rules with
      | Some rule => List.length (source rule) = 1%nat /\ target rule = g c
      | None => g c = [c]
      end) ->
  forall (fuel : nat) (pos : Z) (out : str),
    0 <= pos ->
    (List.length (skipn (Z.to_nat pos) src) < fuel)%nat ->
    resolve_with view fuel rules src pos out
    = Returned (out ++ flat_map g (skipn (Z.to_nat pos) src)).
Proof.
  intros Hstep. induction fuel as [|fuel IH]; intros pos out Hpos Hfuel; [lia|].
  cbn [resolve_with]. rewrite skipn_nonempty_lt by assumption.
  destruct (skipn (Z.to_nat pos) src) as [|c rest] eqn:Es.
  - cbn [flat_map]. now rewrite app_nil_r.
  - pose proof (Hstep pos c rest (view src pos out) Hpos Es) as H.
    pose proof (skipn_succ src pos c rest Hpos Es) as Hnext.
    cbn [List.length] in Hfuel. cbn [flat_map].
    destruct (find _ rules) as [rule|].
    + destruct H as [Hl Ht].
      replace (pos + len (source rule)) with (pos + 1) by (unfold len; lia).
      rewrite IH, Hnext, Ht; [now rewrite app_assoc | lia | rewrite Hnext; lia].
    + rewrite IH, Hnext, H; [now rewrite app_assoc | lia | rewrite Hnext; lia].
Qed.

Lemma matches_at_single_char (before src : str) (pos : Z) (c : char) (rest : str)
    (rule : FontRule) :
  skipn (Z.to_nat pos) src = c :: rest ->
  single_char_source rule -> context_free rule ->
  matches_at before src pos rule = str_eqb (source rule) [c].
Proof.
  intros Es [x Hx] [Hb Ha]. unfold matches_at. rewrite Es, Hx.
  cbn [startswith str_eqb].
  replace (match context_before rule with
           | Some cb => endswith before cb | None => true end) with true
    by (destruct Hb as [-> | ->]; reflexivity).
  replace (match context_after rule with
           | Some ca => startswith (skipn (Z.to_nat (pos + len [x])) src) ca
           | None => true end) with true
    by (destruct Ha as [-> | ->]; reflexivity).
  now rewrite !andb_true_r.
Qed.

Lemma find_ext_in {A : Type} (P Q : A -> bool) (l : list A) :
  (forall x, In x l -> P x = Q x) -> find P l = find Q l.
Proof.
  induction l as [|x l IH]; intros H; [reflexivity|].
  cbn [find]. rewrite (H x (or_introl eq_refl)).
  destruct (Q x); [reflexivity|]. apply IH. intros y Hy. apply H. now right.
Qed.

(** X10. A mapping of context-free [CHARACTER] rules with
    single-character sources converts a text character by character:
    each character is replaced by the target of the first rule for it in
    priority order, or kept when no rule has it as source. *)
Theorem convert_text_charwise (mapping : FontMapping) (text : str) :
  character_rules (rules mapping) ->
  Forall single_char_source (rules mapping) ->
  Forall context_free (rules mapping) ->
  Fonts.convert_text re_match (S (List.length text)) mapping text
  = Returned (flat_map (rule_target (rules mapping)) text).
Proof.
  intros Hc Hs Hf. unfold Fonts.convert_text.
  destruct text as [|c0 text]; [reflexivity|].
  pose proof (convert_loop_resolve re_match (rules mapping) (c0 :: text) Hc
                (S (List.length (c0 :: text))) 0 [] (Z.le_refl 0)) as E.
  change (convert_loop re_match (S (List.length (c0 :: text))) (rules mapping)
            (c0 :: text) 0 =
          resolve_with (fun _ _ output => output) (S (List.length (c0 :: text)))
            (rules mapping) (c0 :: text) 0 []) in E.
  rewrite E.
  rewrite (resolve_charwise _ (rules mapping) (rule_target (rules mapping)));
    [reflexivity | | lia | cbn [Z.to_nat skipn]; lia].
  intros pos c rest before Hpos Es. unfold rule_target.
  rewrite (find_ext_in (matches_at before (c0 :: text) pos)
             (fun rule => str_eqb (source rule) [c])).
  - destruct (find _ (rules mapping)) as [rule|] eqn:Ef; [|reflexivity].
    apply find_some in Ef as [Hin _].
    rewrite Forall_forall in Hs. destruct (Hs rule Hin) as [x Hx].
    now rewrite Hx.
  - intros rule Hin. rewrite Forall_forall in Hs, Hf.
    apply (matches_at_single_char before (c0 :: text) pos c rest);
      [exact Es | now apply Hs | now apply Hf].
Qed.

End MappingsMore.

Section MappingsExamples.

Import Fonts Manager MappingFacts.

Lemma convert_text_returns_witness :
  exists result,
    Fonts.convert_text re_no_match 3 after_a_mapping (lit "ab") = Returned result.
Proof.
  apply (convert_text_returns re_no_match after_a_mapping (lit "ab")).
  - repeat constructor.
  - repeat constructor; discriminate.
Defined.

Lemma convert_text_empty_source_loops_witness :
  Fonts.convert_text re_no_match 5
    (FontMapping_init (lit "demo") (lit "demo") (lit "unicode") CUSTOM
       [mkFontRule [] (lit "X") CHARACTER 0 None None] [] (lit "1.0.0"))
    (lit "ab")
  = OutOfFuel.
Proof.
  apply (convert_text_empty_source_loops re_no_match
           (FontMapping_init (lit "demo") (lit "demo") (lit "unicode") CUSTOM
              [mkFontRule [] (lit "X") CHARACTER 0 None None] [] (lit "1.0.0"))
           (mkFontRule [] (lit "X") CHARACTER 0 None None) [] (lit "ab") 5
           eq_refl eq_refl eq_refl eq_refl eq_refl).
  discriminate.
Defined.

Lemma convert_text_charwise_witness :
  Fonts.convert_text re_no_match 4
    (FontMapping_init (lit "demo") (lit "demo") (lit "unicode") CUSTOM
       [rule_c 1; mkFontRule (lit "c") (lit "Z") CHARACTER 5 None None]
       [] (lit "1.0.0"))
    (lit "c-c")
  = Returned (lit "Z-Z").
Proof.
  apply (convert_text_charwise re_no_match
           (FontMapping_init (lit "demo") (lit "demo") (lit "unicode") CUSTOM
              [rule_c 1; mkFontRule (lit "c") (lit "Z") CHARACTER 5 None None]
              [] (lit "1.0.0"))
           (lit "c-c")).
  - repeat constructor.
  - repeat constructor; eexists; reflexivity.
  - repeat constructor; now left.
Defined.

End MappingsExamples.

(** * The font detector *)

Section DetectorFacts.

Import Fonts Manager DetectionFacts.

Variable lower : str -> str.
Variable is_space : char -> bool.

Lemma startswith_app_prefix (s a b : str) :
  startswith s (a ++ b) = true -> startswith s a = true.
Proof.
  revert s; induction a as [|x a IH]; intros s H; [reflexivity|].
  destruct s as [|y s]; [discriminate|].
  cbn [app startswith] in *. apply andb_true_iff in H as [H1 H2].
  rewrite H1. now apply IH.
Qed.

Lemma contains_app_prefix (s a b : str) :
  contains s (a ++ b) = true -> contains s a = true.
Proof.
  induction s as [|y s IH]; cbn [contains]; intros H.
  - rewrite orb_false_r in *. now apply startswith_app_prefix in H.
  - apply orb_true_iff in H as [H|H].
    + apply startswith_app_prefix in H. now rewrite H.
    + rewrite (IH H). apply orb_true_r.
Qed.

Lemma search_spaced_contains (a b s : str) :
  search_spaced is_space a b s = true -> contains s a = true.
Proof.
  induction s as [|y s IH]; cbn [search_spaced contains]; intros H.
  - rewrite orb_false_r in *. now apply andb_true_iff in H as [H _].
  - apply orb_true_iff in H as [H|H].
    + apply andb_true_iff in H as [H _]. now rewrite H.
    + rewrite (IH H). apply orb_true_r.
Qed.

Lemma not_contains_no_search (a b s : str) :
  contains s a = false -> search_spaced is_space a b s = false.
Proof.
  intros H. destruct (search_spaced is_space a b s) eqn:E; [|reflexivity].
  apply search_spaced_contains in E. congruence.
Qed.

Lemma not_contains_longer (s a b : str) :
  contains s a = false -> contains s (a ++ b) = false.
Proof.
  intros H. destruct (contains s (a ++ b)) eqn:E; [|reflexivity].
  apply contains_app_prefix in E. congruence.
Qed.

(** The search through [_font_patterns], on the lower-cased name. *)
Lemma first_type_font_patterns (s : str) :
  first_type is_space font_patterns s =
  if contains s (lit "preeti") || contains s (lit "pcs") || contains s (lit "nepali")
  then Some PREETI
  else if contains s (lit "kantipur") then Some KANTIPUR
  else None.
Proof.
  unfold font_patterns. cbn [first_type existsb re_search].
  rewrite !orb_false_r, <- orb_assoc.
  destruct (contains s (lit "preeti")) eqn:E1; [reflexivity|].
  destruct (contains s (lit "pcs")) eqn:E2; [reflexivity|].
  cbn [orb].
  destruct (contains s (lit "nepali")) eqn:E3; [reflexivity|].
  rewrite (not_contains_no_search _ _ _ E1), (not_contains_no_search _ _ _ E2).
  change (lit "preeti+") with (lit "preeti" ++ lit "+").
  rewrite (not_contains_longer _ _ _ E1). cbn [orb].
  change (lit "kantipurnews") with (lit "kantipur" ++ lit "news").
  destruct (contains s (lit "kantipur")) eqn:E4; [reflexivity|].
  now rewrite (not_contains_longer _ _ _ E4).
Qed.

(** X11. [detect_font_from_name] answers [PREETI] when the lower-cased
    name holds "preeti", "pcs" or "nepali", else [KANTIPUR] when it holds
    "kantipur", else [None]; it never answers [PREETI_PLUS], whose
    patterns all hold "preeti" or "pcs" and are tried after those of
    [PREETI]. *)
Theorem detect_font_from_name_cases (font_name : str) :
  detect_font_from_name lower is_space font_name =
    match font_name with
    | [] => None
    | _ :: _ =>
        let s := lower font_name in
        if contains s (lit "preeti") || contains s (lit "pcs")
           || contains s (lit "nepali")
        then Some PREETI
        else if contains s (lit "kantipur") then Some KANTIPUR
        else None
    end /\
  detect_font_from_name lower is_space font_name <> Some PREETI_PLUS.
Proof.
  unfold detect_font_from_name.
  destruct font_name as [|c r]; [split; [reflexivity | discriminate]|].
  rewrite first_type_font_patterns. cbv zeta. split; [reflexivity|].
  destruct (_ || _ || _); [discriminate|].
  destruct (contains _ _); discriminate.
Qed.

(** X12. The detector's [is_preeti_font] accepts exactly the names that
    the converter's [is_preeti_font] accepts, and the names that hold
    "kantipur". *)
Theorem is_preeti_font_detector_vs_converter (font_name : option str) :
  Manager.is_preeti_font lower is_space font_name =
  FontName.is_preeti_font lower font_name
  || Variants.name_has lower (lit "kantipur") font_name.
Proof.
  unfold Manager.is_preeti_font, detect_font_from_name,
    FontName.is_preeti_font, Variants.name_has.
  destruct font_name as [[|c r]|]; try reflexivity.
  rewrite first_type_font_patterns.
  unfold FontName.preeti_indicators. cbn [existsb].
  rewrite orb_false_r, <- orb_assoc.
  destruct (contains _ (lit "preeti")); [reflexivity|].
  destruct (contains _ (lit "pcs")); [reflexivity|].
  destruct (contains _ (lit "nepali")); [reflexivity|].
  cbn [orb]. now destruct (contains _ (lit "kantipur")).
Qed.

End DetectorFacts.

Section TextDetection.

Import Fonts Manager DetectionFacts.

Lemma findall_class_total (cls : char -> bool) (text : str) :
  forall (current : str) (acc : Z),
    fold_left (fun n m => n + len m) (findall_class cls text current) acc
    = acc + len current + class_count cls text.
Proof.
  unfold class_count.
  induction text as [|c rest IH]; intros current acc; cbn [findall_class filter].
  - destruct current; cbn [fold_left]; unfold len; cbn [List.length]; lia.
  - destruct (cls c).
    + rewrite IH, len_app. unfold len. cbn [List.length]. lia.
    + rewrite fold_left_app, IH.
      destruct current; cbn [fold_left]; unfold len; cbn [List.length]; lia.
Qed.

Lemma type_score_two (cls1 cls2 : char -> bool) (text : str) :
  type_score [cls1; cls2] text = class_count cls1 text + class_count cls2 text.
Proof.
  unfold type_score. cbn [fold_left]. rewrite !findall_class_total.
  unfold len. cbn [List.length]. lia.
Qed.

(** X13. [detect_font_from_text] scores a font type by the number of
    characters of the text in its classes.  It answers [PREETI] when the
    Preeti score is positive and not below the Unicode score (a tie goes
    to [PREETI]), [UNICODE] when the Unicode score is the higher one, and
    [None] when no character of the text is in any class. *)
Theorem detect_font_from_text_cases (text : str) :
  detect_font_from_text text =
  if (0 <? preeti_count text) && (unicode_count text <=? preeti_count text)
  then Some PREETI
  else if 0 <? unicode_count text then Some UNICODE
  else None.
Proof.
  assert (Hp : 0 <= preeti_count text).
  { unfold preeti_count, class_count. pose proof (len_nonneg (filter class_alnum text)).
    pose proof (len_nonneg (filter class_symbol text)). lia. }
  assert (Hu : 0 <= unicode_count text).
  { unfold unicode_count, class_count.
    pose proof (len_nonneg (filter class_devanagari text)).
    pose proof (len_nonneg (filter class_last text)). lia. }
  destruct text as [|c r].
  - reflexivity.
  - unfold detect_font_from_text, character_patterns.
    cbn [List.map fst snd]. rewrite !type_score_two.
    fold (preeti_count (c :: r)) (unicode_count (c :: r)).
    cbn [filter snd].
    destruct (Z.ltb_spec 0 (preeti_count (c :: r))),
      (Z.ltb_spec 0 (unicode_count (c :: r)));
      cbn [andb]; unfold max_by_score; cbn [fold_left fst snd].
    + destruct (Z.ltb_spec (preeti_count (c :: r)) (unicode_count (c :: r))),
        (Z.leb_spec (unicode_count (c :: r)) (preeti_count (c :: r)));
        try reflexivity; lia.
    + destruct (Z.leb_spec (unicode_count (c :: r)) (preeti_count (c :: r)));
        [reflexivity | lia].
    + reflexivity.
    + reflexivity.
Qed.

End TextDetection.

(** * The font manager *)

Section ManagerStore.

Import Fonts Registry Manager.

Lemma find_dict_set_same (d : list (str * FontMapping)) (k : str) (v : FontMapping) :
  find (fun kv => str_eqb (fst kv) k) (dict_set d k v) = Some (k, v).
Proof.
  induction d as [|[k' v'] d IH]; cbn [dict_set find fst].
  - now rewrite str_eqb_refl.
  - destruct (str_eqb k' k) eqn:E; cbn [find fst].
    + now rewrite str_eqb_refl.
    + now rewrite E.
Qed.

Lemma find_dict_set_other (d : list (str * FontMapping)) (k n : str) (v : FontMapping) :
  n <> k ->
  find (fun kv => str_eqb (fst kv) n) (dict_set d k v)
  = find (fun kv => str_eqb (fst kv) n) d.
Proof.
  intros Hn.
  assert (Hk : str_eqb k n = false).
  { destruct (str_eqb k n) eqn:E; [|reflexivity].
    apply str_eqb_eq in E. congruence. }
  induction d as [|[k' v'] d IH]; cbn [dict_set find fst].
  - now rewrite Hk.
  - destruct (str_eqb k' k) eqn:E; cbn [find fst].
    + apply str_eqb_eq in E. subst k'. now rewrite Hk.
    + now rewrite IH.
Qed.

Lemma dict_set_keys (d : list (str * FontMapping)) (k : str) (v : FontMapping) :
  List.map fst (dict_set d k v) =
  if existsb (str_eqb k) (List.map fst d)
  then List.map fst d
  else List.map fst d ++ [k].
Proof.
  induction d as [|[k' v'] d IH]; cbn [dict_set List.map existsb fst app];
    [reflexivity|].
  destruct (str_eqb k' k) eqn:E.
  - apply str_eqb_eq in E. subst k'. now rewrite str_eqb_refl.
  - replace (str_eqb k k') with false.
    + cbn [List.map fst orb]. rewrite IH.
      now destruct (existsb (str_eqb k) (List.map fst d)).
    + symmetry. destruct (str_eqb k k') eqn:E'; [|reflexivity].
      apply str_eqb_eq in E'. subst. now rewrite str_eqb_refl in E.
Qed.

Lemma existsb_str_eqb_In (k : str) (l : list str) :
  existsb (str_eqb k) l = true <-> In k l.
Proof.
  rewrite existsb_exists. split.
  - intros [x [Hin E]]. apply str_eqb_eq in E. now subst.
  - intros Hin. exists k. split; [exact Hin | apply str_eqb_refl].
Qed.

(** X14. [register_mapping] followed by [get_mapping] under the mapping's
    name returns the mapping; the mappings under other names are
    untouched; the names stay free of duplicates, a name that was
    registered keeps its place in [list_mappings]; and a registration
    without [is_default] never replaces an existing default. *)
Theorem register_mapping_then_get (self : FontManager) (mapping : FontMapping)
    (is_default : bool) :
  let self' := register_mapping self mapping is_default in
  get_mapping self' (name mapping) = Some mapping /\
  (forall other, other <> name mapping ->
                 get_mapping self' other = get_mapping self other) /\
  In (name mapping) (list_mappings self') /\
  (In (name mapping) (list_mappings self) ->
   list_mappings self' = list_mappings self) /\
  (NoDup (list_mappings self) -> NoDup (list_mappings self')) /\
  (forall d, is_default = false -> default_mapping self = Some d ->
             default_mapping self' = Some d) /\
  default_mapping self' <> None.
Proof.
  cbv zeta. unfold register_mapping, get_mapping, list_mappings.
  cbn [mappings default_mapping].
  split; [now rewrite find_dict_set_same|].
  split; [intros other Ho; now rewrite find_dict_set_other|].
  rewrite dict_set_keys.
  destruct (existsb (str_eqb (name mapping)) (List.map fst (mappings self))) eqn:E.
  - apply existsb_str_eqb_In in E.
    split; [exact E|]. split; [reflexivity|]. split; [trivial|].
    split; [intros d -> ->; reflexivity|].
    destruct is_default; [discriminate|].
    destruct (default_mapping self); discriminate.
  - split; [apply in_or_app; right; now left|].
    split.
    { intros Hin. apply existsb_str_eqb_In in Hin. congruence. }
    split.
    { intros Hnd. apply NoDup_app; [exact Hnd | repeat constructor; intros [] | ].
      intros x Hx [<- | []]. apply existsb_str_eqb_In in Hx. congruence. }
    split; [intros d -> ->; reflexivity|].
    destruct is_default; [discriminate|].
    destruct (default_mapping self); discriminate.
Qed.

Lemma register_mapping_then_get_witness :
  get_mapping
    (register_mapping (register_mapping (mkFontManager [] None) after_a_mapping false)
       Builtin.standard_mapping false)
    (lit "demo")
  = Some after_a_mapping.
Proof.
  destruct (register_mapping_then_get
              (register_mapping (mkFontManager [] None) after_a_mapping false)
              Builtin.standard_mapping false) as [_ [H _]].
  rewrite (H (lit "demo")); [|discriminate].
  destruct (register_mapping_then_get (mkFontManager [] None) after_a_mapping false)
    as [H' _].
  exact H'.
Defined.

End ManagerStore.

(** * The built-in registry *)

Section BuiltinRegistry.

Import Fonts Registry Manager Builtin.

Variable re_match : str -> str -> Z -> outcome (option Z).

Lemma builtin_default :
  default_mapping (font_manager builtin_registry) = Some (lit "standard_preeti").
Proof. reflexivity. Qed.

Lemma builtin_get_standard :
  get_mapping (font_manager builtin_registry) (lit "standard_preeti")
  = Some standard_mapping.
Proof. reflexivity. Qed.

Lemma builtin_first_of_type (detected_type : FontType) :
  option_map (fun kv => name (snd kv))
    (find (fun kv => FontType_eqb (font_type (snd kv)) detected_type)
       (mappings (font_manager builtin_registry)))
  = match detected_type with
    | PREETI => Some (lit "standard_preeti")
    | _ => None
    end.
Proof. destruct detected_type; reflexivity. Qed.

(** X15. In the registry of the built-in fonts, [FontManager.convert_text]
    without a mapping name always converts with the standard mapping,
    with or without auto-detection: the three built-in mappings all carry
    the font type [PREETI], so detection finds the standard mapping
    first, and every other outcome falls back to the default, which is
    the standard mapping too. *)
Theorem builtin_convert_text_uses_standard (fuel : nat) (text : str)
    (auto_detect : bool) :
  Manager.convert_text re_match fuel (font_manager builtin_registry) text None
    auto_detect
  = Fonts.convert_text re_match fuel standard_mapping text /\
  Permutation (RegistryQueries.list_available_fonts builtin_registry)
    [lit "standard_preeti"; lit "preeti_plus"; lit "kantipur"] /\
  List.map (fun kv => font_type (snd kv)) (mappings (font_manager builtin_registry))
  = [PREETI; PREETI; PREETI].
Proof.
  split; [|split; [apply Permutation_refl | reflexivity]].
  unfold Manager.convert_text.
  destruct text as [|c r]; [reflexivity|].
  assert (E : forall chosen : option str,
             chosen = None \/ chosen = Some (lit "standard_preeti") ->
             get_mapping_opt (font_manager builtin_registry)
               (match chosen with
                | None => default_mapping (font_manager builtin_registry)
                | n => n
                end)
             = Some standard_mapping).
  { intros chosen [-> | ->]; unfold get_mapping_opt;
      rewrite ?builtin_default; exact builtin_get_standard. }
  rewrite E; [reflexivity|].
  destruct auto_detect; [|now left].
  destruct (detect_font_from_text (c :: r)) as [t|]; [|now left].
  rewrite builtin_first_of_type. destruct t; auto.
Qed.

End BuiltinRegistry.

(** * Validation and registration of font definitions *)

Section RegistrationMore.

Import Fonts Registry RegistryQueries RegistrationFacts.

Variable lower : str -> str.

Lemma validate_rules_from_nil (rules : list MappingRule) :
  forall i, validate_rules_from i rules = [] <-> Forall rule_complete rules.
Proof.
  induction rules as [|rule rules IH]; intros i; cbn [validate_rules_from].
  - split; [constructor | reflexivity].
  - split.
    + intros H. apply app_eq_nil in H as [H1 H]. apply app_eq_nil in H as [H2 H3].
      constructor; [|now apply (IH (S i))].
      split; intros E; rewrite E in *; discriminate.
    + intros H. inversion H as [|? ? [H1 H2] Hr]; subst.
      destruct (from_char rule); [congruence|].
      destruct (to_char rule); [congruence|].
      cbn [app]. now apply IH.
Qed.

Lemma validate_basic_fields_nil (definition : FontDefinition) :
  validate_basic_fields definition = [] <->
  def_name definition <> [] /\ display_name definition <> [] /\
  def_rules definition <> [].
Proof.
  unfold validate_basic_fields.
  destruct (def_name definition), (display_name definition), (def_rules definition);
    cbn; split; try discriminate; try (intros [? [? ?]]; congruence).
  intros _. repeat split; discriminate.
Qed.

(** X16. The default validators accept a definition, that is
    [validate_definition] returns no message, exactly when its name and
    display name are not empty, it has at least one rule, and every rule
    has a non-empty source and a non-empty target. *)
Theorem validate_definition_accepts (definition : FontDefinition) :
  validate_definition definition = [] <->
  def_name definition <> [] /\ display_name definition <> [] /\
  def_rules definition <> [] /\ Forall rule_complete (def_rules definition).
Proof.
  unfold validate_definition, validate_rules. split.
  - intros H. apply app_eq_nil in H as [H1 H2].
    apply validate_basic_fields_nil in H1 as (A & B & C).
    apply validate_rules_from_nil in H2. tauto.
  - intros (A & B & C & D).
    rewrite (proj2 (validate_basic_fields_nil definition)) by tauto.
    now apply validate_rules_from_nil.
Qed.

Lemma sort_rules_sorted_id (l : list FontRule) :
  by_priority_desc l -> sort_rules l = l.
Proof.
  unfold by_priority_desc. induction 1 as [|x l Hl IH Hx]; [reflexivity|].
  cbn [sort_rules fold_right]. fold (sort_rules l). rewrite IH.
  destruct l as [|y l']; [reflexivity|].
  cbn [insert_rule]. inversion Hx as [|? ? Hy _]; subst.
  now replace (priority x <? priority y) with false
    by (symmetry; apply Z.ltb_ge; lia).
Qed.

Lemma equal_priority_sorted (l : list FontRule) (p : Z) :
  Forall (fun rule => priority rule = p) l -> by_priority_desc l.
Proof.
  unfold by_priority_desc. induction 1 as [|x l Hx Hl IH]; constructor; [exact IH|].
  eapply Forall_impl; [|exact Hl]. cbn. intros y Hy. lia.
Qed.

Lemma set_add_In (s : list str) (x : str) : In x (set_add s x).
Proof.
  unfold set_add. destruct (existsb (str_eqb x) s) eqn:E.
  - now apply existsb_str_eqb_In.
  - apply in_or_app. right. now left.
Qed.

Lemma set_add_NoDup (s : list str) (x : str) : NoDup s -> NoDup (set_add s x).
Proof.
  intros H. unfold set_add. destruct (existsb (str_eqb x) s) eqn:E; [exact H|].
  apply NoDup_app; [exact H | repeat constructor; intros [] |].
  intros y Hy [<- | []]. apply existsb_str_eqb_In in Hy. congruence.
Qed.

(** X17. [register_font_from_dict] registers the font exactly when the
    name is not empty, the dictionary is not empty and no key or value is
    empty: the mapping found under the name then has one [CHARACTER] rule
    of priority 0 per entry, in the order of the dictionary.  Otherwise
    it raises the [ValidationError] of the loader, with at least one
    message, and never a [ConfigurationError]. *)
Theorem register_font_from_dict_cases (self : FontRegistry) (name : str)
    (mapping_dict : list (str * str)) :
  (name <> [] -> mapping_dict <> [] -> Forall entry_complete mapping_dict ->
   exists registry,
     register_font_from_dict lower self name mapping_dict = Returned registry /\
     In name (list_available_fonts registry) /\
     option_map rules (get_font_mapping registry name)
     = Some (List.map entry_rule mapping_dict)) /\
  (~ (name <> [] /\ mapping_dict <> [] /\ Forall entry_complete mapping_dict) ->
   exists errors,
     errors <> [] /\
     register_font_from_dict lower self name mapping_dict
     = Raised (ValidationError errors)).
Proof.
  set (definition :=
         mkFontDefinition name name (lit "custom") [] (lit "1.0.0") [] []
           (lit "unicode") SIMPLE
           (List.map (fun kv => mkMappingRule (fst kv) (snd kv) 0 None None None)
              mapping_dict) []).
  assert (Hvalid : validate_definition definition = [] <->
                   name <> [] /\ mapping_dict <> [] /\
                   Forall entry_complete mapping_dict).
  { unfold validate_definition, validate_rules.
    split.
    - intros H. apply app_eq_nil in H as [H1 H2].
      apply validate_basic_fields_nil in H1 as (A & _ & C).
      apply validate_rules_from_nil in H2. cbn [def_name def_rules definition] in *.
      split; [exact A|]. split; [intros ->; now apply C|].
      rewrite Forall_map in H2. exact H2.
    - intros (A & B & C).
      rewrite (proj2 (validate_basic_fields_nil definition)).
      + apply validate_rules_from_nil. cbn [def_rules definition].
        rewrite Forall_map. exact C.
      + cbn [def_name display_name def_rules definition].
        repeat split; try assumption.
        destruct mapping_dict; [congruence | discriminate]. }
  split.
  - intros A B C.
    unfold register_font_from_dict, create_from_mapping_dict.
    fold definition. rewrite (proj2 Hvalid) by tauto. cbn [bind].
    unfold register_font. cbn [bind].
    eexists. split; [reflexivity|]. split.
    + cbn [list_available_fonts registered_fonts]. apply set_add_In.
    + unfold get_font_mapping, get_mapping, register_mapping.
      cbn [font_manager mappings]. rewrite find_dict_set_same.
      cbn [option_map snd]. unfold to_font_mapping, FontMapping_init.
      cbn [rules def_rules definition]. f_equal.
      rewrite map_map. apply sort_rules_sorted_id.
      apply (equal_priority_sorted _ 0). rewrite Forall_map.
      now apply Forall_forall.
  - intros Hn.
    unfold register_font_from_dict, create_from_mapping_dict.
    fold definition.
    destruct (validate_definition definition) as [|e errors] eqn:E.
    + exfalso. apply Hn. now apply Hvalid.
    + exists (e :: errors). split; [discriminate | reflexivity].
Qed.

End RegistrationMore.

Section RegistrationExamples.

Import Fonts Registry RegistryQueries RegistrationFacts.

Lemma register_font_from_dict_cases_witness :
  exists registry,
    register_font_from_dict ascii_lower empty_registry (lit "mine")
      [(lit "a", lit "X"); (lit "b", lit "Y")] = Returned registry /\
    option_map rules (get_font_mapping registry (lit "mine"))
    = Some [entry_rule (lit "a", lit "X"); entry_rule (lit "b", lit "Y")].
Proof.
  destruct (register_font_from_dict_cases ascii_lower empty_registry (lit "mine")
              [(lit "a", lit "X"); (lit "b", lit "Y")]) as [H _].
  destruct H as [registry [H1 [_ H2]]].
  - discriminate.
  - discriminate.
  - repeat constructor; discriminate.
  - exists registry. split; assumption.
Defined.

End RegistrationExamples.

(** * Registering and unregistering *)

Section Unregistration.

Import Fonts Registry RegistryQueries.

Variable lower : str -> str.

Lemma filter_not_In (s : list str) (x : str) :
  ~ In x (filter (fun n => negb (str_eqb n x)) s).
Proof.
  intros H. apply filter_In in H as [_ H].
  now rewrite str_eqb_refl in H.
Qed.

(** X18. After [register_font], the mapping built from the definition is
    found under the definition's name and the name is listed, the set of
    listed names staying free of duplicates.  [unregister_font] then
    answers [True] and takes the name off the list, but leaves the font
    manager alone: [get_font_mapping] still returns the mapping.  For a
    name that is not listed it answers [False] and changes nothing. *)
Theorem register_then_unregister (self : FontRegistry)
    (font_definition : FontDefinition) :
  exists registry,
    register_font lower self font_definition = Returned registry /\
    get_font_mapping registry (def_name font_definition)
      = Some (to_font_mapping lower font_definition) /\
    In (def_name font_definition) (list_available_fonts registry) /\
    (NoDup (list_available_fonts self) -> NoDup (list_available_fonts registry)) /\
    snd (unregister_font registry (def_name font_definition)) = true /\
    ~ In (def_name font_definition)
        (list_available_fonts
           (fst (unregister_font registry (def_name font_definition)))) /\
    get_font_mapping (fst (unregister_font registry (def_name font_definition)))
      (def_name font_definition)
      = Some (to_font_mapping lower font_definition) /\
    (forall other,
        ~ In other (list_available_fonts registry) ->
        unregister_font registry other = (registry, false)).
Proof.
  unfold register_font. cbn [bind]. eexists. split; [reflexivity|].
  assert (Hname : name (to_font_mapping lower font_definition)
                  = def_name font_definition) by reflexivity.
  assert (Hget : get_mapping
                   (register_mapping (font_manager self)
                      (to_font_mapping lower font_definition) false)
                   (def_name font_definition)
                 = Some (to_font_mapping lower font_definition)).
  { unfold get_mapping, register_mapping. cbn [mappings].
    rewrite Hname, find_dict_set_same. reflexivity. }
  assert (Hin : In (def_name font_definition)
                  (set_add (registered_fonts self) (def_name font_definition)))
    by apply set_add_In.
  unfold get_font_mapping, list_available_fonts, unregister_font.
  cbn [font_manager registered_fonts]. rewrite Hname.
  rewrite (proj2 (existsb_str_eqb_In _ _) Hin). cbn [fst snd font_manager registered_fonts].
  split; [exact Hget|]. split; [exact Hin|].
  split; [apply set_add_NoDup|]. split; [reflexivity|].
  split; [apply filter_not_In|]. split; [exact Hget|].
  intros other Ho.
  destruct (existsb (str_eqb other) _) eqn:E; [|reflexivity].
  apply existsb_str_eqb_In in E. contradiction.
Qed.

End Unregistration.

(** * Dictionaries of a font definition *)

Section DefinitionDictionaries.

Import Registry Definitions.

Lemma strategy_round_trip (s : ConversionStrategy) :
  strategy_of_value (strategy_value s) = Some s.
Proof. destruct s; reflexivity. Qed.

Lemma rules_round_trip (rules : list MappingRule) :
  rules_from_dict
    (List.map
       (fun rule =>
          mkRuleData (Some (from_char rule)) (Some (to_char rule))
            (Some (rule_priority rule)) (before rule) (after rule)
            (rule_description rule))
       rules)
  = inr rules.
Proof.
  induction rules as [|rule rules IH]; [reflexivity|].
  cbn [List.map rules_from_dict]. rewrite IH.
  unfold rule_from_dict. cbn. now destruct rule.
Qed.

(** X19. Reading back what [to_dict] wrote gives the definition again:
    [from_dict(to_dict(d))] is [d], for every definition. *)
Theorem from_dict_to_dict (definition : FontDefinition) :
  from_dict (to_dict definition) = inr definition.
Proof.
  unfold from_dict, to_dict.
  cbn [dd_rules dd_name dd_strategy dd_display_name dd_font_type dd_description
       dd_version dd_author dd_source_font dd_target_font dd_metadata get_default].
  rewrite rules_round_trip, strategy_round_trip.
  now destruct definition.
Qed.

End DefinitionDictionaries.

(** * Dictionaries as they are loaded *)

Section LoadedDictionaries.

Import Registry Json.

Lemma rule_from_dict_readable (v : value) :
  rule_readable v = true -> exists rule, rule_from_dict v = inr rule.
Proof.
  destruct v as [| | | | | |d]; try discriminate.
  cbn [rule_readable rule_from_dict]. unfold has_key, subscript.
  destruct (lookup d (lit "from_char")); [|discriminate].
  destruct (lookup d (lit "to_char")); [|discriminate].
  eauto.
Qed.

Lemma rule_from_dict_unreadable (v : value) :
  rule_readable v = false ->
  exists e, rule_from_dict v = inl e /\ rule_error e.
Proof.
  unfold rule_error.
  destruct v as [| | | | | |d]; cbn [rule_from_dict]; eauto.
  cbn [rule_readable]. unfold has_key, subscript.
  destruct (lookup d (lit "from_char")); [|eauto].
  destruct (lookup d (lit "to_char")); [discriminate|eauto].
Qed.

Lemma rules_from_items_readable (items : list value) :
  forallb rule_readable items = true ->
  exists rules,
    rules_from_items items = inr rules /\
    List.length rules = List.length items.
Proof.
  induction items as [|v items IH]; intros H.
  - exists []. split; reflexivity.
  - cbn [forallb] in H. apply andb_true_iff in H as [Hv Hi].
    destruct (IH Hi) as [rules [Hr Hlen]].
    destruct (rule_from_dict_readable v Hv) as [rule Hrule].
    cbn [rules_from_items]. rewrite Hrule, Hr.
    eexists. split; [reflexivity|]. cbn [List.length]. now rewrite Hlen.
Qed.

Lemma rules_from_items_unreadable (items : list value) :
  forallb rule_readable items = false ->
  exists e, rules_from_items items = inl e /\ rule_error e.
Proof.
  induction items as [|v items IH]; intros H; [discriminate|].
  cbn [forallb] in H. cbn [rules_from_items].
  destruct (rule_readable v) eqn:Hv.
  - cbn [andb] in H. destruct (IH H) as [e [He Hk]].
    destruct (rule_from_dict_readable v Hv) as [rule ->].
    rewrite He. eauto.
  - destruct (rule_from_dict_unreadable v Hv) as [e [-> Hk]]. eauto.
Qed.

(** The loop over the rules, by the value under the key 'rules'. *)
Lemma rules_loop_readable (data : dict) :
  rules_readable data = true ->
  exists rules,
    match iterate (get data (lit "rules") (VList [])) with
    | inl e => inl e
    | inr items => rules_from_items items
    end = inr rules /\
    List.length rules = rule_count data.
Proof.
  unfold rules_readable, rule_count, get.
  destruct (lookup data (lit "rules")) as [v|].
  - destruct v as [| | | |s|items|items]; try discriminate.
    + destruct s; [|discriminate]. intros _. exists []. split; reflexivity.
    + intros H. cbn [iterate]. now apply rules_from_items_readable.
    + destruct items; [|discriminate]. intros _. exists []. split; reflexivity.
  - intros _. exists []. split; reflexivity.
Qed.

Lemma rules_loop_unreadable (data : dict) :
  rules_readable data = false ->
  exists e,
    match iterate (get data (lit "rules") (VList [])) with
    | inl e => inl e
    | inr items => rules_from_items items
    end = inl e /\
    rule_error e /\
    (forall v, lookup data (lit "rules") = Some v ->
               iterate v = inl Type_error -> e = Type_error).
Proof.
  unfold rules_readable, get, rule_error.
  destruct (lookup data (lit "rules")) as [v|]; [|discriminate].
  destruct v as [| |i|f|s|items|items]; cbn [iterate]; intros H.
  1-4: exists Type_error; split; [reflexivity|]; split; [now left|reflexivity].
  - destruct s as [|c s]; [discriminate|].
    exists Type_error. split; [reflexivity|]. split; [now left|reflexivity].
  - destruct (rules_from_items_unreadable items H) as [e [He Hk]].
    exists e. split; [exact He|]. split; [exact Hk|].
    intros v Hv Hi. injection Hv as <-. discriminate Hi.
  - destruct items as [|kv items]; [discriminate|].
    exists Type_error. split; [reflexivity|]. split; [now left|reflexivity].
Qed.

Lemma strategy_of_known (v : value) :
  match v with
  | VStr s =>
      existsb (str_eqb s)
        [lit "simple"; lit "contextual"; lit "pattern_based"; lit "rule_based";
         lit "custom"]
  | _ => false
  end = true ->
  exists strategy, strategy_of v = inr strategy.
Proof.
  destruct v; try discriminate.
  cbn [existsb strategy_of]. unfold Definitions.strategy_of_value.
  repeat match goal with
         | |- context [str_eqb s ?k] => destruct (str_eqb s k); [eauto|]
         end.
  discriminate.
Qed.

Lemma strategy_of_unknown (v : value) :
  match v with
  | VStr s =>
      existsb (str_eqb s)
        [lit "simple"; lit "contextual"; lit "pattern_based"; lit "rule_based";
         lit "custom"]
  | _ => false
  end = false ->
  strategy_of v = inl (Value_error v).
Proof.
  destruct v; try reflexivity.
  cbn [existsb strategy_of]. unfold Definitions.strategy_of_value.
  repeat match goal with
         | |- context [str_eqb s ?k] => destruct (str_eqb s k); [discriminate|]
         end.
  reflexivity.
Qed.

(** X20. [from_dict] on the dictionary that [json.load] returned.  It
    returns a definition exactly when the loop over the rules reads them
    (the key 'rules' is absent, or holds a list of dicts with the keys
    'from_char' and 'to_char', or an empty str or dict), the key 'name'
    is there, and the strategy (by default 'simple') is the value of a
    member of [ConversionStrategy]; the definition then carries the value
    of 'name', one rule per item of the list, and the name as display
    name when the key 'display_name' is absent.  Otherwise it raises: a
    [TypeError] or the [KeyError] of 'from_char' or 'to_char' from the
    loop, a [TypeError] when 'rules' holds a value that is not iterable
    (the null value, a number); else the [KeyError] of 'name'; else the
    [ValueError] of the strategy. *)
Theorem from_dict_succeeds (data : dict) :
  ((exists definition, from_dict data = inr definition) <->
   rules_readable data = true /\
   has_key data (lit "name") = true /\
   strategy_known data = true) /\
  (forall definition,
      from_dict data = inr definition ->
      lookup data (lit "name") = Some (fo_name definition) /\
      List.length (fo_rules definition) = rule_count data /\
      (has_key data (lit "display_name") = false ->
       fo_display_name definition = fo_name definition)) /\
  (rules_readable data = false ->
   exists e,
     from_dict data = inl e /\
     (e = Type_error \/ e = Key_error (lit "from_char")
      \/ e = Key_error (lit "to_char")) /\
     (forall v, lookup data (lit "rules") = Some v ->
                iterate v = inl Type_error -> e = Type_error)) /\
  (rules_readable data = true -> has_key data (lit "name") = false ->
   from_dict data = inl (Key_error (lit "name"))) /\
  (rules_readable data = true -> has_key data (lit "name") = true ->
   strategy_known data = false ->
   from_dict data
   = inl (Value_error (get data (lit "strategy") (VStr (lit "simple"))))).
Proof.
  unfold from_dict, strategy_known.
  destruct (rules_readable data) eqn:Hr.
  - destruct (rules_loop_readable data Hr) as [rules [-> Hlen]].
    unfold has_key, subscript.
    destruct (lookup data (lit "name")) as [name|].
    + pose proof (strategy_of_known (get data (lit "strategy") (VStr (lit "simple"))))
        as Hk.
      pose proof (strategy_of_unknown (get data (lit "strategy") (VStr (lit "simple"))))
        as Hu.
      destruct (match get data (lit "strategy") (VStr (lit "simple")) with
                | VStr s => _ | _ => false end).
      * destruct (Hk eq_refl) as [strategy ->].
        split; [split; eauto|].
        split; [|split; [discriminate|split; discriminate]].
        intros definition H. injection H as <-.
        cbn [fo_name fo_rules fo_display_name].
        split; [reflexivity|]. split; [exact Hlen|].
        unfold get.
        destruct (lookup data (lit "display_name")); [discriminate|reflexivity].
      * rewrite (Hu eq_refl).
        split; [split; [intros [? H]; discriminate H | intros (_ & _ & H); discriminate H]|].
        split; [intros ? H; discriminate H|].
        split; [discriminate|]. split; [discriminate|reflexivity].
    + split; [split; [intros [? H]; discriminate H | intros (_ & H & _); discriminate H]|].
      split; [intros ? H; discriminate H|].
      split; [discriminate|]. split; [reflexivity|discriminate].
  - destruct (rules_loop_unreadable data Hr) as [e (-> & Hk & Hn)].
    split; [split; [intros [? H]; discriminate H | intros (H & _); discriminate H]|].
    split; [intros ? H; discriminate H|].
    split; [|split; discriminate].
    intros _. exists e. split; [reflexivity|]. split; [exact Hk|exact Hn].
Qed.

(** What [to_dict] writes is read back as the same definition. *)
Lemma rules_from_items_to_dict (rules : list MappingRule) :
  rules_from_items
    (List.map
       (fun rule =>
          VDict [ (lit "from_char", VStr (from_char rule));
                  (lit "to_char", VStr (to_char rule));
                  (lit "priority", VInt (rule_priority rule));
                  (lit "before", optional (before rule));
                  (lit "after", optional (after rule));
                  (lit "description", optional (rule_description rule)) ])
       rules)
  = inr (List.map rule_object rules).
Proof.
  induction rules as [|rule rules IH]; [reflexivity|].
  cbn [List.map rules_from_items]. rewrite IH. reflexivity.
Qed.

Lemma from_dict_reads_to_dict (definition : FontDefinition) :
  from_dict (to_dict definition) = inr (definition_object definition).
Proof.
  unfold from_dict.
  change (get (to_dict definition) (lit "rules") (VList []))
    with (VList (List.map
              (fun rule =>
                 VDict [ (lit "from_char", VStr (from_char rule));
                         (lit "to_char", VStr (to_char rule));
                         (lit "priority", VInt (rule_priority rule));
                         (lit "before", optional (before rule));
                         (lit "after", optional (after rule));
                         (lit "description", optional (rule_description rule)) ])
              (def_rules definition))).
  cbn [iterate]. rewrite rules_from_items_to_dict.
  change (subscript (to_dict definition) (lit "name"))
    with (@inr error value (VStr (def_name definition))).
  change (get (to_dict definition) (lit "strategy") (VStr (lit "simple")))
    with (VStr (strategy_value (strategy definition))).
  cbn [strategy_of]. rewrite strategy_round_trip.
  reflexivity.
Qed.

(** On a dictionary with typed values, [Json.from_dict] does what
    [Definitions.from_dict] does. *)
Lemma lookup_item {A : Type} (key : string) (encode : A -> value) (o : option A)
    (rest : dict) (k : str) :
  lookup (item key encode o ++ rest) k =
  if str_eqb (lit key) k
  then match o with Some a => Some (encode a) | None => lookup rest k end
  else lookup rest k.
Proof.
  destruct o; cbn [item app lookup]; destruct (str_eqb (lit key) k); reflexivity.
Qed.

Lemma lookup_item_last {A : Type} (key : string) (encode : A -> value)
    (o : option A) (k : str) :
  lookup (item key encode o) k =
  if str_eqb (lit key) k
  then match o with Some a => Some (encode a) | None => None end
  else None.
Proof.
  rewrite <- (app_nil_r (item key encode o)). apply lookup_item.
Qed.

Lemma rule_from_dict_typed (r : Definitions.rule_data) :
  rule_from_dict (rule_data_value r) =
  match Definitions.rule_from_dict r with
  | inl (Definitions.MissingKey key) => inl (Key_error (lit key))
  | inl (Definitions.NoSuchStrategy v) => inl (Value_error (VStr v))
  | inr rule => inr (rule_object rule)
  end.
Proof.
  destruct r as [f t p b a d].
  destruct f, t, p, b, a, d; reflexivity.
Qed.

Lemma rules_from_items_typed (l : list Definitions.rule_data) :
  rules_from_items (List.map rule_data_value l) =
  match Definitions.rules_from_dict l with
  | inl (Definitions.MissingKey key) => inl (Key_error (lit key))
  | inl (Definitions.NoSuchStrategy v) => inl (Value_error (VStr v))
  | inr rules => inr (List.map rule_object rules)
  end.
Proof.
  induction l as [|r l IH]; [reflexivity|].
  cbn [List.map rules_from_items Definitions.rules_from_dict].
  rewrite rule_from_dict_typed, IH.
  destruct (Definitions.rule_from_dict r) as [[|]|rule]; try reflexivity.
  destruct (Definitions.rules_from_dict l) as [[|]|rules]; reflexivity.
Qed.

Lemma from_dict_typed (data : Definitions.definition_data) :
  from_dict (definition_data_dict data)
  = typed_result (Definitions.from_dict data).
Proof.
  destruct data as [name dn ft de ve au sf tf st me ru].
  unfold from_dict, Definitions.from_dict, get, subscript, definition_data_dict.
  cbn [Definitions.dd_name Definitions.dd_display_name Definitions.dd_font_type
       Definitions.dd_description Definitions.dd_version Definitions.dd_author
       Definitions.dd_source_font Definitions.dd_target_font
       Definitions.dd_strategy Definitions.dd_metadata Definitions.dd_rules].
  repeat (first [rewrite lookup_item | rewrite lookup_item_last];
          match goal with
          | |- context [str_eqb (lit ?a) (lit ?b)] =>
              let v := eval vm_compute in (str_eqb (lit a) (lit b)) in
              change (str_eqb (lit a) (lit b)) with v
          end; cbv iota).
  assert (Hrules :
            match
              iterate
                match
                  match ru with
                  | Some a => Some (VList (List.map rule_data_value a))
                  | None => None
                  end
                with
                | Some v => v
                | None => VList []
                end
            with
            | inl e => inl e
            | inr items => rules_from_items items
            end
            = match Definitions.rules_from_dict (Definitions.get_default ru []) with
              | inl (Definitions.MissingKey key) => inl (Key_error (lit key))
              | inl (Definitions.NoSuchStrategy v) => inl (Value_error (VStr v))
              | inr rules => inr (List.map rule_object rules)
              end).
  { destruct ru as [rules|]; [|reflexivity].
    cbn [iterate Definitions.get_default]. apply rules_from_items_typed. }
  rewrite Hrules. clear Hrules.
  destruct (Definitions.rules_from_dict (Definitions.get_default ru []))
    as [[key|v]|rules]; try reflexivity.
  destruct name as [name|]; [|reflexivity].
  destruct st as [st|]; cbn [Definitions.get_default strategy_of];
    (destruct (Definitions.strategy_of_value _); [|reflexivity]);
    destruct dn, ft, de, ve, au, sf, tf, me; reflexivity.
Qed.

End LoadedDictionaries.

(** * The built-in mappings and the converter *)

Section BuiltinTables.

Import Fonts Builtin BuiltinFacts.

Lemma dict_get_app_key {V : Type} (d extra : list (char * V)) (c : char) (default : V) :
  In c (List.map fst d) ->
  dict_get (d ++ extra) c default = dict_get d c default.
Proof.
  induction d as [|[k v] d IH]; cbn [List.map fst In app dict_get]; [tauto|].
  intros [-> | Hin].
  - now rewrite char_eqb_refl.
  - destruct (char_eqb k c); [reflexivity | now apply IH].
Qed.

(** X21. The tables of Preeti Plus and Kantipur keep every entry of the
    standard table with its target and add six keys each, in this order:
    the marker characters that [PreetiVariantDetector] counts for that
    variant. *)
Theorem variant_tables_extend_standard :
  (forall c default,
      In c (List.map fst standard_character_mappings) ->
      dict_get plus_character_mappings c default
        = dict_get standard_character_mappings c default /\
      dict_get kantipur_character_mappings c default
        = dict_get standard_character_mappings c default) /\
  List.map fst plus_character_mappings
    = List.map fst standard_character_mappings ++ Variants.patterns_preeti_plus /\
  List.map fst kantipur_character_mappings
    = List.map fst standard_character_mappings ++ Variants.patterns_kantipur.
Proof.
  assert (Hp : plus_character_mappings = standard_character_mappings ++ plus_mappings)
    by reflexivity.
  assert (Hk : kantipur_character_mappings
               = standard_character_mappings ++ kantipur_overrides)
    by reflexivity.
  split; [|split; reflexivity].
  intros c default Hin. rewrite Hp, Hk.
  split; now apply dict_get_app_key.
Qed.

Lemma variant_tables_extend_standard_witness :
  dict_get plus_character_mappings 107%N [] = [2346%N].
Proof.
  destruct variant_tables_extend_standard as [H _].
  destruct (H 107%N []) as [Hplus _].
  - cbn. tauto.
  - rewrite Hplus. reflexivity.
Defined.

End BuiltinTables.

Section BuiltinAgreement.

Import Fonts Builtin BuiltinFacts MappingFacts.

Variable re_match : str -> str -> Z -> outcome (option Z).

Lemma pre_substitute_no_sequence (text : str) :
  Forall (fun seq => contains text seq = false) special_sequences ->
  pre_substitute text = text.
Proof.
  unfold special_sequences. intros H.
  repeat match goal with
         | H : Forall _ (_ :: _) |- _ => inversion H; clear H; subst
         end.
  unfold pre_substitute. cbv zeta.
  rewrite (replace_not_contains text (lit "qm")) by assumption.
  rewrite (replace_not_contains text (lit "f]")) by assumption.
  rewrite (replace_not_contains text (lit "km")) by assumption.
  rewrite (replace_not_contains text (lit "0f")) by assumption.
  rewrite (replace_not_contains text (lit "If")) by assumption.
  rewrite (replace_not_contains text (lit "if")) by assumption.
  now rewrite (replace_not_contains text (lit "cf")) by assumption.
Qed.

Lemma contains_false_skipn (s sub : str) (n : nat) :
  contains s sub = false -> startswith (skipn n s) sub = false.
Proof.
  revert n; induction s as [|c r IH]; intros n H.
  - destruct n; cbn [skipn]; cbn [contains] in H;
      now apply orb_false_iff in H as [H _].
  - cbn [contains] in H. apply orb_false_iff in H as [H1 H2].
    destruct n; cbn [skipn]; [exact H1 | now apply IH].
Qed.

Lemma find_app {A : Type} (P : A -> bool) (l1 l2 : list A) :
  find P (l1 ++ l2) = match find P l1 with Some x => Some x | None => find P l2 end.
Proof.
  induction l1 as [|x l1 IH]; [reflexivity|].
  cbn [app find]. now destruct (P x).
Qed.

Lemma find_none_all {A : Type} (P : A -> bool) (l : list A) :
  (forall x, In x l -> P x = false) -> find P l = None.
Proof.
  induction l as [|x l IH]; intros H; [reflexivity|].
  cbn [find]. rewrite (H x (or_introl eq_refl)). apply IH.
  intros y Hy. apply H. now right.
Qed.

Lemma find_map {A B : Type} (P : B -> bool) (f : A -> B) (l : list A) :
  find P (List.map f l) = option_map f (find (fun x => P (f x)) l).
Proof.
  induction l as [|x l IH]; [reflexivity|].
  cbn [List.map find]. now destruct (P (f x)).
Qed.

Lemma standard_rules_order :
  rules standard_mapping
  = standard_special_rules ++ List.map char_rule standard_character_mappings.
Proof. reflexivity. Qed.

Lemma standard_rules_character : character_rules (rules standard_mapping).
Proof.
  unfold character_rules. apply Forall_forall.
  assert (H : forallb (fun rule => match mapping_type rule with
                                   | CHARACTER => true | _ => false end)
                (rules standard_mapping) = true) by reflexivity.
  rewrite forallb_forall in H. intros rule Hin. specialize (H rule Hin).
  now destruct (mapping_type rule).
Qed.

Lemma table_keys_ascii (kv : char * str) :
  In kv standard_character_mappings -> (fst kv < 128)%N.
Proof.
  assert (H : forallb (fun kv => (fst kv <? 128)%N) standard_character_mappings = true)
    by reflexivity.
  rewrite forallb_forall in H. intros Hin. now apply N.ltb_lt, H.
Qed.

Lemma ascii_table_agrees :
  forallb table_entry_agrees (List.map N.of_nat (seq 0 128)) = true.
Proof. vm_compute. reflexivity. Qed.

Lemma char_target_non_ascii (c : char) :
  (128 <= c)%N -> is_extra_symbol c = false -> char_target c = [c].
Proof.
  intros Hc Hextra. apply char_target_unrecognized.
  unfold recognized, is_ascii_letter, is_ascii_digit.
  replace (c <=? 122)%N with false by (symmetry; apply N.leb_gt; lia).
  replace (c <=? 90)%N with false by (symmetry; apply N.leb_gt; lia).
  replace (c <=? 57)%N with false by (symmetry; apply N.leb_gt; lia).
  rewrite !andb_false_r. cbn [orb].
  unfold is_symbol_key, symbols_dict. cbn [existsb fst].
  repeat match goal with
         | |- context [char_eqb ?k c] =>
             replace (char_eqb k c) with false;
             [ | symmetry; apply char_eqb_neq; intros <-;
                 first [ lia | discriminate Hextra ] ]
         end.
  reflexivity.
Qed.

(** The standard table and the converter's tables give the same target
    to every character, the extra symbol keys apart. *)
Lemma table_agrees (c : char) :
  is_extra_symbol c = false ->
  match find (fun kv => str_eqb [fst kv] [c]) standard_character_mappings with
  | Some kv => snd kv = char_target c
  | None => char_target c = [c]
  end.
Proof.
  intros Hextra. destruct (N.lt_ge_cases c 128) as [Hlt|Hge].
  - pose proof ascii_table_agrees as H. rewrite forallb_forall in H.
    assert (Hin : In c (List.map N.of_nat (seq 0 128))).
    { rewrite <- (N2Nat.id c). apply in_map. apply in_seq. lia. }
    specialize (H c Hin). unfold table_entry_agrees in H.
    destruct (find _ standard_character_mappings); now apply str_eqb_eq.
  - rewrite find_none_all.
    + now apply char_target_non_ascii.
    + intros kv Hin. apply table_keys_ascii in Hin.
      cbn [str_eqb]. rewrite andb_true_r. apply char_eqb_neq. lia.
Qed.

(** X22. The rule-based standard mapping and the converter agree on
    every text that holds none of the seven literal sequences and whose
    characters are none of 'l', '{' and the nine non-ASCII symbol keys of
    the converter: [FontMapping.convert_text] of the standard mapping
    returns what [convert_text] returns, within [len(text) + 1] tests of
    the loop condition. *)
Theorem standard_mapping_agrees_with_converter (text : str)
    (convert_numbers : bool) :
  Forall plain_char text ->
  Forall (fun seq => contains text seq = false) special_sequences ->
  Fonts.convert_text re_match (S (List.length text)) standard_mapping text
  = Converter.convert_text text convert_numbers.
Proof.
  intros Hplain Hseq.
  rewrite convert_text_flat, pre_substitute_no_sequence by assumption.
  rewrite scan_no_marker.
  2:{ eapply Forall_impl; [|exact Hplain]. intros c (A & B & _). now split. }
  unfold Fonts.convert_text.
  destruct text as [|c0 text]; [reflexivity|].
  pose proof (convert_loop_resolve re_match (rules standard_mapping) (c0 :: text)
                standard_rules_character
                (S (List.length (c0 :: text))) 0 [] (Z.le_refl 0)) as E.
  change (convert_loop re_match (S (List.length (c0 :: text)))
            (rules standard_mapping) (c0 :: text) 0 =
          resolve_with (fun _ _ output => output) (S (List.length (c0 :: text)))
            (rules standard_mapping) (c0 :: text) 0 []) in E.
  rewrite E.
  rewrite (resolve_charwise _ (rules standard_mapping) char_target);
    [reflexivity | | lia | cbn [Z.to_nat skipn]; lia].
  intros pos c rest before Hpos Es.
  assert (Hc : is_extra_symbol c = false).
  { assert (Hin : In c (c0 :: text)).
    { rewrite <- (firstn_skipn (Z.to_nat pos) (c0 :: text)), Es.
      apply in_or_app. right. now left. }
    rewrite Forall_forall in Hplain. now destruct (Hplain c Hin) as (_ & _ & H). }
  rewrite standard_rules_order, find_app.
  rewrite (find_none_all _ standard_special_rules).
  - rewrite (find_ext_in _ (fun rule => str_eqb (source rule) [c])).
    + rewrite find_map. cbn [char_rule source].
      pose proof (table_agrees c Hc) as Ht.
      destruct (find _ standard_character_mappings) as [kv|]; cbn [option_map].
      * split; [reflexivity | exact Ht].
      * exact Ht.
    + intros rule Hin. apply in_map_iff in Hin as [kv [<- _]].
      apply (matches_at_single_char before (c0 :: text) pos c rest (char_rule kv) Es).
      * now exists (fst kv).
      * split; now left.
  - intros rule Hin. unfold matches_at.
    assert (Hs : In (source rule) special_sequences).
    { unfold standard_special_rules in Hin. cbn [In] in Hin.
      repeat (destruct Hin as [<- | Hin]; [cbn; tauto|]). contradiction. }
    rewrite Forall_forall in Hseq.
    now rewrite (contains_false_skipn _ _ _ (Hseq _ Hs)).
Qed.

End BuiltinAgreement.

Section BuiltinAgreementExamples.

Import Fonts Builtin BuiltinFacts.

Lemma standard_mapping_agrees_with_converter_witness :
  Fonts.convert_text re_no_match 4 standard_mapping (lit "sfd")
  = Converter.convert_text (lit "sfd") true.
Proof.
  apply (standard_mapping_agrees_with_converter re_no_match (lit "sfd") true).
  - repeat constructor; discriminate.
  - repeat constructor.
Defined.

End BuiltinAgreementExamples.

(** * What the converted text holds *)

Section ConvertedText.

Import OutputFacts.

Lemma alnum_ranges (c : char) :
  is_ascii_letter c || is_ascii_digit c = false ->
  (97 <=? ord c) && (ord c <=? 122) = false /\
  (65 <=? ord c) && (ord c <=? 90) = false /\
  (48 <=? ord c) && (ord c <=? 57) = false.
Proof.
  unfold is_ascii_letter, is_ascii_digit. intros H.
  apply orb_false_iff in H as [H Hd]. apply orb_false_iff in H as [Hl Hu].
  rewrite (ord_between 97 122), (ord_between 65 90), (ord_between 48 57).
  auto.
Qed.

Lemma char_target_alnum_free (c : char) : alnum_free (char_target c) = true.
Proof.
  assert (Htab : forall tab, forallb alnum_free tab = true ->
                 forall i t, 0 <= i -> getitem tab i = Returned t -> alnum_free t = true).
  { intros tab Htab i t Hi Hg.
    rewrite forallb_forall in Htab. apply Htab. eapply getitem_In; eauto. }
  destruct (is_ascii_letter c || is_ascii_digit c) eqn:Hc.
  - destruct (lookup_char_returns c) as [t Ht].
    unfold char_target. rewrite Ht. revert Ht. unfold lookup_char.
    destruct ((97 <=? ord c) && (ord c <=? 122)) eqn:E1.
    { apply andb_true_iff in E1 as [H1 H2]. apply Z.leb_le in H1, H2.
      intros Ht. eapply (Htab unicode_a_to_z); [reflexivity | | exact Ht]. lia. }
    destruct ((65 <=? ord c) && (ord c <=? 90)) eqn:E2.
    { apply andb_true_iff in E2 as [H1 H2]. apply Z.leb_le in H1, H2.
      intros Ht. eapply (Htab unicode_A_to_Z); [reflexivity | | exact Ht]. lia. }
    destruct ((48 <=? ord c) && (ord c <=? 57)) eqn:E3.
    { apply andb_true_iff in E3 as [H1 H2]. apply Z.leb_le in H1, H2.
      intros Ht. eapply (Htab unicode_0_to_9); [reflexivity | | exact Ht]. lia. }
    exfalso. unfold is_ascii_letter, is_ascii_digit in Hc.
    rewrite <- (ord_between 97 122), <- (ord_between 65 90),
      <- (ord_between 48 57) in Hc.
    change (Z.of_N 97) with 97 in Hc. change (Z.of_N 122) with 122 in Hc.
    change (Z.of_N 65) with 65 in Hc. change (Z.of_N 90) with 90 in Hc.
    change (Z.of_N 48) with 48 in Hc. change (Z.of_N 57) with 57 in Hc.
    rewrite E1, E2, E3 in Hc. discriminate.
  - destruct (alnum_ranges c Hc) as (E1 & E2 & E3).
    unfold char_target, lookup_char. rewrite E1, E2, E3.
    destruct (dict_get_cases symbols_dict c [c]) as [-> | Hin].
    + cbn [alnum_free forallb]. now rewrite Hc.
    + assert (Hall : forallb alnum_free (List.map snd symbols_dict) = true)
        by reflexivity.
      rewrite forallb_forall in Hall. now apply Hall.
Qed.

(** X23. The string returned by [convert_text] holds no ASCII letter and
    no ASCII digit, whatever the input: every letter and digit of the
    input is replaced through the class tables, whose targets hold none,
    and no other character is mapped to one. *)
Theorem convert_text_alnum_free (text : str) (convert_numbers : bool) :
  exists u,
    convert_text text convert_numbers = Returned u /\ alnum_free u = true.
Proof.
  eexists. split; [apply convert_text_flat|].
  induction (scan (pre_substitute text) []) as [|c s IH]; [reflexivity|].
  cbn [flat_map]. unfold alnum_free in *. rewrite forallb_app, IH, andb_true_r.
  apply char_target_alnum_free.
Qed.

End ConvertedText.

(** * Mappings built from validated definitions *)

Section ValidatedDefinitions.

Import Fonts Registry RegistrationFacts.

Variable lower : str -> str.
Variable re_match : str -> str -> Z -> outcome (option Z).

Lemma to_font_mapping_rules_In (definition : FontDefinition) (rule : FontRule) :
  In rule (rules (to_font_mapping lower definition)) ->
  exists mr, In mr (def_rules definition) /\ rule = to_font_rule mr.
Proof.
  unfold to_font_mapping, FontMapping_init. cbn [rules]. intros H.
  apply (Permutation_in _ (Permutation_sym (sort_rules_perm _))) in H.
  apply in_map_iff in H as [mr [<- Hin]]. eauto.
Qed.

(** X24. A definition accepted by the default validators gives a mapping
    that converts every text: the mapping built by [to_font_mapping] has
    [CHARACTER] rules only, sorted by priority, each with a non-empty
    source, so [FontMapping.convert_text] returns within
    [len(text) + 1] tests of its loop condition. *)
Theorem validated_definition_converts (definition : FontDefinition) (text : str) :
  validate_definition definition = [] ->
  character_rules (rules (to_font_mapping lower definition)) /\
  by_priority_desc (rules (to_font_mapping lower definition)) /\
  exists result,
    Fonts.convert_text re_match (S (List.length text))
      (to_font_mapping lower definition) text
    = Returned result.
Proof.
  intros Hv.
  assert (Hc : character_rules (rules (to_font_mapping lower definition))).
  { apply Forall_forall. intros rule Hin.
    apply to_font_mapping_rules_In in Hin as [mr [_ ->]]. reflexivity. }
  assert (Hne : Forall (fun rule => source rule <> [])
                  (rules (to_font_mapping lower definition))).
  { apply Forall_forall. intros rule Hin.
    apply to_font_mapping_rules_In in Hin as [mr [Hin ->]].
    unfold validate_definition, validate_rules in Hv.
    apply app_eq_nil in Hv as [_ Hv].
    apply validate_rules_from_nil in Hv. rewrite Forall_forall in Hv.
    now destruct (Hv mr Hin). }
  split; [exact Hc|]. split; [apply sort_rules_sorted|].
  unfold Fonts.convert_text.
  destruct text as [|c text]; [eauto|].
  pose proof (convert_loop_resolve re_match
                (rules (to_font_mapping lower definition)) (c :: text) Hc
                (S (List.length (c :: text))) 0 [] (Z.le_refl 0)) as E.
  change (convert_loop re_match (S (List.length (c :: text)))
            (rules (to_font_mapping lower definition)) (c :: text) 0 =
          resolve_with (fun _ _ output => output) (S (List.length (c :: text)))
            (rules (to_font_mapping lower definition)) (c :: text) 0 []) in E.
  rewrite E.
  apply resolve_with_returns; [assumption | lia |].
  cbn [Z.to_nat skipn]. lia.
Qed.

End ValidatedDefinitions.

Section MoreExamples.

Import Fonts Registry RegistryQueries Definitions RegistrationFacts.

(** A definition with one rule. *)
Lemma validated_definition_converts_witness :
  exists result,
    Fonts.convert_text re_no_match 3
      (to_font_mapping ascii_lower
         (mkFontDefinition (lit "mine") (lit "Mine") (lit "custom") []
            (lit "1.0.0") [] [] (lit "unicode") SIMPLE
            [mkMappingRule (lit "a") (lit "X") 0 None None None] []))
      (lit "ab")
    = Returned result.
Proof.
  destruct (validated_definition_converts ascii_lower re_no_match
              (mkFontDefinition (lit "mine") (lit "Mine") (lit "custom") []
                 (lit "1.0.0") [] [] (lit "unicode") SIMPLE
                 [mkMappingRule (lit "a") (lit "X") 0 None None None] [])
              (lit "ab") eq_refl) as [_ [_ H]].
  exact H.
Defined.

Lemma register_then_unregister_witness :
  exists registry,
    register_font ascii_lower empty_registry empty_definition = Returned registry /\
    NoDup (list_available_fonts registry) /\
    unregister_font registry (lit "other") = (registry, false).
Proof.
  destruct (register_then_unregister ascii_lower empty_registry empty_definition)
    as [registry (H1 & _ & _ & H2 & _ & _ & _ & H3)].
  exists registry. split; [exact H1|]. split.
  - apply H2. constructor.
  - apply H3. injection H1 as <-. cbn. intros [H|[]]. discriminate H.
Defined.

Lemma from_dict_succeeds_witness :
  Json.from_dict [ (lit "name", Json.VStr (lit "n")); (lit "rules", Json.VNone) ]
  = inl Json.Type_error /\
  Json.from_dict [ (lit "rules", Json.VList []) ]
  = inl (Json.Key_error (lit "name")) /\
  Json.from_dict [ (lit "name", Json.VInt 5); (lit "strategy", Json.VNone) ]
  = inl (Json.Value_error Json.VNone) /\
  Json.lookup (Json.to_dict empty_definition) (lit "name")
  = Some (Json.fo_name (Json.definition_object empty_definition)).
Proof.
  split; [|split; [|split]].
  - destruct (from_dict_succeeds
                [ (lit "name", Json.VStr (lit "n")); (lit "rules", Json.VNone) ])
      as (_ & _ & H & _).
    destruct (H eq_refl) as [e (-> & _ & He)].
    f_equal. apply (He Json.VNone); reflexivity.
  - destruct (from_dict_succeeds [ (lit "rules", Json.VList []) ])
      as (_ & _ & _ & H & _).
    apply H; reflexivity.
  - destruct (from_dict_succeeds
                [ (lit "name", Json.VInt 5); (lit "strategy", Json.VNone) ])
      as (_ & _ & _ & _ & H).
    apply H; reflexivity.
  - destruct (from_dict_succeeds (Json.to_dict empty_definition))
      as (_ & H & _).
    apply (H (Json.definition_object empty_definition)). reflexivity.
Defined.

End MoreExamples.
